(** * mdp-algo: a shallow embedding of the two-level maze planner

    The development follows the Python sources:
    - [tools/consts.py] and [tools/movement.py]: constants, [Direction], [Motion];
    - [entities/entity.py]: [CellState], [Obstacle], [Grid] and the clearance tests;
    - [algorithms/algo.py]: [MazeSolver], the pose-space search and the tour solver.

    Python integers are unbounded, so they are [Z].  A Python object that is
    used as a dictionary key without [__eq__]/[__hash__] is compared by
    identity; a [CellState] therefore carries the identity of the object it
    stands for ([cs_oid]), and fresh identities are drawn from a counter. *)

From stdpp Require Import gmap strings list pretty sorting.
From Stdlib Require Import ZArith Lia Ascii.

Local Open Scope Z_scope.

(** ** Exceptions and fuel *)

Inductive exn := ValueError | KeyError | TypeError | IndexError.

(** The outcome of running a piece of the program: a value, a raised
    exception, or the loop budget of the embedding ran out. *)
Inductive result (A : Type) :=
| Ok (a : A)
| Raise (e : exn)
| OutOfFuel.
Arguments Ok {A} a.
Arguments Raise {A} e.
Arguments OutOfFuel {A}.

#[global] Instance result_ret : MRet result := fun A a => Ok a.

#[global] Instance result_bind : MBind result := fun A B k m =>
  match m with
  | Ok a => k a
  | Raise e => Raise e
  | OutOfFuel => OutOfFuel
  end.

(** ** tools/movement.py *)

Inductive Direction := NORTH | SOUTH | EAST | WEST | SKIP.

Definition Direction_value (d : Direction) : Z :=
  match d with NORTH => 0 | SOUTH => 1 | EAST => 2 | WEST => 3 | SKIP => 4 end.

#[global] Instance Direction_eq_dec : EqDecision Direction.
Proof. solve_decision. Defined.

#[global] Instance Direction_countable : Countable Direction.
Proof.
  refine (inj_countable' (fun d => Z.to_nat (Direction_value d))
            (fun n => match n with
                      | 0%nat => NORTH | 1%nat => SOUTH | 2%nat => EAST
                      | 3%nat => WEST | _ => SKIP end) _).
  intros []; reflexivity.
Defined.

(** [Direction.rotation_cost]: 0 for no turn, 1 for a quarter turn, and a
    [ValueError] for a half turn or a direction that is not a heading. *)
Definition rotation_cost (d1 d2 : Direction) : result Z :=
  match d1 with
  | NORTH =>
      match d2 with
      | EAST | WEST => Ok 1
      | NORTH => Ok 0
      | _ => Raise ValueError
      end
  | SOUTH =>
      match d2 with
      | EAST | WEST => Ok 1
      | SOUTH => Ok 0
      | _ => Raise ValueError
      end
  | EAST =>
      match d2 with
      | NORTH | SOUTH => Ok 1
      | EAST => Ok 0
      | _ => Raise ValueError
      end
  | WEST =>
      match d2 with
      | NORTH | SOUTH => Ok 1
      | WEST => Ok 0
      | _ => Raise ValueError
      end
  | SKIP => Raise ValueError
  end.

Inductive Motion :=
| FORWARD_LEFT_TURN
| FORWARD_OFFSET_LEFT
| FORWARD
| FORWARD_OFFSET_RIGHT
| FORWARD_RIGHT_TURN
| REVERSE_LEFT_TURN
| REVERSE_OFFSET_RIGHT
| REVERSE
| REVERSE_OFFSET_LEFT
| REVERSE_RIGHT_TURN
| CAPTURE.

#[global] Instance Motion_eq_dec : EqDecision Motion.
Proof. solve_decision. Defined.

Definition Motion_value (m : Motion) : Z :=
  match m with
  | FORWARD_LEFT_TURN => 0
  | FORWARD_OFFSET_LEFT => 1
  | FORWARD => 2
  | FORWARD_OFFSET_RIGHT => 3
  | FORWARD_RIGHT_TURN => 4
  | REVERSE_LEFT_TURN => 10
  | REVERSE_OFFSET_RIGHT => 9
  | REVERSE => 8
  | REVERSE_OFFSET_LEFT => 7
  | REVERSE_RIGHT_TURN => 6
  | CAPTURE => 1000
  end.

(** [Motion(v)]: the member with value [v], [ValueError] when there is none. *)
Definition Motion_of_value (v : Z) : result Motion :=
  match v with
  | 0 => Ok FORWARD_LEFT_TURN
  | 1 => Ok FORWARD_OFFSET_LEFT
  | 2 => Ok FORWARD
  | 3 => Ok FORWARD_OFFSET_RIGHT
  | 4 => Ok FORWARD_RIGHT_TURN
  | 10 => Ok REVERSE_LEFT_TURN
  | 9 => Ok REVERSE_OFFSET_RIGHT
  | 8 => Ok REVERSE
  | 7 => Ok REVERSE_OFFSET_LEFT
  | 6 => Ok REVERSE_RIGHT_TURN
  | 1000 => Ok CAPTURE
  | _ => Raise ValueError
  end.

Definition opposite_motion (m : Motion) : result Motion :=
  if decide (m = CAPTURE) then Ok CAPTURE
  else
    let opp_val := 10 - Motion_value m in
    if (opp_val =? 5) || (opp_val <? 0) || (opp_val >? 10) then Raise ValueError
    else Motion_of_value opp_val.


Definition reverse_cost (m : Motion) : result Z :=
  match m with
  | CAPTURE => Raise ValueError
  | REVERSE_OFFSET_RIGHT | REVERSE_OFFSET_LEFT | REVERSE_LEFT_TURN
  | REVERSE_RIGHT_TURN | REVERSE => Ok 1
  | _ => Ok 0
  end.

Definition half_turn_cost (m : Motion) : Z :=
  match m with
  | FORWARD_OFFSET_LEFT | FORWARD_OFFSET_RIGHT
  | REVERSE_OFFSET_LEFT | REVERSE_OFFSET_RIGHT => 1
  | _ => 0
  end.

(** ** tools/consts.py *)

Definition TURN_FACTOR : Z := 6.
Definition HALF_TURN_FACTOR : Z := 5 * 2.
Definition REVERSE_FACTOR : Z := 3.
Definition SAFE_COST : Z := 1000.
Definition SCREENSHOT_COST : Z := 100.
Definition TOO_CLOSE_COST : Z := 50.
Definition TURN_PADDING : Z := 2.
Definition MID_TURN_PADDING : Z := 2.
Definition TURN_RADIUS : Z := 1.
Definition TURNS : Z * Z := (5 * TURN_RADIUS, 3 * TURN_RADIUS).
Definition HALF_TURNS : Z * Z := (4 * TURN_RADIUS, 1 * TURN_RADIUS).
Definition MOVE_DIRECTION : list (Z * Z * Direction) :=
  [(1, 0, EAST); (-1, 0, WEST); (0, 1, NORTH); (0, -1, SOUTH)].
Definition ITERATIONS : Z := 2000.
Definition EXPANDED_CELL : Z := 1.

(** ** entities/entity.py *)

(** The attribute [screenshot_id] holds two kinds of value in the program:
    [Obstacle.get_view_state] stores the obstacle id (an integer) in it,
    every other constructor call leaves the default empty list, to which
    [add_screenshot] appends tag strings. *)
Inductive screenshot :=
| ObsId (n : Z)
| Tags (l : list string).

Record CellState := mkCellState {
  cs_oid : positive;
  cs_x : Z;
  cs_y : Z;
  cs_direction : Direction;
  cs_screenshot_id : screenshot;
  cs_penalty : Z
}.

(** A heading with a position, the triples used as keys and path entries. *)
Definition pose : Type := Z * Z * Direction.

Definition pose_of (c : CellState) : pose := (cs_x c, cs_y c, cs_direction c).

Definition cmp_position (c : CellState) (x y : Z) : bool :=
  (cs_x c =? x) && (cs_y c =? y).

Definition is_eq (c : CellState) (x y : Z) (d : Direction) : bool :=
  (cs_x c =? x) && (cs_y c =? y) && bool_decide (cs_direction c = d).

(** [add_screenshot]: append to the list; an integer has no [append]. *)
Definition add_screenshot (c : CellState) (tag : string) : result CellState :=
  match cs_screenshot_id c with
  | Tags l =>
      Ok (mkCellState (cs_oid c) (cs_x c) (cs_y c) (cs_direction c)
            (Tags (l ++ [tag])) (cs_penalty c))
  | ObsId _ => Raise TypeError
  end.

(** [CellState] defines neither [__eq__] nor [__hash__]: as a dictionary key
    an instance is compared and hashed by object identity. *)
Definition CellState_key_eq (a b : CellState) : bool :=
  bool_decide (cs_oid a = cs_oid b).

Record Obstacle := mkObstacle {
  ob_x : Z;
  ob_y : Z;
  ob_direction : Direction;
  obstacle_id : Z
}.

(** [Obstacle.__eq__] *)
Definition Obstacle_eq (a b : Obstacle) : bool :=
  (ob_x a =? ob_x b) && (ob_y a =? ob_y b)
  && bool_decide (ob_direction a = ob_direction b).

(** The class attributes [Grid.size_x] and [Grid.size_y]; [__init__] sets
    attributes of the instance and leaves these untouched. *)
Definition Grid_size_x : Z := 20.
Definition Grid_size_y : Z := 20.

Record Grid := mkGrid {
  size_x : Z;
  size_y : Z;
  obstacles : list Obstacle
}.

Definition Grid_init (sx sy : Z) : Grid := mkGrid sx sy [].

Definition add_obstacle (g : Grid) (o : Obstacle) : Grid :=
  if existsb (fun ob => Obstacle_eq ob o) (obstacles g) then g
  else mkGrid (size_x g) (size_y g) (obstacles g ++ [o]).

Definition reset_obstacles (g : Grid) : Grid := mkGrid (size_x g) (size_y g) [].

(** The class method: it reads the class attributes. *)
Definition is_valid_grid_position (x y : Z) : bool :=
  (0 <=? x) && (x <? Grid_size_x) && (0 <=? y) && (y <? Grid_size_y).

Definition is_valid_coord (g : Grid) (x y : Z) : bool :=
  if (x <? 1) || (x >=? size_x g - 1) || (y <? 1) || (y >=? size_y g - 1)
  then false else true.

Definition is_valid_cell_state (g : Grid) (c : CellState) : bool :=
  is_valid_coord g (cs_x c) (cs_y c).

(** [Grid.reachable]: the loop returns [False] at the first obstacle that is
    too close. *)
Fixpoint reachable_loop (obs : list Obstacle) (x y : Z) : bool :=
  match obs with
  | [] => true
  | ob :: rest =>
      if Z.abs (ob_x ob - x) + Z.abs (ob_y ob - y) <=? 2 then false
      else if Z.max (Z.abs (ob_x ob - x)) (Z.abs (ob_y ob - y)) <? 2 then false
      else reachable_loop rest x y
  end.

Definition reachable (g : Grid) (x y : Z) : bool :=
  if negb (is_valid_coord g x y) then false
  else reachable_loop (obstacles g) x y.

(** [Grid.half_turn_reachable] *)
Fixpoint half_turn_loop (obs : list Obstacle) (x y new_x new_y padding : Z) : bool :=
  match obs with
  | [] => true
  | o :: rest =>
      if Z.abs (x - new_x) >? Z.abs (y - new_y) then
        if (x <=? ob_x o) && (ob_x o <=? new_x)
           && (y - padding <=? ob_y o) && (ob_y o <=? new_y + padding)
        then false
        else half_turn_loop rest x y new_x new_y padding
      else
        if (x - padding <=? ob_x o) && (ob_x o <=? new_x + padding)
           && (y <=? ob_y o) && (ob_y o <=? new_y)
        then false
        else half_turn_loop rest x y new_x new_y padding
  end.

Definition half_turn_reachable (g : Grid) (x y new_x new_y : Z) : bool :=
  if negb (is_valid_coord g x y) || negb (is_valid_coord g new_x new_y) then false
  else
    let padding := 2 * EXPANDED_CELL in
    let '(new_x, x) := if new_x <? x then (x, new_x) else (new_x, x) in
    let '(new_y, y) := if new_y <? y then (y, new_y) else (new_y, y) in
    half_turn_loop (obstacles g) x y new_x new_y padding.

(** [Grid._get_turn_checking_points].  The Python code divides by two twice,
    which yields floats that are multiples of a quarter; they are exact in
    binary floating point.  The points are kept here scaled by four. *)
Definition _get_turn_checking_points (x y new_x new_y : Z) (d : Direction)
  : result (list (Z * Z)) :=
  let mid_x4 := 2 * (x + new_x) in
  let mid_y4 := 2 * (y + new_y) in
  match d with
  | NORTH | SOUTH =>
      let tr_x := x in
      let tr_y := new_y in
      Ok [ ((4 * x + mid_x4) / 2, mid_y4);
           ((4 * tr_x + mid_x4) / 2, (4 * tr_y + mid_y4) / 2);
           (mid_x4, (4 * new_y + mid_y4) / 2) ]
  | EAST | WEST =>
      let tr_x := new_x in
      let tr_y := y in
      Ok [ (mid_x4, (4 * y + mid_y4) / 2);
           ((4 * tr_x + mid_x4) / 2, (4 * tr_y + mid_y4) / 2);
           ((4 * new_x + mid_x4) / 2, mid_y4) ]
  | SKIP => Raise ValueError
  end.

(** [sqrt(h**2 + v**2) < p] for a non-negative integer [p] and [h], [v]
    multiples of a quarter, on the coordinates scaled by four: the square
    root is monotone and exact at [p], so the test is [h^2 + v^2 < p^2]. *)
Definition dist4_lt (h4 v4 p : Z) : bool :=
  h4 * h4 + v4 * v4 <? 16 * p * p.

Fixpoint turn_loop (obs : list Obstacle) (points : list (Z * Z))
    (x y new_x new_y : Z) : bool :=
  match obs with
  | [] => true
  | obstacle :: rest =>
      if dist4_lt (4 * (ob_x obstacle - x)) (4 * (ob_y obstacle - y)) TURN_PADDING
      then false
      else if dist4_lt (4 * (ob_x obstacle - new_x)) (4 * (ob_y obstacle - new_y))
                TURN_PADDING
      then false
      else if existsb (fun point =>
                  dist4_lt (4 * ob_x obstacle - fst point)
                           (4 * ob_y obstacle - snd point) MID_TURN_PADDING) points
      then false
      else turn_loop rest points x y new_x new_y
  end.

Definition turn_reachable (g : Grid) (x y new_x new_y : Z) (d : Direction)
  : result bool :=
  points ← _get_turn_checking_points x y new_x new_y d;
  if negb (is_valid_coord g x y) || negb (is_valid_coord g new_x new_y)
  then Ok false
  else Ok (turn_loop (obstacles g) points x y new_x new_y).

(** [Obstacle.get_view_state].  The four branches of the source build a list
    of positions and a list of costs and run the same loop over them; the
    loop is [view_cells].  Each appended [CellState] is a new object. *)
Fixpoint view_cells (positions : list (Z * Z)) (costs : list Z)
    (d : Direction) (id : Z) (next : positive) : list CellState * positive :=
  match positions, costs with
  | pos :: positions', cost :: costs' =>
      if is_valid_grid_position (fst pos) (snd pos) then
        let '(cells, next') := view_cells positions' costs' d id (Pos.succ next) in
        (mkCellState next (fst pos) (snd pos) d (ObsId id) cost :: cells, next')
      else view_cells positions' costs' d id next
  | _, _ => ([], next)
  end.

Definition view_costs : list Z :=
  [TOO_CLOSE_COST; SCREENSHOT_COST; SCREENSHOT_COST; TOO_CLOSE_COST / 2; 0].

Definition get_view_state (o : Obstacle) (next : positive)
  : list CellState * positive :=
  let offset := 2 * EXPANDED_CELL in
  let x := ob_x o in
  let y := ob_y o in
  match ob_direction o with
  | NORTH =>
      view_cells [ (x, y + offset); (x - 1, y + 2 + offset); (x + 1, y + 2 + offset);
                   (x, y + 1 + offset); (x, y + 2 + offset) ]
        view_costs SOUTH (obstacle_id o) next
  | SOUTH =>
      view_cells [ (x, y - offset); (x + 1, y - 2 - offset); (x - 1, y - 2 - offset);
                   (x, y - 1 - offset); (x, y - 2 - offset) ]
        view_costs NORTH (obstacle_id o) next
  | EAST =>
      view_cells [ (x + offset, y); (x + 2 + offset, y + 1); (x + 2 + offset, y - 1);
                   (x + 1 + offset, y); (x + 2 + offset, y) ]
        view_costs WEST (obstacle_id o) next
  | WEST =>
      view_cells [ (x - offset, y); (x - 2 - offset, y + 1); (x - 2 - offset, y - 1);
                   (x - 1 - offset, y); (x - 2 - offset, y) ]
        view_costs EAST (obstacle_id o) next
  | SKIP => ([], next)
  end.

(** [Grid.get_view_obstacle_positions] *)
Fixpoint get_view_obstacle_positions_loop (g : Grid) (obs : list Obstacle)
    (next : positive) : list (list CellState) * positive :=
  match obs with
  | [] => ([], next)
  | obstacle :: rest =>
      if decide (ob_direction obstacle = SKIP) then
        get_view_obstacle_positions_loop g rest next
      else
        let '(cells, next') := get_view_state obstacle next in
        let view_states :=
          filter (fun view_state =>
                    reachable g (cs_x view_state) (cs_y view_state) = true) cells in
        let '(optimal_positions, next'') :=
          get_view_obstacle_positions_loop g rest next' in
        (view_states :: optimal_positions, next'')
  end.

Definition get_view_obstacle_positions (g : Grid) (next : positive)
  : list (list CellState) * positive :=
  get_view_obstacle_positions_loop g (obstacles g) next.

Fixpoint find_obstacle_by_id (obs : list Obstacle) (id : Z) : option Obstacle :=
  match obs with
  | [] => None
  | obstacle :: rest =>
      if obstacle_id obstacle =? id then Some obstacle
      else find_obstacle_by_id rest id
  end.

(** ** algorithms/algo.py: the solver and its memo tables *)

(** Keys of [path_table] and [cost_table] are pairs of [CellState] objects,
    hence pairs of object identities; keys of [motion_table] are six-tuples
    [(x, y, d, x', y', d')], kept here as a pair of poses. *)
Record MazeSolver := mkMazeSolver {
  grid : Grid;
  (** Modelled from the spec: [entities/robot.py] is not among the sources;
      the planner is given a start pose, which [self.robot.get_start_state()]
      returns (the same object at every call). *)
  robot_start : CellState;
  path_table : gmap (positive * positive) (list pose);
  cost_table : gmap (positive * positive) Z;
  motion_table : gmap (pose * pose) Motion;
  next_oid : positive
}.

Definition MazeSolver_init (sx sy : Z) (robot_x robot_y : Z)
    (robot_direction : Direction) : MazeSolver :=
  mkMazeSolver (Grid_init sx sy)
    (mkCellState 1%positive robot_x robot_y robot_direction (Tags []) 0)
    ∅ ∅ ∅ 2%positive.

Definition MazeSolver_add_obstacle (s : MazeSolver) (x y : Z) (d : Direction)
    (id : Z) : MazeSolver :=
  mkMazeSolver (add_obstacle (grid s) (mkObstacle x y d id)) (robot_start s)
    (path_table s) (cost_table s) (motion_table s) (next_oid s).

Definition key_of (a b : CellState) : positive * positive := (cs_oid a, cs_oid b).

Fixpoint foldM {A B : Type} (f : B → A → result B) (l : list A) (b : B)
  : result B :=
  match l with
  | [] => Ok b
  | a :: l' => b' ← f b a; foldM f l' b'
  end.

(** [_estimate_distance] with the default [level=0]; only the coordinates of
    the two states are read. *)
Definition _estimate_distance (start_x start_y end_x end_y : Z) : Z :=
  let horizontal_distance := start_x - end_x in
  let vertical_distance := start_y - end_y in
  Z.abs horizontal_distance + Z.abs vertical_distance.

Fixpoint safe_cost_loop (obs : list Obstacle) (new_x new_y padding : Z) : Z :=
  match obs with
  | [] => 0
  | obj :: rest =>
      if (Z.abs (ob_x obj - new_x) <=? padding) && (Z.abs (ob_y obj - new_y) <=? padding)
      then SAFE_COST
      else if (Z.abs (ob_y obj - new_y) <=? padding) && (Z.abs (ob_x obj - new_x) <=? padding)
      then SAFE_COST
      else safe_cost_loop rest new_x new_y padding
  end.

Definition _calculate_safe_cost (g : Grid) (new_x new_y : Z) : Z :=
  let padding := 2 in
  safe_cost_loop (obstacles g) new_x new_y padding.

Definition _get_half_turn_displacement (d : Direction) : result (Z * Z) :=
  match d with
  | NORTH => Ok (snd HALF_TURNS, fst HALF_TURNS)
  | SOUTH => Ok (- snd HALF_TURNS, - fst HALF_TURNS)
  | EAST => Ok (fst HALF_TURNS, snd HALF_TURNS)
  | WEST => Ok (- fst HALF_TURNS, - snd HALF_TURNS)
  | SKIP => Raise ValueError
  end.

(** A neighbour as the source has it:
    [(new_x, new_y, new_direction, safe_cost, motion)]. *)
Definition neighbor : Type := Z * Z * Direction * Z * Motion.

Definition straight_neighbor (g : Grid) (nx ny : Z) (md : Direction)
    (motion : Motion) : list neighbor :=
  if reachable g nx ny
  then [(nx, ny, md, _calculate_safe_cost g nx ny, motion)] else [].

Definition half_turn_neighbor (g : Grid) (x y nx ny : Z) (md : Direction)
    (motion : Motion) : list neighbor :=
  if half_turn_reachable g x y nx ny
  then [(nx, ny, md, _calculate_safe_cost g nx ny, motion)] else [].

Definition turn_neighbor (g : Grid) (x y nx ny : Z) (direction md : Direction)
    (motion : Motion) : result (list neighbor) :=
  b ← turn_reachable g x y nx ny direction;
  Ok (if b : bool
      then [(nx, ny, md, _calculate_safe_cost g nx ny + 10, motion)] else []).

(** The body of the loop over [MOVE_DIRECTION] in [_get_neighboring_states].
    The eight [if direction == .. and md == ..] blocks of the turning case
    exclude one another and are one [match] here. *)
Definition neighbors_of_move (g : Grid) (x y : Z) (direction : Direction)
    (mv : Z * Z * Direction) : result (list neighbor) :=
  let '(dx, dy, md) := mv in
  if decide (md = direction) then
    let forward := straight_neighbor g (x + dx) (y + dy) md FORWARD in
    let reverse := straight_neighbor g (x - dx) (y - dy) md REVERSE in
    '(delta_x, delta_y) ← _get_half_turn_displacement direction;
    let half_turns :=
      if decide (direction = NORTH ∨ direction = SOUTH) then
        half_turn_neighbor g x y (x + delta_x) (y + delta_y) md FORWARD_OFFSET_RIGHT
        ++ half_turn_neighbor g x y (x - delta_x) (y + delta_y) md FORWARD_OFFSET_LEFT
        ++ half_turn_neighbor g x y (x + delta_x) (y - delta_y) md REVERSE_OFFSET_RIGHT
        ++ half_turn_neighbor g x y (x - delta_x) (y - delta_y) md REVERSE_OFFSET_LEFT
      else
        half_turn_neighbor g x y (x + delta_x) (y - delta_y) md FORWARD_OFFSET_RIGHT
        ++ half_turn_neighbor g x y (x + delta_x) (y + delta_y) md FORWARD_OFFSET_LEFT
        ++ half_turn_neighbor g x y (x - delta_x) (y - delta_y) md REVERSE_OFFSET_RIGHT
        ++ half_turn_neighbor g x y (x - delta_x) (y + delta_y) md REVERSE_OFFSET_LEFT in
    Ok (forward ++ reverse ++ half_turns)
  else
    let delta_big := fst TURNS in
    let delta_small := snd TURNS in
    let turn nx1 ny1 m1 nx2 ny2 m2 :=
      a ← turn_neighbor g x y nx1 ny1 direction md m1;
      b ← turn_neighbor g x y nx2 ny2 direction md m2;
      Ok (a ++ b) in
    match direction, md with
    | NORTH, EAST =>
        turn (x + delta_big) (y + delta_small) FORWARD_RIGHT_TURN
             (x - delta_small) (y - delta_big) REVERSE_LEFT_TURN
    | EAST, NORTH =>
        turn (x + delta_small) (y + delta_big) FORWARD_LEFT_TURN
             (x - delta_big) (y - delta_small) REVERSE_RIGHT_TURN
    | EAST, SOUTH =>
        turn (x + delta_small) (y - delta_big) FORWARD_RIGHT_TURN
             (x - delta_big) (y + delta_small) REVERSE_LEFT_TURN
    | SOUTH, EAST =>
        turn (x + delta_big) (y - delta_small) FORWARD_LEFT_TURN
             (x - delta_small) (y + delta_big) REVERSE_RIGHT_TURN
    | SOUTH, WEST =>
        turn (x - delta_big) (y - delta_small) FORWARD_RIGHT_TURN
             (x + delta_small) (y + delta_big) REVERSE_LEFT_TURN
    | WEST, SOUTH =>
        turn (x - delta_small) (y - delta_big) FORWARD_LEFT_TURN
             (x + delta_big) (y + delta_small) REVERSE_RIGHT_TURN
    | WEST, NORTH =>
        turn (x - delta_small) (y + delta_big) FORWARD_RIGHT_TURN
             (x + delta_big) (y - delta_small) REVERSE_LEFT_TURN
    | NORTH, WEST =>
        turn (x - delta_big) (y + delta_small) FORWARD_LEFT_TURN
             (x + delta_small) (y - delta_big) REVERSE_RIGHT_TURN
    | _, _ => Ok []
    end.

Definition _get_neighboring_states (g : Grid) (x y : Z) (direction : Direction)
  : result (list neighbor) :=
  foldM (fun neighbors mv =>
           more ← neighbors_of_move g x y direction mv;
           Ok (neighbors ++ more))
    MOVE_DIRECTION [].

(** The heap of [_astar_search] holds tuples [(f, x, y, direction)], which
    Python compares lexicographically ([Direction] is an [int]).  [heapq]
    keeps a binary heap in a list; the search only ever pops the least
    tuple, and equal tuples cannot be told apart, so the heap is kept here
    as an ascending list. *)
Definition heap_item : Type := Z * Z * Z * Direction.

Definition heap_item_le (a b : heap_item) : bool :=
  let '(fa, xa, ya, da) := a in
  let '(fb, xb, yb, db) := b in
  if fa <? fb then true else if fb <? fa then false
  else if xa <? xb then true else if xb <? xa then false
  else if ya <? yb then true else if yb <? ya then false
  else Direction_value da <=? Direction_value db.

Fixpoint heappush (heap : list heap_item) (item : heap_item) : list heap_item :=
  match heap with
  | [] => [item]
  | a :: heap' =>
      if heap_item_le item a then item :: heap else a :: heappush heap' item
  end.

(** The variables of one run of [_astar_search] that the neighbour loop
    updates, together with the solver's [motion_table]. *)
Record search_state := mkSearch {
  g_dist : gmap pose Z;
  heap : list heap_item;
  parent_dict : gmap pose pose;
  s_motion_table : gmap (pose * pose) Motion
}.

(** The cost of moving along an edge, without the safe cost. *)
Definition motion_cost_of (direction new_direction : Direction) (motion : Motion)
  : result Z :=
  rc ← rotation_cost direction new_direction;
  let rotation_cost := TURN_FACTOR * rc in
  let rotation_cost := if rotation_cost =? 0 then 1 else rotation_cost in
  rv ← reverse_cost motion;
  let reverse_cost := REVERSE_FACTOR * rv in
  let reverse_cost := if reverse_cost =? 0 then 1 else reverse_cost in
  let half_turn_cost := HALF_TURN_FACTOR * half_turn_cost motion in
  let half_turn_cost := if half_turn_cost =? 0 then 1 else half_turn_cost in
  Ok (reverse_cost * half_turn_cost * rotation_cost).

(** The body of the loop over the neighbours of the popped node
    [(x, y, direction)], whose recorded distance is [dist]. *)
Definition relax (end_ : CellState) (visited : gset pose)
    (x y : Z) (direction : Direction) (dist : Z)
    (st : search_state) (nb : neighbor) : result search_state :=
  let '(new_x, new_y, new_direction, safe_cost, motion) := nb in
  if decide ((new_x, new_y, new_direction) ∈ visited) then Ok st
  else
    let mt :=
      match s_motion_table st !! ((x, y, direction), (new_x, new_y, new_direction)),
            s_motion_table st !! ((new_x, new_y, new_direction), (x, y, direction)) with
      | None, None =>
          <[((x, y, direction), (new_x, new_y, new_direction)) := motion]>
            (s_motion_table st)
      | _, _ => s_motion_table st
      end in
    motion_cost ← motion_cost_of direction new_direction motion;
    let movement_cost := motion_cost + safe_cost in
    let screenshot_cost :=
      if is_eq end_ new_x new_y new_direction then cs_penalty end_ else 0 in
    let total_cost :=
      dist + movement_cost + screenshot_cost
      + _estimate_distance new_x new_y (cs_x end_) (cs_y end_) in
    let update :=
      match g_dist st !! (new_x, new_y, new_direction) with
      | None => true
      | Some g => g >? dist + movement_cost
      end in
    if update then
      Ok (mkSearch
            (<[(new_x, new_y, new_direction) := dist + movement_cost + screenshot_cost]>
               (g_dist st))
            (heappush (heap st) (total_cost, new_x, new_y, new_direction))
            (<[(new_x, new_y, new_direction) := (x, y, direction)]> (parent_dict st))
            mt)
    else Ok (mkSearch (g_dist st) (heap st) (parent_dict st) mt).

(** The [while parent_pointer in parent] loop of [_record_path]; it returns
    the list [path] with the final pointer appended. *)
Fixpoint parent_chain (fuel : nat) (parent : gmap pose pose)
    (parent_pointer : pose) (path : list pose) : result (list pose) :=
  match parent !! parent_pointer with
  | None => Ok (path ++ [parent_pointer])
  | Some p =>
      match fuel with
      | O => OutOfFuel
      | S fuel' => parent_chain fuel' parent p (path ++ [parent_pointer])
      end
  end.

Definition with_tables (s : MazeSolver)
    (pt : gmap (positive * positive) (list pose))
    (ct : gmap (positive * positive) Z)
    (mt : gmap (pose * pose) Motion) : MazeSolver :=
  mkMazeSolver (grid s) (robot_start s) pt ct mt (next_oid s).

Definition _record_path (fuel : nat) (s : MazeSolver) (start end_ : CellState)
    (parent : gmap pose pose) (cost : Z) : result MazeSolver :=
  let ct := <[key_of start end_ := cost]> (cost_table s) in
  let ct := <[key_of end_ start := cost]> ct in
  path ← parent_chain fuel parent (pose_of end_) [];
  let pt := <[key_of start end_ := reverse path]> (path_table s) in
  let pt := <[key_of end_ start := path]> pt in
  Ok (with_tables s pt ct (motion_table s)).

Definition dict_get {K V} `{Countable K} (m : gmap K V) (k : K) : result V :=
  match m !! k with
  | Some v => Ok v
  | None => Raise KeyError
  end.

(** The [while heap] loop of [_astar_search]. *)
Fixpoint astar_loop (fuel : nat) (s : MazeSolver) (start end_ : CellState)
    (visited : gset pose) (st : search_state) (chain_fuel : nat)
  : result MazeSolver :=
  match heap st with
  | [] => Ok (with_tables s (path_table s) (cost_table s) (s_motion_table st))
  | (_, x, y, direction) :: heap' =>
      match fuel with
      | O => OutOfFuel
      | S fuel' =>
          let st := mkSearch (g_dist st) heap' (parent_dict st) (s_motion_table st) in
          if decide ((x, y, direction) ∈ visited) then
            astar_loop fuel' s start end_ visited st chain_fuel
          else if is_eq end_ x y direction then
            cost ← dict_get (g_dist st) (x, y, direction);
            _record_path chain_fuel
              (with_tables s (path_table s) (cost_table s) (s_motion_table st))
              start end_ (parent_dict st) cost
          else
            let visited := {[ (x, y, direction) ]} ∪ visited in
            dist ← dict_get (g_dist st) (x, y, direction);
            neighbors ← _get_neighboring_states (grid s) x y direction;
            st ← foldM (relax end_ visited x y direction dist) neighbors st;
            astar_loop fuel' s start end_ visited st chain_fuel
      end
  end.

Definition _astar_search (fuel : nat) (s : MazeSolver) (start end_ : CellState)
  : result MazeSolver :=
  match path_table s !! key_of start end_ with
  | Some _ => Ok s
  | None =>
      let g_dist := {[ pose_of start := 0 ]} in
      let heap :=
        [(_estimate_distance (cs_x start) (cs_y start) (cs_x end_) (cs_y end_),
          cs_x start, cs_y start, cs_direction start)] in
      astar_loop fuel s start end_ ∅ (mkSearch g_dist heap ∅ (motion_table s)) fuel
  end.

(** [_generate_paths]: the search between every pair [i < j] of [states]. *)
Fixpoint _generate_paths (fuel : nat) (s : MazeSolver) (states : list CellState)
  : result MazeSolver :=
  match states with
  | [] => Ok s
  | state_i :: rest =>
      s' ← foldM (fun s state_j => _astar_search fuel s state_i state_j) rest s;
      _generate_paths fuel s' rest
  end.

(** ** The subsets of obstacles to visit *)

(** [bin(i)[2:]]: the binary digits of [i], most significant first. *)
Fixpoint bin_positive (p : positive) : list ascii :=
  match p with
  | xH => ["1"%char]
  | xO p' => bin_positive p' ++ ["0"%char]
  | xI p' => bin_positive p' ++ ["1"%char]
  end.

Definition bin (i : N) : list ascii :=
  match i with
  | N0 => ["0"%char]
  | Npos p => bin_positive p
  end.

(** [s.zfill(width)] for a string without sign. *)
Definition zfill (width : nat) (s : list ascii) : list ascii :=
  replicate (width - length s)%nat "0"%char ++ s.

(** [s.count("1")] *)
Definition count1 (s : list ascii) : nat :=
  length (filter (fun c => c = "1"%char) s).

(** [l.sort(key=..., reverse=True)]: the sort is stable, also when reversed,
    so an element stays in front of the later elements with the same key. *)
Fixpoint insert_by_key_desc {A} (key : A → nat) (x : A) (l : list A) : list A :=
  match l with
  | [] => [x]
  | y :: l' =>
      if (key x <? key y)%nat then y :: insert_by_key_desc key x l'
      else x :: l
  end.

Fixpoint sort_by_key_desc {A} (key : A → nat) (l : list A) : list A :=
  match l with
  | [] => []
  | x :: l' => insert_by_key_desc key x (sort_by_key_desc key l')
  end.

(** [_get_visit_options(n)].  The prefix "0b" of [bin(2**n - 1)] holds no
    "1", so counting the ones of the digits gives [max_len]. *)
Definition _get_visit_options (n : nat) : list (list ascii) :=
  let max_len := count1 (bin (2 ^ N.of_nat n - 1)%N) in
  let strings :=
    map (fun i => zfill max_len (bin (N.of_nat i))) (seq 0 (2 ^ n)) in
  sort_by_key_desc count1 strings.

(** ** The choices of one viewing pose per obstacle *)

(** [_generate_combinations(view_positions, index, current, result, num_iters)].
    The first argument here is the slice [view_positions[index:]] that the
    call still has to walk, so [index == len(view_positions)] is the empty
    slice; [num_iters] is passed by value to every recursive call. *)
Fixpoint _generate_combinations {A} (view_positions : list (list A))
    (current : list nat) (result : list (list nat)) (num_iters : Z)
  : list (list nat) :=
  match view_positions with
  | [] => result ++ [current]
  | view_position :: rest =>
      if num_iters =? 0 then result
      else
        let num_iters := num_iters - 1 in
        fold_left
          (fun result i => _generate_combinations rest (current ++ [i]) result num_iters)
          (seq 0 (length view_position)) result
  end.

(** ** The tour over the chosen poses *)

Definition list_get {A} (l : list A) (i : nat) : result A :=
  match l !! i with
  | Some a => Ok a
  | None => Raise IndexError
  end.

Fixpoint mapM {A B : Type} (f : A → result B) (l : list A) : result (list B) :=
  match l with
  | [] => Ok []
  | a :: l' => b ← f a; bs ← mapM f l'; Ok (b :: bs)
  end.

(** [min(costs, key=lambda x: x[1])]: the first item of least cost. *)
Fixpoint min_by_cost {A} (best : A * Z) (costs : list (A * Z)) : A * Z :=
  match costs with
  | [] => best
  | c :: costs' =>
      if snd c <? snd best then min_by_cost c costs' else min_by_cost best costs'
  end.

(** [python_tsp.exact.solve_tsp_dynamic_programming], a library outside the
    repository: the Held-Karp recursion [dist(ni, N)] over the set [N] of
    nodes still to visit, returning the least cost of visiting them from [ni]
    and going back to node 0, with the order that reaches it.  The library
    memoises [dist] and reads the order back from the memo.  It walks the
    set, a [frozenset], in the order of its hash table; the set is walked
    here in ascending order, so among tours of the same least cost the
    library may return another permutation than this definition.  The least
    cost is the same. *)
Fixpoint tsp_dist (k : nat) (distance_matrix : list (list Z)) (ni : nat)
    (N : list nat) : result (Z * list nat) :=
  match N with
  | [] =>
      row ← list_get distance_matrix ni;
      d ← list_get row 0%nat;
      Ok (d, [])
  | n0 :: _ =>
      match k with
      | O => OutOfFuel
      | S k' =>
          costs ← mapM (fun nj =>
                     row ← list_get distance_matrix ni;
                     d ← list_get row nj;
                     '(rest_cost, order) ←
                        tsp_dist k' distance_matrix nj
                          (filter (fun n => n ≠ nj) N);
                     Ok (nj :: order, d + rest_cost)) N;
          match costs with
          | [] => Raise ValueError
          | c :: costs' =>
              let '(order, min_cost) := min_by_cost c costs' in
              Ok (min_cost, order)
          end
      end
  end.

Definition solve_tsp_dynamic_programming (distance_matrix : list (list Z))
  : result (list nat * Z) :=
  let N := seq 1 (length distance_matrix - 1) in
  '(best_distance, order) ← tsp_dist (length N) distance_matrix 0%nat N;
  Ok (0%nat :: order, best_distance).

(** The value [1e9], which is an integer. *)
Definition BIG : Z := 1000000000.

(** The matrix [cost_matrix] after the two loops over [start_idx < end_idx]
    and after [cost_matrix[:, 0] = 0]: zero on the diagonal and in column 0,
    elsewhere the recorded cost of the pair taken in increasing index order,
    or [1e9].  All entries are integers below [2^53], so the [float64]
    arithmetic of [numpy] on them is exact. *)
Definition cost_matrix_entry (s : MazeSolver) (visit_states : list CellState)
    (visited : list nat) (i j : nat) : result Z :=
  if (j =? 0)%nat then Ok 0
  else if (i =? j)%nat then Ok 0
  else
    let start_idx := Nat.min i j in
    let end_idx := Nat.max i j in
    vs ← list_get visited start_idx;
    ve ← list_get visited end_idx;
    start_state ← list_get visit_states vs;
    end_state ← list_get visit_states ve;
    match cost_table s !! key_of start_state end_state with
    | Some c => Ok c
    | None => Ok BIG
    end.

Definition build_cost_matrix (s : MazeSolver) (visit_states : list CellState)
    (visited : list nat) : result (list (list Z)) :=
  let idxs := seq 0 (length visited) in
  mapM (fun i => mapM (fun j => cost_matrix_entry s visit_states visited i j) idxs)
    idxs.

Definition _get_capture_relative_position (cell_state : CellState)
    (obstacle : Obstacle) : result string :=
  let x := cs_x cell_state in
  let y := cs_y cell_state in
  let x_obs := ob_x obstacle in
  let y_obs := ob_y obstacle in
  match cs_direction cell_state with
  | NORTH =>
      if (x_obs =? x) && (y_obs >? y) then Ok "C"%string
      else if x_obs <? x then Ok "L"%string else Ok "R"%string
  | SOUTH =>
      if (x_obs =? x) && (y_obs <? y) then Ok "C"%string
      else if x_obs <? x then Ok "R"%string else Ok "L"%string
  | EAST =>
      if (y_obs =? y) && (x_obs >? x) then Ok "C"%string
      else if y_obs <? y then Ok "R"%string else Ok "L"%string
  | WEST =>
      if (y_obs =? y) && (x_obs <? x) then Ok "C"%string
      else if y_obs <? y then Ok "L"%string else Ok "R"%string
  | SKIP => Raise ValueError
  end.

(** The variables of [get_optimal_path] that live across the loops. *)
Record plan_state := mkPlan {
  solver : MazeSolver;
  min_dist : Z;
  optimal_path : list CellState
}.

Definition with_robot (s : MazeSolver) (c : CellState) : MazeSolver :=
  mkMazeSolver (grid s) c (path_table s) (cost_table s) (motion_table s) (next_oid s).

Definition with_next_oid (s : MazeSolver) (n : positive) : MazeSolver :=
  mkMazeSolver (grid s) (robot_start s) (path_table s) (cost_table s)
    (motion_table s) n.

(** [visited] and [cost] of one combination: the indices into [visit_states]
    of the start and of the chosen pose of every obstacle, and the sum of the
    penalties of the chosen poses. *)
Fixpoint visited_and_cost (cur_view_positions : list (list CellState))
    (combination : list nat) (idx current_idx : nat)
    (visited : list nat) (cost : Z) : result (list nat * Z) :=
  match cur_view_positions with
  | [] => Ok (visited, cost)
  | view_pos :: rest =>
      c ← list_get combination idx;
      chosen ← list_get view_pos c;
      visited_and_cost rest combination (S idx) (current_idx + length view_pos)%nat
        (visited ++ [(current_idx + c)%nat]) (cost + cs_penalty chosen)
  end.

(** The new [CellState] objects appended for [current_path[1:]]. *)
Fixpoint append_path (current_path : list pose) (next : positive)
  : list CellState * positive :=
  match current_path with
  | [] => ([], next)
  | (x, y, d) :: rest =>
      let '(cells, next') := append_path rest (Pos.succ next) in
      (mkCellState next x y d (Tags []) 0 :: cells, next')
  end.

(** [optimal_path[-1].add_screenshot(formatted)].  The first element of
    [optimal_path] is the robot's start object itself, so when it is also the
    last one the robot's state changes with it. *)
Definition add_screenshot_last (ps : plan_state) (formatted : string)
  : result plan_state :=
  match reverse (optimal_path ps) with
  | [] => Raise IndexError
  | last :: front =>
      last' ← add_screenshot last formatted;
      let s := match front with
               | [] => with_robot (solver ps) last'
               | _ => solver ps
               end in
      Ok (mkPlan s (min_dist ps) (reverse front ++ [last']))
  end.

(** One leg [idx] of the tour: extend [optimal_path] by the recorded path
    from [from_state] to [to_state] and tag the arrival pose. *)
Definition stitch_leg (visit_states : list CellState) (visited permutation : list nat)
    (ps : plan_state) (idx : nat) : result plan_state :=
  p_from ← list_get permutation idx;
  p_to ← list_get permutation (S idx);
  v_from ← list_get visited p_from;
  v_to ← list_get visited p_to;
  from_state ← list_get visit_states v_from;
  to_state ← list_get visit_states v_to;
  current_path ← dict_get (path_table (solver ps)) (key_of from_state to_state);
  let '(cells, next') := append_path (tail current_path) (next_oid (solver ps)) in
  let ps := mkPlan (with_next_oid (solver ps) next') (min_dist ps)
              (optimal_path ps ++ cells) in
  let corresponding_obs :=
    match cs_screenshot_id to_state with
    | ObsId id => option_map (fun o => (id, o))
                    (find_obstacle_by_id (obstacles (grid (solver ps))) id)
    | Tags _ => None
    end in
  match corresponding_obs with
  | Some (id, obs) =>
      last ← list_get (optimal_path ps) (length (optimal_path ps) - 1);
      pos ← _get_capture_relative_position last obs;
      add_screenshot_last ps (pretty id +:+ "_" +:+ pos)
  | None => Raise ValueError
  end.

(** The body of [for combination in combinations]. *)
Definition try_combination (visit_states : list CellState)
    (cur_view_positions : list (list CellState))
    (ps : plan_state) (combination : list nat) : result plan_state :=
  '(visited, cost) ← visited_and_cost cur_view_positions combination 0 1 [0%nat] 0;
  cost_matrix ← build_cost_matrix (solver ps) visit_states visited;
  '(permutation, distance) ← solve_tsp_dynamic_programming cost_matrix;
  if distance + cost >=? min_dist ps then Ok ps
  else
    let ps := mkPlan (solver ps) (distance + cost) [robot_start (solver ps)] in
    foldM (stitch_leg visit_states visited permutation)
      (seq 0 (length permutation - 1)) ps.

(** The selection of the views whose bit is set in [bin_pos]. *)
Fixpoint select_views (views : list (list CellState)) (bin_pos : list ascii)
    (i : nat) : result (list (list CellState)) :=
  match views with
  | [] => Ok []
  | view :: rest =>
      c ← list_get bin_pos i;
      more ← select_views rest bin_pos (S i);
      Ok (if decide (c = "1"%char) then view :: more else more)
  end.

(** The body of [for bin_pos in self._get_visit_options(num_views)], up to the
    test that leaves the loop. *)
Definition try_subset (fuel : nat) (views : list (list CellState))
    (ps : plan_state) (bin_pos : list ascii) : result plan_state :=
  cur_view_positions ← select_views views bin_pos 0;
  let visit_states := robot_start (solver ps) :: concat cur_view_positions in
  s ← _generate_paths fuel (solver ps) visit_states;
  let ps := mkPlan s (min_dist ps) (optimal_path ps) in
  let combinations := _generate_combinations cur_view_positions [] [] ITERATIONS in
  foldM (try_combination visit_states cur_view_positions) combinations ps.

(** The loop over the subsets, left at the first subset after which
    [optimal_path] is not empty. *)
Fixpoint subset_loop (fuel : nat) (views : list (list CellState))
    (ps : plan_state) (options : list (list ascii)) : result plan_state :=
  match options with
  | [] => Ok ps
  | bin_pos :: rest =>
      ps' ← try_subset fuel views ps bin_pos;
      match optimal_path ps' with
      | [] => subset_loop fuel views ps' rest
      | _ :: _ => Ok ps'
      end
  end.

Definition get_optimal_path (fuel : nat) (s : MazeSolver)
  : result (list CellState * Z * MazeSolver) :=
  let '(views, next) := get_view_obstacle_positions (grid s) (next_oid s) in
  let num_views := length views in
  ps ← subset_loop fuel views (mkPlan (with_next_oid s next) BIG [])
         (_get_visit_options num_views);
  Ok (optimal_path ps, min_dist ps, solver ps).

(** ** From poses to motions *)

(** The body of the loop of [optimal_path_to_motion_path] for the pair
    [(from_state, to_state)]. *)
Definition motion_step (mt : gmap (pose * pose) Motion)
    (acc : list Motion * list string) (from_state to_state : CellState)
  : result (list Motion * list string) :=
  let '(motion_path, obstacle_id_list) := acc in
  motion ←
    match mt !! (pose_of to_state, pose_of from_state) with
    | Some m => opposite_motion m
    | None =>
        match mt !! (pose_of from_state, pose_of to_state) with
        | Some m => Ok m
        | None => Raise ValueError
        end
    end;
  let motion_path := motion_path ++ [motion] in
  match cs_screenshot_id to_state with
  | Tags l =>
      Ok (motion_path ++ map (fun _ => CAPTURE) l, obstacle_id_list ++ l)
  | ObsId n =>
      if n =? 0 then Ok (motion_path, obstacle_id_list) else Raise TypeError
  end.

Fixpoint motion_loop (mt : gmap (pose * pose) Motion)
    (acc : list Motion * list string) (optimal_path : list CellState)
  : result (list Motion * list string) :=
  match optimal_path with
  | from_state :: ((to_state :: _) as rest) =>
      acc' ← motion_step mt acc from_state to_state;
      motion_loop mt acc' rest
  | _ => Ok acc
  end.

Definition optimal_path_to_motion_path (s : MazeSolver)
    (optimal_path : list CellState) : result (list Motion * list string) :=
  motion_loop (motion_table s) ([], []) optimal_path.

(** ** The viewing slots *)

Definition opposite_direction (f : Direction) : Direction :=
  match f with
  | NORTH => SOUTH | SOUTH => NORTH | EAST => WEST | WEST => EAST | SKIP => SKIP
  end.

(** The unit step in front of an obstacle facing [f]. *)
Definition ahead (f : Direction) : Z * Z :=
  match f with
  | NORTH => (0, 1) | SOUTH => (0, -1) | EAST => (1, 0) | WEST => (-1, 0)
  | SKIP => (0, 0)
  end.

(** The unit step across the facing axis that slot 1 takes in the four
    branches of [get_view_state]: towards smaller [x] for NORTH, towards
    larger [x] for SOUTH, towards larger [y] for EAST and for WEST.  Slot 2
    takes the opposite one. *)
Definition lateral (f : Direction) : Z * Z :=
  match f with
  | NORTH => (-1, 0) | SOUTH => (1, 0) | EAST => (0, 1) | WEST => (0, 1)
  | SKIP => (0, 0)
  end.

(** A slot: position and penalty. *)
Definition slot : Type := Z * Z * Z.

Definition slot_at (o : Obstacle) (side forward penalty : Z) : slot :=
  let f := ob_direction o in
  (ob_x o + side * fst (lateral f) + forward * fst (ahead f),
   ob_y o + side * snd (lateral f) + forward * snd (ahead f),
   penalty).

(** Slots 0 to 4 of the table of viewing poses. *)
Definition view_slots (o : Obstacle) : list slot :=
  [ slot_at o 0 2 50;
    slot_at o 1 4 100;
    slot_at o (-1) 4 100;
    slot_at o 0 3 25;
    slot_at o 0 4 0 ].

(** What a candidate pose is made of, its object identity left out:
    position, heading, penalty and the stored obstacle id. *)
Definition candidate : Type := Z * Z * Direction * Z * screenshot.

Definition candidate_of (c : CellState) : candidate :=
  (cs_x c, cs_y c, cs_direction c, cs_penalty c, cs_screenshot_id c).


Definition slot_reachable (g : Grid) (sl : slot) : bool :=
  reachable g (fst (fst sl)) (snd (fst sl)).



(** ** The viewing slots as the specification words them *)

(** A reading of "lateral +1": some unit step across the facing axis.  The
    specification does not say to which side. *)
Definition across (f : Direction) (v : Z * Z) : Prop :=
  match f with
  | NORTH | SOUTH => v = (1, 0) ∨ v = (-1, 0)
  | EAST | WEST => v = (0, 1) ∨ v = (0, -1)
  | SKIP => False
  end.





(** ** Motions between consecutive poses, as the specification words it *)

Definition spec_motion (mt : gmap (pose * pose) Motion) (u v : pose)
  : result Motion :=
  match mt !! (u, v) with
  | Some m => Ok m
  | None =>
      match mt !! (v, u) with
      | Some m => Motion_of_value (10 - Motion_value m)
      | None => Raise ValueError
      end
  end.

Definition tags_of (c : CellState) : list string :=
  match cs_screenshot_id c with
  | Tags l => l
  | ObsId _ => []
  end.

Fixpoint spec_motion_path (mt : gmap (pose * pose) Motion)
    (optimal_path : list CellState) : result (list Motion * list string) :=
  match optimal_path with
  | u :: ((v :: _) as rest) =>
      m ← spec_motion mt (pose_of u) (pose_of v);
      '(motions, ids) ← spec_motion_path mt rest;
      Ok (m :: map (fun _ => CAPTURE) (tags_of v) ++ motions, tags_of v ++ ids)
  | _ => Ok ([], [])
  end.

(** Some consecutive pair of the path has neither of its two keys in the
    motion table. *)
Definition missing_pair (mt : gmap (pose * pose) Motion)
    (optimal_path : list CellState) : Prop :=
  ∃ (i : nat) (u v : CellState),
    optimal_path !! i = Some u ∧ optimal_path !! S i = Some v
    ∧ mt !! (pose_of u, pose_of v) = None
    ∧ mt !! (pose_of v, pose_of u) = None.

(** ** Notions used in the statements *)

(** The number of ways to choose one pose from every list. *)
Definition count_assignments {A} (view_positions : list (list A)) : nat :=
  fold_right (fun view_position n => (length view_position * n)%nat) 1%nat
    view_positions.

(** The value that one relaxation step leaves in [g_dist] for the
    neighbour it handles. *)
Definition recorded_g (end_ : CellState) (visited : gset pose)
    (x y : Z) (direction : Direction) (dist : Z)
    (st : search_state) (nb : neighbor) : option Z :=
  match relax end_ visited x y direction dist st nb with
  | Ok st' => g_dist st' !! (fst (fst (fst (fst nb))), snd (fst (fst (fst nb))),
                             snd (fst (fst nb)))
  | _ => None
  end.

(** Both tables read the same in the two directions of a pair: equal costs,
    and paths that are the reverse of one another; an entry is there in one
    direction exactly when it is there in the other. *)
Definition tables_symmetric (s : MazeSolver) : Prop :=
  ∀ a b : positive,
    cost_table s !! (a, b) = cost_table s !! (b, a)
    ∧ path_table s !! (a, b) = reverse <$> path_table s !! (b, a).

(** What a search leaves in the two memo tables: nothing new, or the pair of
    entries that [_record_path] writes. *)
Definition recorded (s s' : MazeSolver) (start end_ : CellState) : Prop :=
  ∃ path cost,
    path_table s' =
      <[key_of end_ start := path]>
        (<[key_of start end_ := reverse path]> (path_table s))
    ∧ cost_table s' =
      <[key_of end_ start := cost]>
        (<[key_of start end_ := cost]> (cost_table s)).

(** The states of the solver that a sequence of searches reaches from [s0].
    One identity stands for one object. *)
Inductive searched (s0 : MazeSolver) : MazeSolver → Prop :=
| searched_refl : searched s0 s0
| searched_step s fuel start end_ s' :
    searched s0 s →
    (cs_oid start = cs_oid end_ → start = end_) →
    _astar_search fuel s start end_ = Ok s' →
    searched s0 s'.

(** A string of binary digits. *)
Definition is_bits (s : list ascii) : Prop :=
  Forall (fun c => c = "0"%char ∨ c = "1"%char) s.

(** The number that a string of binary digits writes. *)
Definition bits_value (s : list ascii) : N :=
  fold_left (fun acc c => (2 * acc + (if decide (c = "1"%char) then 1 else 0))%N) s 0%N.

Definition key_ge {A} (key : A → nat) (a b : A) : Prop := (key b <= key a)%nat.

(** The strings before sorting. *)
Definition visit_strings (n : nat) : list (list ascii) :=
  map (fun i => zfill n (bin (N.of_nat i))) (seq 0 (2 ^ n)).

(** The subsets of [tried], run in order from the state [ps], each left the
    path empty, and [ps_end] is the state after the last of them. *)
Fixpoint fruitless (fuel : nat) (views : list (list CellState)) (ps : plan_state)
    (tried : list (list ascii)) (ps_end : plan_state) : Prop :=
  match tried with
  | [] => ps_end = ps
  | bin_pos :: rest =>
      ∃ ps1, try_subset fuel views ps bin_pos = Ok ps1
             ∧ optimal_path ps1 = []
             ∧ fruitless fuel views ps1 rest ps_end
  end.

(** What the search maintains of the motion table: an edge is stored under
    one of its two directed keys only, and [CAPTURE] is never stored. *)
Definition motion_table_ok (mt : gmap (pose * pose) Motion) : Prop :=
  (∀ u v, is_Some (mt !! (u, v)) → mt !! (v, u) = None)
  ∧ (∀ k, mt !! k ≠ Some CAPTURE).

(** The pose carries a list of tags, as the poses that [get_optimal_path]
    builds do. *)
Definition tagged (c : CellState) : Prop :=
  ∃ l, cs_screenshot_id c = Tags l.

(** A neighbour lies at another position and is reached by a drive
    primitive. *)
Definition nb_ok (x y : Z) (nb : neighbor) : Prop :=
  let '(nx, ny, _, _, m) := nb in (nx, ny) ≠ (x, y) ∧ m ≠ CAPTURE.

(** What the loops of [get_optimal_path] keep: while the path is empty the
    least distance is the initial one, and the poses of the path, the first
    apart, carry tag lists. *)
Definition plan_inv (ps : plan_state) : Prop :=
  (optimal_path ps = [] → min_dist ps = BIG)
  ∧ Forall tagged (tail (optimal_path ps)).

(** ** Planners to run the definitions on *)

(** [main.py]: the obstacles of the demonstration run. *)
Definition race_day_obstacles : list (Z * Z * Direction * Z) :=
  [ (0, 17, EAST, 1); (5, 12, SOUTH, 2); (7, 5, NORTH, 3); (15, 2, WEST, 4);
    (11, 14, EAST, 5); (16, 19, SOUTH, 6); (19, 9, WEST, 7) ].

Definition add_obstacles (s : MazeSolver) (obs : list (Z * Z * Direction * Z))
  : MazeSolver :=
  fold_left (fun s o => let '(x, y, d, id) := o in MazeSolver_add_obstacle s x y d id)
    obs s.

Definition race_day_solver : MazeSolver :=
  add_obstacles (MazeSolver_init 20 20 1 1 NORTH) race_day_obstacles.

(** A planner on the empty default grid, and a goal two cells ahead of its
    start pose. *)
Definition empty_solver : MazeSolver := MazeSolver_init 20 20 1 1 NORTH.

Definition goal_ahead : CellState :=
  mkCellState 5%positive 1 3 NORTH (ObsId 1) 0.

(** A second object with the pose of the start of [empty_solver]. *)
Definition start_twin : CellState :=
  mkCellState 6%positive 1 1 NORTH (Tags []) 0.

(** One obstacle on the top border, facing north: all its slots are off the
    grid. *)
Definition blocked_solver : MazeSolver :=
  add_obstacles (MazeSolver_init 20 20 1 1 NORTH) [(10, 19, NORTH, 1)].

(** The same obstacle, and a second one ahead of the start, facing it. *)
Definition two_obstacle_solver : MazeSolver :=
  add_obstacles (MazeSolver_init 20 20 1 1 NORTH)
    [(10, 19, NORTH, 1); (1, 8, SOUTH, 2)].

(** ** Notions used in the statements about moves, searches and drives *)

(** The cell lies in the rectangle that a half turn between the two cells
    sweeps, padded by two cells across the longer side. *)
Definition half_turn_swept (x y new_x new_y : Z) (o : Obstacle) : Prop :=
  let lo_x := Z.min x new_x in
  let hi_x := Z.max x new_x in
  let lo_y := Z.min y new_y in
  let hi_y := Z.max y new_y in
  if hi_x - lo_x >? hi_y - lo_y
  then lo_x <= ob_x o <= hi_x ∧ lo_y - 2 <= ob_y o <= hi_y + 2
  else lo_x - 2 <= ob_x o <= hi_x + 2 ∧ lo_y <= ob_y o <= hi_y.

(** No two obstacles of the grid agree on position and direction. *)
Definition obstacles_distinct (obs : list Obstacle) : Prop :=
  ∀ (i j : nat) (a b : Obstacle),
    obs !! i = Some a → obs !! j = Some b → Obstacle_eq a b = true → i = j.

(** The three sample points of a turn from (x, y) to (new_x, new_y), in
    closed form and scaled by four: the Python floats are these numbers
    divided by four. *)
Definition turn_points4 (x y new_x new_y : Z) (d : Direction) : list (Z * Z) :=
  match d with
  | NORTH | SOUTH =>
      [ (3 * x + new_x, 2 * (y + new_y));
        (3 * x + new_x, y + 3 * new_y);
        (2 * (x + new_x), y + 3 * new_y) ]
  | _ =>
      [ (2 * (x + new_x), 3 * y + new_y);
        (x + 3 * new_x, 3 * y + new_y);
        (x + 3 * new_x, 2 * (y + new_y)) ]
  end.

(** The obstacle keeps the Euclidean distance 2 from the two end cells of a
    turn and from its three sample points. *)
Definition turn_clear (x y new_x new_y : Z) (d : Direction) (o : Obstacle) : Prop :=
  (ob_x o - x) * (ob_x o - x) + (ob_y o - y) * (ob_y o - y) >= 4
  ∧ (ob_x o - new_x) * (ob_x o - new_x) + (ob_y o - new_y) * (ob_y o - new_y) >= 4
  ∧ Forall (fun p => (4 * ob_x o - fst p) * (4 * ob_x o - fst p)
                     + (4 * ob_y o - snd p) * (4 * ob_y o - snd p) >= 64)
      (turn_points4 x y new_x new_y d).

(** The heading a quarter turn to the right of [d]. *)
Definition clockwise (d : Direction) : Direction :=
  match d with
  | NORTH => EAST | EAST => SOUTH | SOUTH => WEST | WEST => NORTH | SKIP => SKIP
  end.

(** [a] steps ahead and [r] steps to the right of a robot heading [d]. *)
Definition steps (d : Direction) (a r : Z) : Z * Z :=
  (a * fst (ahead d) + r * fst (ahead (clockwise d)),
   a * snd (ahead d) + r * snd (ahead (clockwise d))).

(** Where a drive primitive takes a robot heading [d]: the displacement and
    the new heading. *)
Definition drive (d : Direction) (m : Motion) : option (Z * Z * Direction) :=
  match m with
  | FORWARD => Some (steps d 1 0, d)
  | REVERSE => Some (steps d (-1) 0, d)
  | FORWARD_OFFSET_RIGHT => Some (steps d 4 1, d)
  | FORWARD_OFFSET_LEFT => Some (steps d 4 (-1), d)
  | REVERSE_OFFSET_RIGHT => Some (steps d (-4) 1, d)
  | REVERSE_OFFSET_LEFT => Some (steps d (-4) (-1), d)
  | FORWARD_RIGHT_TURN => Some (steps d 3 5, clockwise d)
  | FORWARD_LEFT_TURN => Some (steps d 3 (-5), opposite_direction (clockwise d))
  | REVERSE_LEFT_TURN => Some (steps d (-5) (-3), clockwise d)
  | REVERSE_RIGHT_TURN => Some (steps d (-5) 3, opposite_direction (clockwise d))
  | CAPTURE => None
  end.

Definition is_turn (m : Motion) : bool :=
  match m with
  | FORWARD_RIGHT_TURN | FORWARD_LEFT_TURN | REVERSE_LEFT_TURN | REVERSE_RIGHT_TURN => true
  | _ => false
  end.

(** The clearance test that [_get_neighboring_states] runs for a primitive. *)
Definition drive_clear (g : Grid) (x y : Z) (d : Direction) (m : Motion)
    (nx ny : Z) : Prop :=
  match m with
  | FORWARD | REVERSE => reachable g nx ny = true
  | FORWARD_OFFSET_RIGHT | FORWARD_OFFSET_LEFT
  | REVERSE_OFFSET_RIGHT | REVERSE_OFFSET_LEFT =>
      half_turn_reachable g x y nx ny = true
  | FORWARD_RIGHT_TURN | FORWARD_LEFT_TURN
  | REVERSE_LEFT_TURN | REVERSE_RIGHT_TURN =>
      turn_reachable g x y nx ny d = Ok true
  | CAPTURE => False
  end.

(** What [_get_neighboring_states] promises of a neighbour of the pose
    [(x, y, d)]: it is where its primitive leads, the clearance test of the
    primitive passed, and its cost is the safe cost of the cell, ten more
    for a turn. *)
Definition neighbor_spec (g : Grid) (x y : Z) (d : Direction) (nb : neighbor)
  : Prop :=
  let '(nx, ny, nd, sc, m) := nb in
  drive d m = Some (nx - x, ny - y, nd)
  ∧ drive_clear g x y d m nx ny
  ∧ sc = if is_turn m then _calculate_safe_cost g nx ny + 10
         else _calculate_safe_cost g nx ny.

(** What the search charges for a primitive, the safe cost apart. *)
Definition primitive_cost (m : Motion) : Z :=
  match m with
  | FORWARD => 1
  | REVERSE => REVERSE_FACTOR
  | FORWARD_OFFSET_LEFT | FORWARD_OFFSET_RIGHT => HALF_TURN_FACTOR
  | REVERSE_OFFSET_LEFT | REVERSE_OFFSET_RIGHT => REVERSE_FACTOR * HALF_TURN_FACTOR
  | FORWARD_LEFT_TURN | FORWARD_RIGHT_TURN => TURN_FACTOR
  | REVERSE_LEFT_TURN | REVERSE_RIGHT_TURN => REVERSE_FACTOR * TURN_FACTOR
  | CAPTURE => 0
  end.

(** [v] is among the neighbours that [_get_neighboring_states] finds for
    [u]. *)
Definition edge (g : Grid) (u v : pose) : Prop :=
  ∃ l sc m,
    _get_neighboring_states g u.1.1 u.1.2 u.2 = Ok l
    ∧ (v.1.1, v.1.2, v.2, sc, m) ∈ l.

(** What the search adds to the distance along the edge from [u] to [v]:
    the cost of the primitive and the safe cost of the first neighbour of
    [u] at the pose [v]. *)
Definition edge_cost (g : Grid) (u v : pose) : option Z :=
  match _get_neighboring_states g u.1.1 u.1.2 u.2 with
  | Ok l =>
      match find (fun nb : neighbor =>
                    bool_decide ((nb.1.1.1.1, nb.1.1.1.2, nb.1.1.2) = v)) l with
      | Some (_, _, nd, sc, m) =>
          match motion_cost_of u.2 nd m with
          | Ok mc => Some (mc + sc)
          | _ => None
          end
      | None => None
      end
  | _ => None
  end.

(** The sum of the edge costs along a path. *)
Fixpoint path_cost (g : Grid) (path : list pose) : option Z :=
  match path with
  | u :: ((v :: _) as rest) =>
      match edge_cost g u v, path_cost g rest with
      | Some c, Some c' => Some (c + c')
      | _, _ => None
      end
  | _ => Some 0
  end.

(** Every two consecutive elements of the list are related. *)
Fixpoint linked {A} (R : A → A → Prop) (l : list A) : Prop :=
  match l with
  | a :: ((b :: _) as rest) => R a b ∧ linked R rest
  | _ => True
  end.

(** The motion table holds a primitive under one of the two keys of the
    pair. *)
Definition has_motion (mt : gmap (pose * pose) Motion) (u v : pose) : Prop :=
  is_Some (mt !! (u, v)) ∨ is_Some (mt !! (v, u)).

(** Every primitive of the motion table leads from the first pose of its key
    to the second. *)
Definition motion_table_sound (mt : gmap (pose * pose) Motion) : Prop :=
  ∀ u v m, mt !! (u, v) = Some m →
    u.2 ≠ SKIP ∧ drive u.2 m = Some (v.1.1 - u.1.1, v.1.2 - u.1.2, v.2).

(** The penalty that the search adds on reaching the pose [v]. *)
Definition arrival_penalty (end_ : CellState) (v : pose) : Z :=
  if is_eq end_ v.1.1 v.1.2 v.2 then cs_penalty end_ else 0.

(** What the loop of [_astar_search] keeps true of its variables. *)
Definition astar_inv (g : Grid) (start end_ : CellState) (visited : gset pose)
    (st : search_state) : Prop :=
  (∀ v u, parent_dict st !! v = Some u →
     u ∈ visited ∧ edge g u v ∧ has_motion (s_motion_table st) u v
     ∧ ∃ gu c, g_dist st !! u = Some gu ∧ edge_cost g u v = Some c
               ∧ g_dist st !! v = Some (gu + c + arrival_penalty end_ v))
  ∧ (∀ u, u ∈ visited → parent_dict st !! u = None → u = pose_of start)
  ∧ (∀ f x y d, (f, x, y, d) ∈ heap st →
       is_Some (g_dist st !! (x, y, d))
       ∧ ((x, y, d) = pose_of start ∨ is_Some (parent_dict st !! (x, y, d))))
  ∧ (parent_dict st !! pose_of start = None ∧ g_dist st !! pose_of start = Some 0)
  ∧ (∀ u, u ∈ visited → pose_of start ∈ visited)
  ∧ pose_of end_ ∉ visited.

(** What a search that records a path leaves behind: the path from [start]
    to [end_] and its cost. *)
Definition search_recorded (s s' : MazeSolver) (start end_ : CellState)
    (path : list pose) (cost : Z) : Prop :=
  path_table s' =
    <[key_of end_ start := reverse path]>
      (<[key_of start end_ := path]> (path_table s))
  ∧ cost_table s' =
    <[key_of end_ start := cost]>
      (<[key_of start end_ := cost]> (cost_table s)).

(** Driving the primitives of [motions] one after another from the pose
    [p]: the poses that the drive primitives reach, in order.  [CAPTURE]
    leaves the robot where it is. *)
Fixpoint replay (p : pose) (motions : list Motion) : option (list pose) :=
  match motions with
  | [] => Some []
  | m :: rest =>
      if decide (m = CAPTURE) then replay p rest
      else
        match drive p.2 m with
        | Some (dx, dy, nd) =>
            let q := (p.1.1 + dx, p.1.2 + dy, nd) in
            match replay q rest with
            | Some poses => Some (q :: poses)
            | None => None
            end
        | None => None
        end
  end.

(** The motion table [mt'] keeps the keys of [mt], and is sound when [mt]
    is. *)
Definition motion_table_extends (mt mt' : gmap (pose * pose) Motion) : Prop :=
  (∀ k, is_Some (mt !! k) → is_Some (mt' !! k))
  ∧ (motion_table_sound mt → motion_table_sound mt').






(** All ways to choose one index from every list, the index into the first
    list varying slowest. *)
Fixpoint assignments {A} (view_positions : list (list A)) : list (list nat) :=
  match view_positions with
  | [] => [[]]
  | view_position :: rest =>
      concat (map (fun i => map (cons i) (assignments rest))
                (seq 0 (length view_position)))
  end.

(** Twice the signed area spanned by the heading of the pose and the step
    from the pose to the obstacle: positive when the obstacle is to the left
    of the heading, negative when it is to the right. *)
Definition side_of (c : CellState) (o : Obstacle) : Z :=
  fst (ahead (cs_direction c)) * (ob_y o - cs_y c)
  - snd (ahead (cs_direction c)) * (ob_x o - cs_x c).

(** How far the obstacle is ahead of the pose, along its heading. *)
Definition ahead_of (c : CellState) (o : Obstacle) : Z :=
  fst (ahead (cs_direction c)) * (ob_x o - cs_x c)
  + snd (ahead (cs_direction c)) * (ob_y o - cs_y c).

(* ================================================================== *)
(** * Properties *)
(* ================================================================== *)

(** ** Reasoning about results *)

Lemma bind_Ok {A B} (m : result A) (k : A → result B) (b : B) :
  m ≫= k = Ok b → ∃ a, m = Ok a ∧ k a = Ok b.
Proof. destruct m; simpl; intros H; try discriminate. eauto. Qed.

(** Peel the successful steps in front of a computation known to succeed,
    forgetting how each of them came about. *)
Ltac bind_steps H := repeat (apply bind_Ok in H as (? & _ & H)).

(** ** The definitions at work *)

Example opposite_motion_sums_to_ten :
  opposite_motion FORWARD_OFFSET_LEFT = Ok REVERSE_OFFSET_RIGHT
  ∧ opposite_motion REVERSE_LEFT_TURN = Ok FORWARD_LEFT_TURN
  ∧ opposite_motion CAPTURE = Ok CAPTURE.
Proof. repeat split; reflexivity. Qed.

Example rotation_cost_half_turn :
  rotation_cost NORTH EAST = Ok 1 ∧ rotation_cost NORTH SOUTH = Raise ValueError.
Proof. split; reflexivity. Qed.

Example visit_options_three :
  map String.string_of_list_ascii (_get_visit_options 3)
  = ["111"; "011"; "101"; "110"; "001"; "010"; "100"; "000"]%string.
Proof. vm_compute. reflexivity. Qed.

Example visit_options_zero :
  map String.string_of_list_ascii (_get_visit_options 0) = ["0"%string].
Proof. vm_compute. reflexivity. Qed.

Example combinations_two_by_three :
  _generate_combinations [[10; 11]; [20; 21; 22]] [] [] ITERATIONS
  = [[0; 0]; [0; 1]; [0; 2]; [1; 0]; [1; 1]; [1; 2]]%nat.
Proof. reflexivity. Qed.

Example tsp_three_nodes :
  solve_tsp_dynamic_programming [[0; 5; 9]; [0; 0; 2]; [0; 2; 0]]
  = Ok ([0; 1; 2]%nat, 7).
Proof. reflexivity. Qed.

(** The obstacle of the first scenario, at (10,10) facing south: the slot two
    cells ahead is too close to the obstacle itself, the other four stay. *)
Example views_single_obstacle :
  map (map candidate_of)
    (fst (get_view_obstacle_positions (mkGrid 20 20 [mkObstacle 10 10 SOUTH 1])
            2%positive))
  = [[(11, 6, NORTH, 100, ObsId 1); (9, 6, NORTH, 100, ObsId 1);
      (10, 7, NORTH, 25, ObsId 1); (10, 6, NORTH, 0, ObsId 1)]].
Proof. reflexivity. Qed.

(** ** Clearance of a straight move *)

Section Views.

Context (g : Grid).

Lemma reachable_loop_spec obs x y :
  reachable_loop obs x y = true ↔
  Forall (fun o => Z.abs (ob_x o - x) + Z.abs (ob_y o - y) > 2
                   ∧ Z.max (Z.abs (ob_x o - x)) (Z.abs (ob_y o - y)) >= 2) obs.
Proof.
  induction obs as [|o obs IH]; simpl.
  - split; [constructor | reflexivity].
  - rewrite Forall_cons, <- IH.
    destruct (Z.leb_spec (Z.abs (ob_x o - x) + Z.abs (ob_y o - y)) 2) as [Hm|Hm];
      [split; [discriminate | intros [[? _] _]; lia] |].
    destruct (Z.ltb_spec (Z.max (Z.abs (ob_x o - x)) (Z.abs (ob_y o - y))) 2) as [Hc|Hc];
      [split; [discriminate | intros [[_ ?] _]; lia] |].
    split; [intros ->; repeat split; lia | intros [_ ?]; assumption].
Qed.

Lemma is_valid_coord_spec x y :
  is_valid_coord g x y = true ↔
  (1 <= x <= size_x g - 2) ∧ (1 <= y <= size_y g - 2).
Proof.
  unfold is_valid_coord.
  destruct (Z.ltb_spec x 1), (Z.geb_spec x (size_x g - 1)),
    (Z.ltb_spec y 1), (Z.geb_spec y (size_y g - 1)); simpl;
    split; (discriminate || lia || reflexivity).
Qed.

(** C9: [reachable] answers [True] exactly for an interior cell from which
    every obstacle is at Manhattan distance above 2 and at Chebyshev
    distance at least 2. *)
Theorem reachable_iff (x y : Z) :
  reachable g x y = true ↔
  ((1 <= x <= size_x g - 2) ∧ (1 <= y <= size_y g - 2))
  ∧ Forall (fun o => Z.abs (ob_x o - x) + Z.abs (ob_y o - y) > 2
                     ∧ Z.max (Z.abs (ob_x o - x)) (Z.abs (ob_y o - y)) >= 2)
      (obstacles g).
Proof.
  unfold reachable. rewrite <- is_valid_coord_spec, <- reachable_loop_spec.
  destruct (is_valid_coord g x y); simpl.
  - split; [intros ->; split; reflexivity | intros [_ ?]; assumption].
  - split; [discriminate | intros [? _]; discriminate].
Qed.

(** ** The viewing poses *)




Lemma reachable_interior x y :
  reachable g x y = true →
  (1 <= x <= size_x g - 2) ∧ (1 <= y <= size_y g - 2).
Proof.
  unfold reachable. destruct (is_valid_coord g x y) eqn:Hv; [|discriminate].
  intros _. now apply is_valid_coord_spec.
Qed.



(** ** The bounds that [get_view_state] tests *)

Lemma view_cells_valid positions costs d id next c :
  c ∈ fst (view_cells positions costs d id next) →
  is_valid_grid_position (cs_x c) (cs_y c) = true.
Proof.
  revert costs next.
  induction positions as [|pos positions IH]; intros [|cost costs] next; simpl;
    try (intros Hc; now apply elem_of_nil in Hc).
  destruct (is_valid_grid_position (fst pos) (snd pos)) eqn:Hv.
  - specialize (IH costs (Pos.succ next)).
    destruct (view_cells positions costs d id (Pos.succ next)) as [cells n'].
    simpl in *. intros [->|Hc]%elem_of_cons; [exact Hv | now apply IH].
  - apply IH.
Qed.

Lemma get_view_state_valid o next c :
  c ∈ fst (get_view_state o next) →
  is_valid_grid_position (cs_x c) (cs_y c) = true.
Proof.
  unfold get_view_state.
  destruct (ob_direction o); try apply view_cells_valid.
  simpl. intros Hc. now apply elem_of_nil in Hc.
Qed.

Lemma get_view_obstacle_positions_loop_valid obs next l c :
  l ∈ fst (get_view_obstacle_positions_loop g obs next) → c ∈ l →
  is_valid_grid_position (cs_x c) (cs_y c) = true.
Proof.
  revert next. induction obs as [|o obs IH]; intros next; simpl.
  - intros Hl. now apply elem_of_nil in Hl.
  - destruct (decide (ob_direction o = SKIP)); [apply IH|].
    pose proof (get_view_state_valid o next) as Hv.
    destruct (get_view_state o next) as [cells next'].
    specialize (IH next').
    destruct (get_view_obstacle_positions_loop g obs next') as [rest next''].
    simpl in *. intros [->|Hl]%elem_of_cons Hc.
    + apply list_elem_of_filter in Hc as [_ Hc]. now apply Hv.
    + now apply IH.
Qed.

(** C10: the candidates are tested against the class-level bounds
    [0 <= x < 20] and [0 <= y < 20], whatever the size of the planner's grid:
    every candidate of every obstacle lies in that square, so a slot of an
    obstacle that is inside the actual grid, even reachable there, but
    outside the square is the position of no candidate. *)
Theorem view_positions_default_bounds (next : positive)
    (o : Obstacle) (sl : slot) :
  o ∈ obstacles g →
  sl ∈ view_slots o →
  slot_reachable g sl = true →
  ¬ (0 <= fst (fst sl) < 20 ∧ 0 <= snd (fst sl) < 20) →
  (1 <= fst (fst sl) <= size_x g - 2 ∧ 1 <= snd (fst sl) <= size_y g - 2)
  ∧ (20 < size_x g ∨ 20 < size_y g)
  ∧ ∀ l c, l ∈ fst (get_view_obstacle_positions g next) → c ∈ l →
           (0 <= cs_x c < 20 ∧ 0 <= cs_y c < 20)
           ∧ (cs_x c, cs_y c) ≠ (fst (fst sl), snd (fst sl)).
Proof.
  intros _ _ Hr Hout.
  apply reachable_interior in Hr as Hin.
  split; [exact Hin|]. split; [lia|].
  intros l c Hl Hc.
  pose proof (get_view_obstacle_positions_loop_valid _ _ _ _ Hl Hc) as Hv.
  unfold is_valid_grid_position, Grid_size_x, Grid_size_y in Hv.
  apply andb_prop in Hv as [Hv Hy2]. apply andb_prop in Hv as [Hv Hy1].
  apply andb_prop in Hv as [Hx1 Hx2].
  apply Z.leb_le in Hx1, Hy1. apply Z.ltb_lt in Hx2, Hy2.
  split; [lia|]. intros Heq. inversion Heq. lia.
Qed.

End Views.

(** A grid of 30 by 30 cells with one obstacle at (20,10) facing east: the
    slot four cells ahead, (24,10), is reachable on that grid, and the
    obstacle gets no candidate at all. *)
Lemma view_positions_default_bounds_witness :
  let g := mkGrid 30 30 [mkObstacle 20 10 EAST 1] in
  fst (get_view_obstacle_positions g 2%positive) = [[]]
  ∧ reachable g 24 10 = true
  ∧ ∀ l c, l ∈ fst (get_view_obstacle_positions g 2%positive) → c ∈ l →
           (cs_x c, cs_y c) ≠ (24, 10).
Proof.
  intros g. split; [reflexivity|]. split; [reflexivity|].
  intros l c Hl Hc.
  refine (proj2 (proj2 (proj2
    (view_positions_default_bounds g 2%positive (mkObstacle 20 10 EAST 1)
       (24, 10, 0) _ _ _ _)) l c Hl Hc)).
  - apply list_elem_of_here.
  - unfold view_slots, slot_at. simpl.
    do 4 apply list_elem_of_further. apply list_elem_of_here.
  - reflexivity.
  - simpl. lia.
Defined.

(** The step aside that the code takes is one reading of "lateral +1". *)
Lemma lateral_across (f : Direction) : f ≠ SKIP → across f (lateral f).
Proof. destruct f; simpl; intros H; try contradiction; auto. Qed.



(** ** The enumeration of the slot assignments *)

Lemma generate_combinations_length {A} (view_positions : list (list A)) :
  ∀ current result num_iters,
    Z.of_nat (length view_positions) <= num_iters →
    length (_generate_combinations view_positions current result num_iters) =
    (length result + count_assignments view_positions)%nat.
Proof.
  induction view_positions as [|vp rest IH]; intros current result num_iters Hn;
    simpl.
  - rewrite length_app. reflexivity.
  - simpl in Hn. destruct (Z.eqb_spec num_iters 0) as [->|Hne]; [lia|].
    assert (Hfold : ∀ idxs result,
      length (fold_left
                (fun result i =>
                   _generate_combinations rest (current ++ [i]) result (num_iters - 1))
                idxs result) =
      (length result + length idxs * count_assignments rest)%nat).
    { induction idxs as [|i idxs IHi]; intros res; simpl; [lia|].
      rewrite IHi, IH by lia. lia. }
    rewrite Hfold, length_seq. reflexivity.
Qed.

(** C4: the budget [ITERATIONS] is handed down by value, so it bounds the
    depth of the recursion and not the number of assignments.  On the
    obstacles of [main.py] the enumeration for the full subset returns
    16384 assignments, more than [ITERATIONS]. *)
Theorem generate_combinations_over_budget :
  let views := fst (get_view_obstacle_positions (grid race_day_solver)
                      (next_oid race_day_solver)) in
  Z.of_nat (length (_generate_combinations views [] [] ITERATIONS)) = 16384
  ∧ ITERATIONS < 16384.
Proof.
  intros views. split; [|reflexivity].
  rewrite generate_combinations_length by (vm_compute; discriminate).
  vm_compute. reflexivity.
Qed.

(** ** The relaxation step of the search *)

(** The step from (1,2) facing north, at distance 0, to the goal (1,3)
    whose penalty is 25: the motion costs 1 and nothing is near, yet the
    recorded distance is 26 and not 1. *)
Lemma relax_g_without_screenshot_counterexample :
  let end_ := mkCellState 3%positive 1 3 NORTH (ObsId 1) 25 in
  let st := mkSearch {[ (1, 2, NORTH) := 0 ]} [] ∅ ∅ in
  motion_cost_of NORTH NORTH FORWARD = Ok 1
  ∧ recorded_g end_ {[ (1, 2, NORTH) ]} 1 2 NORTH 0 st (1, 3, NORTH, 0, FORWARD)
    = Some 26
  ∧ recorded_g end_ {[ (1, 2, NORTH) ]} 1 2 NORTH 0 st (1, 3, NORTH, 0, FORWARD)
    ≠ Some (0 + 1 + 0).
Proof.
  intros end_ st. split; [reflexivity|].
  assert (H : recorded_g end_ {[ (1, 2, NORTH) ]} 1 2 NORTH 0 st
                (1, 3, NORTH, 0, FORWARD) = Some 26) by (vm_compute; reflexivity).
  split; [exact H|]. rewrite H. discriminate.
Qed.

(** C3, as the code has it: when the step updates [g_dist] for a neighbour
    [v] of [u], the value stored is [g[u] + motion_cost + proximity +
    screenshot], where [screenshot] is the penalty of the goal when [v] is the
    goal and 0 otherwise; the same sum plus the heuristic is the heap
    priority.  The test that decides on the update compares the old [g[v]]
    with [g[u] + motion_cost + proximity], without the screenshot penalty;
    when it fails, [g_dist] and the heap stay as they are. *)
Theorem relax_records_screenshot_in_g (end_ : CellState) (visited : gset pose)
    (x y : Z) (direction : Direction) (dist : Z) (st st' : search_state)
    (new_x new_y : Z) (new_direction : Direction) (safe_cost : Z) (motion : Motion) :
  (new_x, new_y, new_direction) ∉ visited →
  relax end_ visited x y direction dist st
    (new_x, new_y, new_direction, safe_cost, motion) = Ok st' →
  ∃ motion_cost,
    motion_cost_of direction new_direction motion = Ok motion_cost
    ∧ let v := (new_x, new_y, new_direction) in
      let screenshot :=
        if is_eq end_ new_x new_y new_direction then cs_penalty end_ else 0 in
      let g := dist + (motion_cost + safe_cost) + screenshot in
      if match g_dist st !! v with
         | None => true
         | Some old => old >? dist + (motion_cost + safe_cost)
         end
      then g_dist st' = <[v := g]> (g_dist st)
           ∧ heap st' =
             heappush (heap st)
               (g + _estimate_distance new_x new_y (cs_x end_) (cs_y end_),
                new_x, new_y, new_direction)
           ∧ parent_dict st' = <[v := (x, y, direction)]> (parent_dict st)
      else g_dist st' = g_dist st ∧ heap st' = heap st
           ∧ parent_dict st' = parent_dict st.
Proof.
  intros Hv Hrelax. unfold relax in Hrelax.
  rewrite decide_False in Hrelax by exact Hv.
  destruct (motion_cost_of direction new_direction motion) as [mc| |] eqn:Hmc;
    simpl in Hrelax; try discriminate.
  exists mc. split; [reflexivity|]. cbv zeta.
  destruct (match g_dist st !! (new_x, new_y, new_direction) with
            | None => true
            | Some old => old >? dist + (mc + safe_cost)
            end); inversion Hrelax; subst st'; simpl; repeat split; reflexivity.
Qed.

Lemma relax_records_screenshot_in_g_witness :
  let end_ := mkCellState 3%positive 1 3 NORTH (ObsId 1) 25 in
  let st := mkSearch {[ (1, 2, NORTH) := 0 ]} [] ∅ ∅ in
  ∃ st' motion_cost,
    relax end_ {[ (1, 2, NORTH) ]} 1 2 NORTH 0 st (1, 3, NORTH, 0, FORWARD) = Ok st'
    ∧ motion_cost_of NORTH NORTH FORWARD = Ok motion_cost
    ∧ g_dist st' = <[(1, 3, NORTH) := 0 + (motion_cost + 0) + 25]> (g_dist st).
Proof.
  intros end_ st.
  destruct (relax end_ {[ (1, 2, NORTH) ]} 1 2 NORTH 0 st (1, 3, NORTH, 0, FORWARD))
    as [st'| |] eqn:Hrelax; try (vm_compute in Hrelax; discriminate).
  exists st'.
  destruct (relax_records_screenshot_in_g end_ {[ (1, 2, NORTH) ]} 1 2 NORTH 0
              st st' 1 3 NORTH 0 FORWARD) as (mc & Hmc & Hg).
  - intros H%elem_of_singleton. discriminate.
  - exact Hrelax.
  - exists mc. split; [reflexivity|]. split; [exact Hmc|].
    simpl in Hg. apply Hg.
Defined.

(** ** The memo tables *)

Lemma record_path_recorded fuel s start end_ parent cost s' :
  _record_path fuel s start end_ parent cost = Ok s' →
  recorded s s' start end_.
Proof.
  unfold _record_path. intros (path & _ & H)%bind_Ok.
  inversion H; subst s'. exists path, cost. split; reflexivity.
Qed.

Lemma astar_loop_tables fuel s start end_ chain_fuel :
  ∀ visited st s',
    astar_loop fuel s start end_ visited st chain_fuel = Ok s' →
    (path_table s' = path_table s ∧ cost_table s' = cost_table s)
    ∨ recorded s s' start end_.
Proof.
  induction fuel as [|fuel IH]; intros visited st s' H; simpl in H.
  - destruct (heap st) as [|[[[f x] y] d] heap']; [|discriminate].
    inversion H; subst s'. left. split; reflexivity.
  - destruct (heap st) as [|[[[f x] y] d] heap'].
    { inversion H; subst s'. left. split; reflexivity. }
    destruct (decide ((x, y, d) ∈ visited)); [now apply IH in H|].
    destruct (is_eq end_ x y d).
    + apply bind_Ok in H as (cost & _ & H).
      right. apply record_path_recorded in H. exact H.
    + apply bind_Ok in H as (dist & _ & H).
      apply bind_Ok in H as (nbs & _ & H).
      apply bind_Ok in H as (st2 & _ & H).
      now apply IH in H.
Qed.

Lemma astar_search_tables fuel s start end_ s' :
  _astar_search fuel s start end_ = Ok s' →
  (path_table s' = path_table s ∧ cost_table s' = cost_table s)
  ∨ recorded s s' start end_.
Proof.
  unfold _astar_search.
  destruct (path_table s !! key_of start end_).
  - intros H. inversion H; subst s'. left. split; reflexivity.
  - apply astar_loop_tables.
Qed.

(** A search from an object to itself ends at the first pop, with the path
    that holds the one pose. *)
Lemma astar_search_self fuel s start s' :
  _astar_search fuel s start start = Ok s' →
  (path_table s' = path_table s ∧ cost_table s' = cost_table s)
  ∨ (path_table s' = <[key_of start start := [pose_of start]]> (path_table s)
     ∧ cost_table s' = <[key_of start start := 0]> (cost_table s)).
Proof.
  unfold _astar_search.
  destruct (path_table s !! key_of start start).
  - intros H. inversion H; subst s'. left. split; reflexivity.
  - destruct fuel as [|fuel]; simpl; [discriminate|].
    rewrite decide_False by (apply not_elem_of_empty).
    unfold is_eq. rewrite !Z.eqb_refl, bool_decide_eq_true_2 by reflexivity.
    simpl. unfold dict_get, pose_of.
    rewrite lookup_singleton_eq. simpl.
    unfold _record_path, pose_of.
    destruct fuel; simpl; rewrite lookup_empty; simpl;
      intros H; inversion H; subst s'; right; simpl;
      rewrite !insert_insert_eq; split; reflexivity.
Qed.

Lemma symmetric_insert {V} (f : V → V) (m : gmap (positive * positive) V)
    (a b : positive) (v : V) :
  (∀ w, f (f w) = w) →
  (a = b → f v = v) →
  (∀ x y, m !! (x, y) = f <$> m !! (y, x)) →
  ∀ x y,
    <[(b, a) := v]> (<[(a, b) := f v]> m) !! (x, y) =
    f <$> <[(b, a) := v]> (<[(a, b) := f v]> m) !! (y, x).
Proof.
  intros Hinv Hself Hm x y. rewrite !lookup_insert.
  repeat case_decide; simplify_eq; simpl; rewrite ?Hinv;
    try reflexivity; try congruence; try apply Hm.
  all: try (rewrite Hself by reflexivity; reflexivity).
  all: try (symmetry; f_equal; apply Hself; reflexivity).
Qed.

Lemma recorded_symmetric s s' start end_ :
  (cs_oid start = cs_oid end_ →
   ∀ path, path_table s' =
             <[key_of end_ start := path]>
               (<[key_of start end_ := reverse path]> (path_table s)) →
           reverse path = path) →
  tables_symmetric s → recorded s s' start end_ → tables_symmetric s'.
Proof.
  intros Hself Hsym (path & cost & Hp & Hc) a b. rewrite Hp, Hc. split.
  - pose proof (symmetric_insert (fun c : Z => c) (cost_table s)
                  (cs_oid start) (cs_oid end_) cost) as H.
    unfold key_of. rewrite H; try reflexivity.
    + now destruct (_ !! (b, a)).
    + intros x y. destruct (Hsym x y) as [-> _]. now destruct (_ !! (y, x)).
  - unfold key_of. apply symmetric_insert.
    + apply reverse_involutive.
    + intros Heq. apply Hself; [exact Heq | exact Hp].
    + intros x y. apply Hsym.
Qed.

Lemma tables_symmetric_same s s' :
  path_table s' = path_table s → cost_table s' = cost_table s →
  tables_symmetric s → tables_symmetric s'.
Proof. intros Hp Hc Hsym a b. rewrite Hp, Hc. apply Hsym. Qed.

Lemma astar_search_symmetric fuel s start end_ s' :
  (cs_oid start = cs_oid end_ → start = end_) →
  tables_symmetric s →
  _astar_search fuel s start end_ = Ok s' →
  tables_symmetric s'.
Proof.
  intros Hobj Hsym Hsearch.
  destruct (decide (cs_oid start = cs_oid end_)) as [Heq|Hne].
  - apply Hobj in Heq. subst end_.
    apply astar_search_self in Hsearch as [[Hp Hc]|[Hp Hc]].
    + now apply (tables_symmetric_same s).
    + intros a b. rewrite Hp, Hc, !lookup_insert. unfold key_of.
      destruct (Hsym a b) as [Hc' Hp'].
      repeat case_decide; simplify_eq; try congruence;
        split; try reflexivity; assumption.
  - apply astar_search_tables in Hsearch as [[Hp Hc]|Hrec].
    + now apply (tables_symmetric_same s).
    + apply (recorded_symmetric s s' start end_); try assumption.
      intros Heq. contradiction.
Qed.

(** C7: from empty memo tables, after any sequence of searches, the cost of
    a pair is recorded exactly when the cost of the reversed pair is, with
    the same value, and the path of a pair is the reverse of the path of the
    reversed pair. *)
Theorem searches_keep_tables_symmetric (s0 s : MazeSolver) :
  path_table s0 = ∅ → cost_table s0 = ∅ →
  searched s0 s →
  ∀ a b : CellState,
    cost_table s !! key_of a b = cost_table s !! key_of b a
    ∧ path_table s !! key_of a b = reverse <$> path_table s !! key_of b a.
Proof.
  intros Hp Hc Hrun.
  assert (Hsym : tables_symmetric s).
  { induction Hrun as [|s fuel start end_ s' _ IH Hobj Hsearch].
    - intros a b. rewrite Hp, Hc, !lookup_empty. split; reflexivity.
    - now apply (astar_search_symmetric fuel s start end_). }
  intros a b. apply Hsym.
Qed.


Lemma search_goal_ahead :
  match _astar_search 10 empty_solver (robot_start empty_solver) goal_ahead with
  | Ok s1 =>
      _astar_search 10 s1 goal_ahead (robot_start empty_solver) = Ok s1
      ∧ cost_table s1 !! key_of (robot_start empty_solver) goal_ahead = Some 2
      ∧ path_table s1 !! key_of (robot_start empty_solver) goal_ahead
        = Some [(1, 1, NORTH); (1, 2, NORTH); (1, 3, NORTH)]
  | _ => False
  end.
Proof. vm_compute. repeat split; reflexivity. Qed.

(** Two searches on the empty grid of 20 by 20 cells, from the start
    (1,1,N) to (1,3,N) and back: both succeed, the cost 2 is recorded, and
    the tables read the same in both directions. *)
Lemma searches_keep_tables_symmetric_witness :
  let start := robot_start empty_solver in
  ∃ s1,
    _astar_search 10 empty_solver start goal_ahead = Ok s1
    ∧ _astar_search 10 s1 goal_ahead start = Ok s1
    ∧ cost_table s1 !! key_of start goal_ahead = Some 2
    ∧ cost_table s1 !! key_of start goal_ahead
      = cost_table s1 !! key_of goal_ahead start
    ∧ path_table s1 !! key_of start goal_ahead
      = reverse <$> path_table s1 !! key_of goal_ahead start.
Proof.
  intros start. pose proof search_goal_ahead as H. fold start in H.
  destruct (_astar_search 10 empty_solver start goal_ahead) as [s1| |] eqn:H1;
    try contradiction.
  destruct H as (H2 & Hc & _).
  exists s1. split; [reflexivity|]. split; [exact H2|]. split; [exact Hc|].
  apply (searches_keep_tables_symmetric empty_solver s1); try reflexivity.
  apply (searched_step empty_solver s1 10%nat goal_ahead start);
    [| discriminate | exact H2].
  apply (searched_step empty_solver empty_solver 10%nat start goal_ahead);
    [apply searched_refl | discriminate | exact H1].
Defined.

(** ** Poses as keys of the memo tables *)

Lemma key_of_eq a b a' b' :
  key_of a b = key_of a' b' ↔
  CellState_key_eq a a' = true ∧ CellState_key_eq b b' = true.
Proof.
  unfold key_of, CellState_key_eq. rewrite !bool_decide_eq_true.
  split; [intros [= -> ->]; split; reflexivity | intros [-> ->]; reflexivity].
Qed.

(** After the search from the start (1,1,N) to the goal (1,3,N) the path is
    stored under the pair of these two objects; another object with the
    pose (1,1,N) of the start does not find it. *)
Lemma memo_lookup_by_pose_counterexample :
  let start := robot_start empty_solver in
  pose_of start_twin = pose_of start
  ∧ match _astar_search 10 empty_solver start goal_ahead with
    | Ok s1 =>
        path_table s1 !! key_of start goal_ahead
        = Some [(1, 1, NORTH); (1, 2, NORTH); (1, 3, NORTH)]
        ∧ cost_table s1 !! key_of start goal_ahead = Some 2
        ∧ path_table s1 !! key_of start_twin goal_ahead = None
        ∧ cost_table s1 !! key_of start_twin goal_ahead = None
    | _ => False
    end.
Proof. vm_compute. repeat split; reflexivity. Qed.

(** C2, as the code has it: [CellState] defines neither [__eq__] nor
    [__hash__], so two poses are the same memo-table key exactly when they
    are the same object; neither (x, y, direction) nor the penalty nor the
    screenshot list takes part.  A lookup depends on the identities of the
    two objects alone, and after a search a pair of objects other than the
    pair searched, in either order, finds what was stored for it before and
    nothing else, also when its poses agree with those of the search. *)
Theorem memo_keys_by_identity (fuel : nat) (s s' : MazeSolver)
    (start end_ : CellState) :
  _astar_search fuel s start end_ = Ok s' →
  (∀ a a' b b',
     CellState_key_eq a a' = true → CellState_key_eq b b' = true →
     path_table s' !! key_of a b = path_table s' !! key_of a' b'
     ∧ cost_table s' !! key_of a b = cost_table s' !! key_of a' b')
  ∧ (∀ a b,
       ¬ (CellState_key_eq a start = true ∧ CellState_key_eq b end_ = true) →
       ¬ (CellState_key_eq a end_ = true ∧ CellState_key_eq b start = true) →
       path_table s' !! key_of a b = path_table s !! key_of a b
       ∧ cost_table s' !! key_of a b = cost_table s !! key_of a b).
Proof.
  intros Hsearch. split.
  - intros a a' b b' Ha Hb.
    assert (Hk : key_of a b = key_of a' b') by (apply key_of_eq; tauto).
    rewrite Hk. split; reflexivity.
  - intros a b H1 H2. rewrite <- key_of_eq in H1, H2.
    apply astar_search_tables in Hsearch as [[-> ->]|(path & cost & -> & ->)];
      [split; reflexivity|].
    rewrite !lookup_insert_ne by congruence. split; reflexivity.
Qed.

Lemma memo_keys_by_identity_witness :
  let start := robot_start empty_solver in
  ∃ s1,
    _astar_search 10 empty_solver start goal_ahead = Ok s1
    ∧ pose_of start_twin = pose_of start
    ∧ path_table s1 !! key_of start_twin goal_ahead = None
    ∧ cost_table s1 !! key_of start_twin goal_ahead = None.
Proof.
  intros start. pose proof search_goal_ahead as H. fold start in H.
  destruct (_astar_search 10 empty_solver start goal_ahead) as [s1| |] eqn:H1;
    try contradiction.
  exists s1. split; [reflexivity|]. split; [reflexivity|].
  destruct (memo_keys_by_identity 10 empty_solver s1 start goal_ahead H1)
    as [_ Hmiss].
  destruct (Hmiss start_twin goal_ahead) as [Hp Hc].
  - intros [Hk _]. vm_compute in Hk. discriminate.
  - intros [Hk _]. vm_compute in Hk. discriminate.
  - rewrite Hp, Hc. split; reflexivity.
Defined.

(** ** The list of subsets *)

Lemma length_bin_positive p : length (bin_positive p) = Pos.size_nat p.
Proof. induction p; simpl; rewrite ?length_app; simpl; lia. Qed.

Lemma bin_ones n :
  bin (2 ^ N.of_nat (S n) - 1)%N = replicate (S n) "1"%char.
Proof.
  induction n as [|n IH]; [reflexivity|].
  assert (H2 : (2 ^ N.of_nat (S (S n)) - 1 = 2 * (2 ^ N.of_nat (S n) - 1) + 1)%N).
  { rewrite (Nat2N.inj_succ (S n)), N.pow_succ_r'.
    assert (1 <= 2 ^ N.of_nat (S n))%N by (apply N.lt_pred_le, N.neq_0_lt_0, N.pow_nonzero; lia).
    lia. }
  rewrite H2. destruct (2 ^ N.of_nat (S n) - 1)%N as [|p] eqn:Hp.
  - discriminate IH.
  - change (2 * N.pos p + 1)%N with (N.pos p~1).
    change (bin (N.pos p~1)) with (bin_positive p ++ ["1"%char]).
    change (bin (N.pos p)) with (bin_positive p) in IH.
    rewrite IH. symmetry. apply replicate_S_end.
Qed.

Lemma count1_replicate_ones n : count1 (replicate n "1"%char) = n.
Proof.
  unfold count1. induction n as [|n IH]; [reflexivity|].
  change (replicate (S n) "1"%char) with ("1"%char :: replicate n "1"%char).
  rewrite filter_cons, decide_True by reflexivity. simpl. now rewrite IH.
Qed.

Lemma max_len_eq n : count1 (bin (2 ^ N.of_nat n - 1)%N) = n.
Proof.
  destruct n as [|n]; [reflexivity|].
  rewrite bin_ones. apply count1_replicate_ones.
Qed.

Lemma size_nat_bound p n : (N.pos p < 2 ^ N.of_nat n)%N → (Pos.size_nat p <= n)%nat.
Proof.
  revert p. induction n as [|n IH]; intros p Hp.
  - simpl in Hp. lia.
  - rewrite Nat2N.inj_succ, N.pow_succ_r' in Hp.
    destruct p as [p|p|]; simpl; try lia;
      (assert (N.pos p < 2 ^ N.of_nat n)%N by lia; apply IH in H; lia).
Qed.

Lemma length_bin i n :
  (i < 2 ^ N.of_nat n)%N → (length (bin i) <= Nat.max n 1)%nat.
Proof.
  destruct i as [|p]; simpl; [lia|].
  intros Hp%size_nat_bound. rewrite length_bin_positive. lia.
Qed.

Lemma length_bin_pos i : (1 <= length (bin i))%nat.
Proof.
  destruct i as [|p]; simpl; [lia|]. rewrite length_bin_positive.
  destruct p; simpl; lia.
Qed.

Lemma length_zfill n s : length (zfill n s) = Nat.max n (length s).
Proof. unfold zfill. rewrite length_app, length_replicate. lia. Qed.

Lemma is_bits_bin i : is_bits (bin i).
Proof.
  destruct i as [|p]; [repeat constructor; now left|].
  unfold bin, is_bits.
  induction p; simpl; rewrite ?Forall_app;
    [split; [exact IHp | repeat constructor; now right]
    |split; [exact IHp | repeat constructor; now left]
    |repeat constructor; now right].
Qed.

Lemma is_bits_zfill n s : is_bits s → is_bits (zfill n s).
Proof.
  intros Hs. unfold zfill, is_bits. rewrite Forall_app. split; [|exact Hs].
  apply Forall_replicate. now left.
Qed.

Lemma bits_value_bin_positive p : bits_value (bin_positive p) = N.pos p.
Proof.
  unfold bits_value. induction p; simpl; rewrite ?fold_left_app, ?IHp; reflexivity.
Qed.

Lemma bits_value_bin i : bits_value (bin i) = i.
Proof. destruct i; [reflexivity | apply bits_value_bin_positive]. Qed.

Lemma bits_value_zfill n s : bits_value (zfill n s) = bits_value s.
Proof.
  unfold zfill, bits_value. rewrite fold_left_app. f_equal.
  induction (n - length s)%nat; simpl; [reflexivity | assumption].
Qed.

Lemma count1_app s t : count1 (s ++ t) = (count1 s + count1 t)%nat.
Proof. unfold count1. now rewrite filter_app, length_app. Qed.

(** ** The stable sort *)

Lemma insert_by_key_desc_perm {A} (key : A → nat) x l :
  insert_by_key_desc key x l ≡ₚ x :: l.
Proof.
  induction l as [|y l IH]; simpl; [reflexivity|].
  destruct (key x <? key y)%nat; [|reflexivity].
  rewrite IH. apply perm_swap.
Qed.

Lemma sort_by_key_desc_perm {A} (key : A → nat) l :
  sort_by_key_desc key l ≡ₚ l.
Proof.
  induction l as [|x l IH]; simpl; [reflexivity|].
  now rewrite insert_by_key_desc_perm, IH.
Qed.

Lemma insert_by_key_desc_sorted {A} (key : A → nat) x l :
  StronglySorted (key_ge key) l →
  StronglySorted (key_ge key) (insert_by_key_desc key x l).
Proof.
  induction 1 as [|y l Hl IH Hy]; simpl; [repeat constructor|].
  destruct (Nat.ltb_spec (key x) (key y)).
  - constructor; [exact IH|].
    rewrite insert_by_key_desc_perm. constructor; [unfold key_ge; lia | exact Hy].
  - constructor; [constructor; assumption|].
    constructor; [unfold key_ge; lia|].
    eapply Forall_impl; [exact Hy|]. unfold key_ge. intros; simpl in *; lia.
Qed.

Lemma sort_by_key_desc_sorted {A} (key : A → nat) l :
  StronglySorted (key_ge key) (sort_by_key_desc key l).
Proof.
  induction l as [|x l IH]; simpl; [constructor|].
  now apply insert_by_key_desc_sorted.
Qed.

Lemma get_visit_options_perm n : _get_visit_options n ≡ₚ visit_strings n.
Proof.
  unfold _get_visit_options. rewrite max_len_eq. apply sort_by_key_desc_perm.
Qed.

Lemma of_nat_pow n : N.of_nat (2 ^ n) = (2 ^ N.of_nat n)%N.
Proof.
  induction n as [|n IH]; [reflexivity|].
  rewrite Nat2N.inj_succ, N.pow_succ_r', <- IH. simpl. lia.
Qed.

Lemma visit_strings_elem n s :
  s ∈ visit_strings n →
  ∃ i, (i < 2 ^ n)%nat ∧ s = zfill n (bin (N.of_nat i)).
Proof.
  unfold visit_strings. rewrite list_elem_of_In, in_map_iff.
  intros (i & <- & Hi). apply in_seq in Hi. exists i. split; [lia | reflexivity].
Qed.

Lemma visit_strings_shape n s :
  s ∈ visit_strings n → length s = Nat.max n 1 ∧ is_bits s.
Proof.
  intros (i & Hi & ->)%visit_strings_elem. split.
  - rewrite length_zfill.
    assert (N.of_nat i < 2 ^ N.of_nat n)%N by (rewrite <- of_nat_pow; lia).
    pose proof (length_bin _ _ H). pose proof (length_bin_pos (N.of_nat i)). lia.
  - apply is_bits_zfill, is_bits_bin.
Qed.

Lemma visit_strings_NoDup n : NoDup (visit_strings n).
Proof.
  unfold visit_strings.
  apply (NoDup_fmap_2_strong (fun i => zfill n (bin (N.of_nat i)))); [|apply NoDup_seq].
  intros i j _ _ Heq.
  apply (f_equal bits_value) in Heq.
  rewrite !bits_value_zfill, !bits_value_bin in Heq. lia.
Qed.

Lemma visit_strings_zero n : zfill n (bin 0) ∈ visit_strings n.
Proof.
  unfold visit_strings. rewrite list_elem_of_In, in_map_iff.
  exists 0%nat. split; [reflexivity|]. apply in_seq.
  pose proof (Nat.pow_nonzero 2 n). lia.
Qed.

Lemma subset_loop_break fuel views options :
  ∀ ps ps',
    subset_loop fuel views ps options = Ok ps' →
    optimal_path ps = [] → optimal_path ps' ≠ [] →
    ∃ pre b post ps_pre,
      options = pre ++ b :: post
      ∧ fruitless fuel views ps pre ps_pre
      ∧ try_subset fuel views ps_pre b = Ok ps'.
Proof.
  induction options as [|b options IH]; intros ps ps' Hloop Hempty Hpath; simpl in Hloop.
  - inversion Hloop; subst. contradiction.
  - apply bind_Ok in Hloop as (ps1 & Htry & Hloop).
    destruct (optimal_path ps1) as [|c path1] eqn:Hp1.
    + destruct (IH ps1 ps' Hloop Hp1 Hpath) as (pre & b' & post & ps_pre & -> & Hfr & Hb).
      exists (b :: pre), b', post, ps_pre. split; [reflexivity|]. split; [|exact Hb].
      simpl. exists ps1. auto.
    + inversion Hloop; subst ps'.
      exists [], b, options, ps. split; [reflexivity|]. split; [simpl; reflexivity | exact Htry].
Qed.

Lemma sorted_split {A} (key : A → nat) pre b post :
  StronglySorted (key_ge key) (pre ++ b :: post) →
  (∀ x, x ∈ pre → (key b <= key x)%nat) ∧ (∀ x, x ∈ post → (key x <= key b)%nat).
Proof.
  induction pre as [|a pre IH]; simpl; intros Hs.
  - apply StronglySorted_inv in Hs as [_ Hall]. split.
    + intros x Hx. now apply elem_of_nil in Hx.
    + intros x Hx. rewrite Forall_forall in Hall. now apply Hall.
  - apply StronglySorted_inv in Hs as [Hs Hall]. destruct (IH Hs) as [Hpre Hpost].
    split; [|exact Hpost].
    intros x [->|Hx]%elem_of_cons; [|now apply Hpre].
    rewrite Forall_forall in Hall. apply Hall. rewrite elem_of_app, elem_of_cons. auto.
Qed.

(** C5: the subsets are enumerated as the [2^N] strings of [N] binary digits
    (one digit, "0", when [N] is 0), each once, in descending order of their
    number of ones; the loop is left at the first subset that yields a path,
    so every subset enumerated before the one whose tour is returned, and
    with it every subset with more obstacles, was tried and yielded none,
    and no subset after it is tried. *)
Theorem get_optimal_path_prefers_larger_subsets (fuel : nat) (s s' : MazeSolver)
    (path : list CellState) (cost : Z) :
  get_optimal_path fuel s = Ok (path, cost, s') →
  path ≠ [] →
  let views := fst (get_view_obstacle_positions (grid s) (next_oid s)) in
  let next := snd (get_view_obstacle_positions (grid s) (next_oid s)) in
  let n := length views in
  let options := _get_visit_options n in
  (length options = (2 ^ n)%nat
   ∧ NoDup options
   ∧ (∀ b, b ∈ options → length b = Nat.max n 1 ∧ is_bits b)
   ∧ StronglySorted (key_ge count1) options)
  ∧ ∃ pre b post ps_pre ps',
      options = pre ++ b :: post
      ∧ fruitless fuel views (mkPlan (with_next_oid s next) BIG []) pre ps_pre
      ∧ try_subset fuel views ps_pre b = Ok ps'
      ∧ optimal_path ps' = path ∧ min_dist ps' = cost ∧ solver ps' = s'
      ∧ (∀ b', b' ∈ pre → (count1 b <= count1 b')%nat)
      ∧ (∀ b', b' ∈ options → (count1 b < count1 b')%nat → b' ∈ pre).
Proof.
  intros Hget Hpath views next n options.
  assert (Hsorted : StronglySorted (key_ge count1) options)
    by apply sort_by_key_desc_sorted.
  split.
  - pose proof (get_visit_options_perm n) as Hperm. fold options in Hperm.
    split; [|split; [|split]].
    + rewrite Hperm. unfold visit_strings. now rewrite length_map, length_seq.
    + rewrite Hperm. apply visit_strings_NoDup.
    + intros b Hb. rewrite Hperm in Hb. now apply visit_strings_shape.
    + exact Hsorted.
  - unfold get_optimal_path in Hget.
    subst views next n options.
    destruct (get_view_obstacle_positions (grid s) (next_oid s)) as [views next].
    simpl in *.
    apply bind_Ok in Hget as (ps' & Hloop & Hret).
    inversion Hret; subst path cost s'.
    destruct (subset_loop_break _ _ _ _ _ Hloop eq_refl Hpath)
      as (pre & b & post & ps_pre & Hopts & Hfr & Hb).
    exists pre, b, post, ps_pre, ps'.
    rewrite Hopts in Hsorted. apply sorted_split in Hsorted as [Hpre Hpost].
    split; [exact Hopts|]. split; [exact Hfr|]. split; [exact Hb|].
    do 3 (split; [reflexivity|]). split; [exact Hpre|].
    intros b' Hb' Hlt. rewrite Hopts in Hb'.
    apply elem_of_app in Hb' as [Hb'|Hb']; [exact Hb'|].
    apply elem_of_cons in Hb' as [->|Hb']; [lia|].
    apply Hpost in Hb'. lia.
Qed.

(** ** The planner when no obstacle can be viewed *)

Lemma count1_cons c s :
  count1 (c :: s) = ((if decide (c = "1"%char) then 1 else 0) + count1 s)%nat.
Proof.
  unfold count1. rewrite filter_cons. destruct (decide (c = "1"%char)); reflexivity.
Qed.

Lemma select_views_empty views :
  Forall (fun l => l = []) views →
  ∀ bin_pos i, (i + length views <= length bin_pos)%nat →
    select_views views bin_pos i =
    Ok (replicate (count1 (take (length views) (drop i bin_pos))) []).
Proof.
  induction 1 as [|view views -> _ IH]; intros bin_pos i Hlen; simpl; [reflexivity|].
  simpl in Hlen. unfold list_get.
  destruct (bin_pos !! i) as [c|] eqn:Hc;
    [|apply lookup_ge_None in Hc; lia].
  simpl. rewrite IH by lia. simpl.
  rewrite (drop_S _ _ _ Hc). simpl. rewrite count1_cons.
  destruct (decide (c = "1"%char)); reflexivity.
Qed.

Lemma concat_replicate_nil {A} k : concat (replicate k (@nil A)) = [].
Proof. induction k; simpl; [reflexivity | assumption]. Qed.

Lemma try_subset_empty_views fuel views ps bin_pos :
  Forall (fun l => l = []) views →
  (length views <= length bin_pos)%nat →
  min_dist ps = BIG →
  try_subset fuel views ps bin_pos =
  Ok (if decide (count1 (take (length views) bin_pos) = 0%nat)
      then mkPlan (solver ps) 0 [robot_start (solver ps)]
      else ps).
Proof.
  intros Hviews Hlen Hmin. unfold try_subset.
  rewrite (select_views_empty views Hviews bin_pos 0) by lia.
  rewrite drop_0. simpl. rewrite concat_replicate_nil. simpl.
  destruct (count1 (take (length views) bin_pos)) as [|k]; simpl.
  - unfold try_combination. simpl. rewrite Hmin. reflexivity.
  - destruct ps; reflexivity.
Qed.

Lemma subset_loop_empty_views fuel views options :
  Forall (fun l => l = []) views →
  (∀ b, b ∈ options → (length views <= length b)%nat) →
  (∃ b, b ∈ options ∧ count1 (take (length views) b) = 0%nat) →
  ∀ ps, min_dist ps = BIG → optimal_path ps = [] →
    subset_loop fuel views ps options =
    Ok (mkPlan (solver ps) 0 [robot_start (solver ps)]).
Proof.
  intros Hviews. induction options as [|b options IH]; intros Hlen Hzero ps Hmin Hpath.
  - destruct Hzero as (b & Hb & _). now apply elem_of_nil in Hb.
  - simpl. rewrite try_subset_empty_views; try assumption;
      [|apply Hlen, list_elem_of_here].
    simpl. destruct (decide (count1 (take (length views) b) = 0%nat)) as [Hz|Hz].
    + reflexivity.
    + rewrite Hpath. apply IH; try assumption.
      * intros b' Hb'. apply Hlen. now apply list_elem_of_further.
      * destruct Hzero as (b' & Hb' & Hc).
        apply elem_of_cons in Hb' as [->|Hb']; [contradiction|]. eauto.
Qed.

Lemma count1_replicate_zeros k : count1 (replicate k "0"%char) = 0%nat.
Proof.
  induction k as [|k IH]; [reflexivity|].
  change (replicate (S k) "0"%char) with ("0"%char :: replicate k "0"%char).
  rewrite count1_cons, IH. reflexivity.
Qed.

Lemma count1_take_le n s : (count1 (take n s) <= count1 s)%nat.
Proof.
  rewrite <- (take_drop n s) at 2. rewrite count1_app. lia.
Qed.

(** ** The path that a planning call returns *)

Lemma add_screenshot_last_path ps tag ps' :
  add_screenshot_last ps tag = Ok ps' →
  ∃ front last l,
    optimal_path ps = front ++ [last]
    ∧ cs_screenshot_id last = Tags l
    ∧ optimal_path ps' =
      front ++ [mkCellState (cs_oid last) (cs_x last) (cs_y last)
                  (cs_direction last) (Tags (l ++ [tag])) (cs_penalty last)].
Proof.
  unfold add_screenshot_last.
  destruct (reverse (optimal_path ps)) as [|last front] eqn:Hrev; [discriminate|].
  intros (last' & Hadd & [= <-])%bind_Ok.
  unfold add_screenshot in Hadd.
  destruct (cs_screenshot_id last) as [|l] eqn:Hl; [discriminate|].
  injection Hadd as <-.
  exists (reverse front), last, l.
  split; [|split; [exact Hl | reflexivity]].
  rewrite <- (reverse_involutive (optimal_path ps)), Hrev.
  now rewrite reverse_cons.
Qed.

Lemma append_path_tagged current_path next :
  Forall tagged (fst (append_path current_path next)).
Proof.
  revert next. induction current_path as [|[[x y] d] rest IH]; intros next; simpl.
  - constructor.
  - specialize (IH (Pos.succ next)).
    destruct (append_path rest (Pos.succ next)) as [cells next'].
    simpl in *. constructor; [now exists [] | exact IH].
Qed.

Lemma tail_app_tagged (front : list CellState) last last' :
  tagged last' →
  Forall tagged (tail (front ++ [last])) →
  Forall tagged (tail (front ++ [last'])).
Proof.
  intros Hl. destruct front as [|a front]; simpl; [constructor|].
  rewrite !Forall_app. intros [Hf _]. split; [exact Hf|]. now constructor.
Qed.

Lemma stitch_leg_path visit_states visited permutation ps idx ps' :
  stitch_leg visit_states visited permutation ps idx = Ok ps' →
  optimal_path ps' ≠ []
  ∧ (Forall tagged (tail (optimal_path ps)) → Forall tagged (tail (optimal_path ps'))).
Proof.
  unfold stitch_leg. intros H.
  do 6 (apply bind_Ok in H as (? & _ & H)).
  apply bind_Ok in H as (current_path & _ & H).
  pose proof (append_path_tagged (tail current_path) (next_oid (solver ps))) as Hcells.
  destruct (append_path _ _) as [cells next']. simpl in H, Hcells.
  destruct (match cs_screenshot_id _ with ObsId _ => _ | Tags _ => _ end)
    as [[id obs]|]; [|discriminate].
  repeat (apply bind_Ok in H as (? & _ & H)).
  apply add_screenshot_last_path in H as (front & last & l & Hpath & Hl & ->).
  simpl in Hpath. split; [now destruct front|].
  intros Htag. apply (tail_app_tagged front last); [now eexists|].
  rewrite <- Hpath.
  destruct (optimal_path ps) as [|c p]; simpl in *.
  - destruct cells; [constructor | now apply Forall_cons in Hcells as [_ ?]].
  - apply Forall_app. split; assumption.
Qed.

Lemma foldM_stitch_leg_path visit_states visited permutation idxs :
  ∀ ps ps',
    foldM (stitch_leg visit_states visited permutation) idxs ps = Ok ps' →
    optimal_path ps ≠ [] → Forall tagged (tail (optimal_path ps)) →
    optimal_path ps' ≠ [] ∧ Forall tagged (tail (optimal_path ps')).
Proof.
  induction idxs as [|i idxs IH]; intros ps ps'; simpl.
  - intros [= <-]. auto.
  - intros (ps1 & Hleg & Hrest)%bind_Ok Hne Htag.
    apply stitch_leg_path in Hleg as [Hne1 Htag1]. apply (IH ps1); auto.
Qed.

Lemma try_combination_path visit_states cur ps combination ps' :
  try_combination visit_states cur ps combination = Ok ps' →
  ps' = ps ∨ (optimal_path ps' ≠ [] ∧ Forall tagged (tail (optimal_path ps'))).
Proof.
  unfold try_combination. intros H.
  apply bind_Ok in H as ([visited cost] & _ & H).
  apply bind_Ok in H as (m & _ & H).
  apply bind_Ok in H as ([permutation distance] & _ & H).
  destruct (distance + cost >=? min_dist ps); [left; now injection H as <-|].
  right. apply foldM_stitch_leg_path in H; [exact H | discriminate | constructor].
Qed.

Lemma foldM_try_combination_path visit_states cur combinations :
  ∀ ps ps',
    foldM (try_combination visit_states cur) combinations ps = Ok ps' →
    plan_inv ps →
    plan_inv ps'
    ∧ (optimal_path ps ≠ [] → optimal_path ps' ≠ []).
Proof.
  induction combinations as [|c combinations IH]; intros ps ps'; simpl.
  - intros [= <-]. auto.
  - intros (ps1 & Hc & Hrest)%bind_Ok Hinv.
    apply try_combination_path in Hc as [->|[Hne Htag]].
    + now apply IH.
    + destruct (IH ps1 ps' Hrest) as [Hinv' Hne'].
      { split; [intros Hnil; contradiction | exact Htag]. }
      auto.
Qed.

Lemma try_subset_inv fuel views ps bin_pos ps' :
  try_subset fuel views ps bin_pos = Ok ps' →
  plan_inv ps → plan_inv ps'.
Proof.
  unfold try_subset. intros H Hinv.
  apply bind_Ok in H as (cur & _ & H).
  apply bind_Ok in H as (s1 & _ & H).
  apply foldM_try_combination_path in H; [apply H | exact Hinv].
Qed.

Lemma select_views_zero views :
  ∀ bin_pos i,
    (i + length views <= length bin_pos)%nat →
    count1 (take (length views) (drop i bin_pos)) = 0%nat →
    select_views views bin_pos i = Ok [].
Proof.
  induction views as [|view views IH]; intros bin_pos i Hlen Hz; simpl; [reflexivity|].
  simpl in Hlen. unfold list_get.
  destruct (bin_pos !! i) as [c|] eqn:Hc; [|apply lookup_ge_None in Hc; lia].
  rewrite (drop_S _ _ _ Hc) in Hz. simpl in Hz. rewrite count1_cons in Hz.
  simpl. rewrite IH by lia. simpl.
  destruct (decide (c = "1"%char)); [discriminate Hz | reflexivity].
Qed.

Lemma try_subset_zero fuel views ps bin_pos :
  (length views <= length bin_pos)%nat →
  count1 (take (length views) bin_pos) = 0%nat →
  min_dist ps = BIG →
  try_subset fuel views ps bin_pos =
  Ok (mkPlan (solver ps) 0 [robot_start (solver ps)]).
Proof.
  intros Hlen Hz Hmin. unfold try_subset.
  rewrite (select_views_zero views bin_pos 0) by (rewrite ?drop_0; first [lia | assumption]).
  simpl. unfold try_combination. simpl. rewrite Hmin. reflexivity.
Qed.

Lemma subset_loop_nonempty fuel views options :
  (∀ b, b ∈ options → (length views <= length b)%nat) →
  (∃ b, b ∈ options ∧ count1 (take (length views) b) = 0%nat) →
  ∀ ps ps',
    plan_inv ps →
    subset_loop fuel views ps options = Ok ps' →
    optimal_path ps' ≠ [] ∧ plan_inv ps'.
Proof.
  induction options as [|b options IH]; intros Hlen Hzero ps ps' Hinv; simpl.
  - destruct Hzero as (b & Hb & _). now apply elem_of_nil in Hb.
  - intros (ps1 & Htry & H)%bind_Ok.
    pose proof (try_subset_inv _ _ _ _ _ Htry Hinv) as Hinv1.
    destruct (optimal_path ps1) as [|c p] eqn:Hp1.
    + apply (IH) in H; try assumption.
      * intros b' Hb'. apply Hlen. now apply list_elem_of_further.
      * destruct Hzero as (b' & Hb' & Hc).
        apply elem_of_cons in Hb' as [->|Hb']; [|eauto].
        exfalso.
        destruct (optimal_path ps) as [|c0 p0] eqn:Hp.
        -- rewrite try_subset_zero in Htry;
             [| apply Hlen, list_elem_of_here | exact Hc | now apply Hinv].
           injection Htry as <-. discriminate Hp1.
        -- unfold try_subset in Htry.
           apply bind_Ok in Htry as (cur & _ & Htry).
           apply bind_Ok in Htry as (s1 & _ & Htry).
           apply foldM_try_combination_path in Htry as [_ Hne]; [|exact Hinv].
           simpl in Hne. rewrite Hp in Hne. now apply Hne.
    + injection H as <-. rewrite Hp1. split; [discriminate | exact Hinv1].
Qed.

(** A planning call that returns hands back a path that is not empty and
    whose poses, the first apart, carry tag lists. *)
Lemma get_optimal_path_nonempty fuel s path cost s' :
  get_optimal_path fuel s = Ok (path, cost, s') →
  path ≠ [] ∧ Forall tagged (tail path).
Proof.
  unfold get_optimal_path.
  destruct (get_view_obstacle_positions (grid s) (next_oid s)) as [views next].
  intros (ps & Hloop & [= <- _ _])%bind_Ok.
  apply subset_loop_nonempty in Hloop as [Hne [_ Htag]]; [auto | | |].
  - intros b Hb. rewrite get_visit_options_perm in Hb.
    apply visit_strings_shape in Hb as [-> _]. lia.
  - exists (zfill (length views) (bin 0)). split.
    + rewrite get_visit_options_perm. apply visit_strings_zero.
    + pose proof (count1_take_le (length views) (zfill (length views) (bin 0))) as H.
      unfold zfill in H at 2. rewrite count1_app, count1_replicate_zeros in H.
      change (count1 (bin 0)) with 0%nat in H. lia.
  - split; [reflexivity | constructor].
Qed.

(** C1, as the code has it: a planning call never returns the empty path,
    because the empty subset is always enumerated and, when no subset before
    it gave a tour, yields the one-pose tour made of the start state at cost
    0.  So when no obstacle has a reachable viewing pose, [get_optimal_path]
    returns the start state alone, at cost 0; the empty list with [1e9] is
    the initial value only. *)
Theorem get_optimal_path_no_views (fuel : nat) (s : MazeSolver) :
  (∀ path cost s', get_optimal_path fuel s = Ok (path, cost, s') → path ≠ [])
  ∧ (Forall (fun l => l = [])
       (fst (get_view_obstacle_positions (grid s) (next_oid s))) →
     get_optimal_path fuel s =
     Ok ([robot_start s], 0,
         with_next_oid s (snd (get_view_obstacle_positions (grid s) (next_oid s))))).
Proof.
  split; [intros path cost s' H; now apply get_optimal_path_nonempty in H|].
  intros Hviews. unfold get_optimal_path.
  destruct (get_view_obstacle_positions (grid s) (next_oid s)) as [views next].
  simpl in *.
  rewrite subset_loop_empty_views; try assumption; try reflexivity.
  - intros b Hb. rewrite get_visit_options_perm in Hb.
    apply visit_strings_shape in Hb as [-> _]. lia.
  - exists (zfill (length views) (bin 0)). split.
    + rewrite get_visit_options_perm. apply visit_strings_zero.
    + pose proof (count1_take_le (length views) (zfill (length views) (bin 0))) as H.
      unfold zfill in H at 2. rewrite count1_app, count1_replicate_zeros in H.
      change (count1 (bin 0)) with 0%nat in H. lia.
Qed.

(** The planner of [blocked_solver]: its one obstacle has no viewing pose,
    and the call returns the start pose at cost 0, not the empty path. *)
Lemma no_tour_counterexample :
  fst (get_view_obstacle_positions (grid blocked_solver) (next_oid blocked_solver))
  = [[]]
  ∧ get_optimal_path 100 blocked_solver
    = Ok ([robot_start blocked_solver], 0, blocked_solver)
  ∧ ∀ cost s', get_optimal_path 100 blocked_solver ≠ Ok ([], cost, s').
Proof.
  assert (H : get_optimal_path 100 blocked_solver
              = Ok ([robot_start blocked_solver], 0, blocked_solver))
    by (vm_compute; reflexivity).
  split; [vm_compute; reflexivity|]. split; [exact H|].
  intros cost s'. rewrite H. discriminate.
Qed.

Lemma get_optimal_path_no_views_witness :
  get_optimal_path 100 blocked_solver
  = Ok ([robot_start blocked_solver], 0, blocked_solver)
  ∧ ∀ cost s', get_optimal_path 100 blocked_solver ≠ Ok ([], cost, s').
Proof.
  destruct (get_optimal_path_no_views 100 blocked_solver) as [Hne Hstart].
  split.
  - apply Hstart. vm_compute. repeat constructor.
  - intros cost s' H. now apply (Hne [] cost s' H).
Defined.

Lemma plan_two_obstacles :
  match get_optimal_path 3000 two_obstacle_solver with
  | Ok (path, cost, s') =>
      map pose_of path = [(1, 1, NORTH); (1, 2, NORTH); (1, 3, NORTH); (1, 4, NORTH)]
      ∧ cost = 3
      ∧ map cs_screenshot_id path
        = [Tags []; Tags []; Tags []; Tags ["2_C"%string]]
      ∧ optimal_path_to_motion_path s' path
        = Ok ([FORWARD; FORWARD; FORWARD; CAPTURE], ["2_C"%string])
  | _ => False
  end.
Proof. vm_compute. repeat split; reflexivity. Qed.

(** The planner of [two_obstacle_solver]: the subset of both obstacles is
    tried first and yields nothing, the subset of the second obstacle alone
    yields the returned tour. *)
Lemma get_optimal_path_prefers_larger_subsets_witness :
  let views := fst (get_view_obstacle_positions (grid two_obstacle_solver)
                      (next_oid two_obstacle_solver)) in
  match get_optimal_path 3000 two_obstacle_solver with
  | Ok (path, cost, s') =>
      map pose_of path = [(1, 1, NORTH); (1, 2, NORTH); (1, 3, NORTH); (1, 4, NORTH)]
      ∧ ∃ pre b post,
          _get_visit_options (length views) = pre ++ b :: post
          ∧ (∀ b', b' ∈ pre → (count1 b <= count1 b')%nat)
          ∧ (∀ b', b' ∈ _get_visit_options (length views) →
                   (count1 b < count1 b')%nat → b' ∈ pre)
  | _ => False
  end.
Proof.
  intros views. pose proof plan_two_obstacles as H.
  destruct (get_optimal_path 3000 two_obstacle_solver)
    as [[[path cost] s']| |] eqn:Hget; try contradiction.
  destruct H as (Hpath & _). split; [exact Hpath|].
  assert (Hne : path ≠ []) by (intros ->; discriminate Hpath).
  destruct (get_optimal_path_prefers_larger_subsets 3000 two_obstacle_solver s'
              path cost Hget Hne)
    as (_ & pre & b & post & ps_pre & ps' & Hopts & _ & _ & _ & _ & _ & Hpre & Hbig).
  exists pre, b, post. split; [exact Hopts|]. split; [exact Hpre | exact Hbig].
Defined.

(** ** From poses to motions *)

Lemma opposite_motion_value m :
  m ≠ CAPTURE →
  opposite_motion m = Motion_of_value (10 - Motion_value m)
  ∧ ∃ m', opposite_motion m = Ok m' ∧ Motion_value m' = 10 - Motion_value m.
Proof. destruct m; intros H; try contradiction; split; eauto. Qed.

Lemma motion_resolution mt u v :
  motion_table_ok mt →
  match mt !! (v, u) with
  | Some m => opposite_motion m
  | None => match mt !! (u, v) with
            | Some m => Ok m
            | None => Raise ValueError
            end
  end = spec_motion mt u v.
Proof.
  intros [Hone Hcap]. unfold spec_motion.
  destruct (mt !! (v, u)) as [m|] eqn:Hvu.
  - rewrite (Hone v u) by (rewrite Hvu; eauto).
    apply opposite_motion_value. intros ->. now apply (Hcap (v, u)).
  - reflexivity.
Qed.

Lemma spec_motion_cases mt u v :
  motion_table_ok mt →
  (∃ m, spec_motion mt u v = Ok m ∧ m ≠ CAPTURE
        ∧ (is_Some (mt !! (u, v)) ∨ is_Some (mt !! (v, u))))
  ∨ (spec_motion mt u v = Raise ValueError
     ∧ mt !! (u, v) = None ∧ mt !! (v, u) = None).
Proof.
  intros [Hone Hcap]. unfold spec_motion.
  destruct (mt !! (u, v)) as [m|] eqn:Huv.
  - left. exists m. split; [reflexivity|]. split; [|left; eauto].
    intros ->. now apply (Hcap (u, v)).
  - destruct (mt !! (v, u)) as [m|] eqn:Hvu; [|right; auto].
    left. assert (Hm : m ≠ CAPTURE) by (intros ->; now apply (Hcap (v, u))).
    destruct (opposite_motion_value m Hm) as (Heq & m' & Hm' & Hval).
    exists m'. rewrite <- Heq. split; [exact Hm'|]. split; [|right; eauto].
    intros ->. destruct m; simpl in Hval; try discriminate; contradiction.
Qed.

#[local] Arguments motion_loop : simpl never.
#[local] Arguments spec_motion_path : simpl never.

Lemma motion_loop_spec mt path :
  motion_table_ok mt → Forall tagged (tail path) →
  ∀ motion_path obstacle_id_list,
    motion_loop mt (motion_path, obstacle_id_list) path =
    '(motions, ids) ← spec_motion_path mt path;
    Ok (motion_path ++ motions, obstacle_id_list ++ ids).
Proof.
  intros Hok. induction path as [|u path IH]; intros Htag ms0 ids0.
  - change (Ok (ms0, ids0) = Ok (ms0 ++ [], ids0 ++ [])). now rewrite !app_nil_r.
  - destruct path as [|v rest];
      [change (Ok (ms0, ids0) = Ok (ms0 ++ [], ids0 ++ [])); now rewrite !app_nil_r|].
    simpl in Htag. apply Forall_cons in Htag as [[l Hl] Htag].
    change (motion_loop mt (ms0, ids0) (u :: v :: rest)) with
      (motion_step mt (ms0, ids0) u v ≫= fun acc' => motion_loop mt acc' (v :: rest)).
    change (spec_motion_path mt (u :: v :: rest)) with
      (spec_motion mt (pose_of u) (pose_of v) ≫= fun m =>
       spec_motion_path mt (v :: rest) ≫= fun '(motions, ids) =>
       Ok (m :: map (fun _ => CAPTURE) (tags_of v) ++ motions, tags_of v ++ ids)).
    unfold motion_step. rewrite (motion_resolution mt _ _ Hok).
    unfold tags_of. rewrite Hl.
    destruct (spec_motion mt (pose_of u) (pose_of v)) as [m| |]; simpl; try reflexivity.
    rewrite (IH Htag).
    destruct (spec_motion_path mt (v :: rest)) as [[ms ids]| |]; simpl; try reflexivity.
    rewrite <- !app_assoc. reflexivity.
Qed.

Lemma spec_motion_path_cases mt path :
  motion_table_ok mt →
  (missing_pair mt path ∧ spec_motion_path mt path = Raise ValueError)
  ∨ (¬ missing_pair mt path
     ∧ ∃ motions ids,
         spec_motion_path mt path = Ok (motions, ids)
         ∧ ids = concat (map tags_of (tail path))
         ∧ length (filter (fun m => m = CAPTURE) motions) = length ids
         ∧ length (filter (fun m => m ≠ CAPTURE) motions) = length (tail path)).
Proof.
  intros Hok. induction path as [|u path IH].
  - right. split; [intros (i & ? & ? & H & _); now destruct i|].
    exists [], []. repeat split; reflexivity.
  - destruct path as [|v rest].
    + right. split; [intros (i & ? & ? & _ & H & _); now destruct i|].
      exists [], []. repeat split; reflexivity.
    + change (spec_motion_path mt (u :: v :: rest)) with
        (spec_motion mt (pose_of u) (pose_of v) ≫= fun m =>
         spec_motion_path mt (v :: rest) ≫= fun '(motions, ids) =>
         Ok (m :: map (fun _ => CAPTURE) (tags_of v) ++ motions, tags_of v ++ ids)).
      destruct (spec_motion_cases mt (pose_of u) (pose_of v) Hok)
        as [(m & -> & Hm & Hkey)|(-> & Huv & Hvu)].
      * simpl. destruct IH as [[Hmiss ->]|(Hnone & ms & ids & -> & Hids & Hcap & Hdrive)].
        { left. split; [|reflexivity].
          destruct Hmiss as (i & a & b & Ha & Hb & Hab).
          exists (S i), a, b. auto. }
        right. split.
        { intros (i & a & b & Ha & Hb & Hab & Hba). destruct i as [|i].
          - simpl in Ha, Hb. inversion Ha; inversion Hb; subst a b.
            rewrite Hab, Hba in Hkey. destruct Hkey as [[? ?]|[? ?]]; discriminate.
          - apply Hnone. exists i, a, b. auto. }
        exists (m :: map (fun _ => CAPTURE) (tags_of v) ++ ms), (tags_of v ++ ids).
        split; [reflexivity|]. split; [simpl; now rewrite Hids|].
        assert (Hc : ∀ l : list string,
                   filter (fun m => m = CAPTURE) (map (fun _ => CAPTURE) l)
                   = map (fun _ => CAPTURE) l
                   ∧ filter (fun m => m ≠ CAPTURE) (map (fun _ => CAPTURE) l) = []).
        { induction l as [|t l [IH1 IH2]]; [split; reflexivity|]. simpl.
          rewrite !filter_cons, decide_True, decide_False by tauto.
          rewrite IH1, IH2. split; reflexivity. }
        destruct (Hc (tags_of v)) as [Hc1 Hc2]. split.
        -- rewrite filter_cons, decide_False by assumption.
           rewrite filter_app, Hc1, !length_app, length_map, Hcap. reflexivity.
        -- rewrite filter_cons, decide_True by assumption.
           rewrite filter_app, Hc2. simpl. now rewrite Hdrive.
      * left. split; [|reflexivity]. exists 0%nat, u, v. auto.
Qed.

(** C6, as the code has it.  For a motion table as the search builds it (an
    edge under one of its two keys, never [CAPTURE]) and a path whose poses,
    the first apart, carry tag lists: the motion of every consecutive pair
    [(u,v)] is [motion_table[u→v]] when that key exists, otherwise the
    inverse (10 - value) of [motion_table[v→u]]; the call raises exactly
    when some pair has neither key; for each tag of [v] one [CAPTURE] follows
    the motion, and the tag itself, the string [id_label], is appended to the
    parallel list, whose length is the number of [CAPTURE] entries. *)
Theorem optimal_path_to_motion_path_spec (s : MazeSolver) (path : list CellState) :
  motion_table_ok (motion_table s) →
  Forall tagged (tail path) →
  optimal_path_to_motion_path s path = spec_motion_path (motion_table s) path
  ∧ (missing_pair (motion_table s) path ↔
     optimal_path_to_motion_path s path = Raise ValueError)
  ∧ (¬ missing_pair (motion_table s) path ↔
     ∃ motions ids, optimal_path_to_motion_path s path = Ok (motions, ids))
  ∧ ∀ motions ids,
      optimal_path_to_motion_path s path = Ok (motions, ids) →
      ids = concat (map tags_of (tail path))
      ∧ length (filter (fun m => m = CAPTURE) motions) = length ids
      ∧ length (filter (fun m => m ≠ CAPTURE) motions) = length (tail path).
Proof.
  intros Hok Htag.
  assert (Heq : optimal_path_to_motion_path s path
                = spec_motion_path (motion_table s) path).
  { unfold optimal_path_to_motion_path. rewrite motion_loop_spec by assumption.
    destruct (spec_motion_path (motion_table s) path) as [[ms ids]| |]; reflexivity. }
  rewrite Heq. split; [reflexivity|].
  destruct (spec_motion_path_cases (motion_table s) path Hok)
    as [[Hmiss ->]|(Hnone & ms & ids & -> & Hids & Hcap & Hdrive)].
  - split; [tauto|]. split.
    + split; [contradiction | intros (? & ? & [=])].
    + intros ? ? [=].
  - split; [split; [contradiction | discriminate]|]. split.
    + split; eauto.
    + intros ? ? [= <- <-]. auto.
Qed.

(** ** What the search keeps of the motion table *)

Lemma straight_neighbor_ok g x y nx ny md m :
  (nx, ny) ≠ (x, y) → m ≠ CAPTURE →
  Forall (nb_ok x y) (straight_neighbor g nx ny md m).
Proof.
  intros Hp Hm. unfold straight_neighbor.
  destruct (reachable g nx ny); repeat constructor; assumption.
Qed.

Lemma half_turn_neighbor_ok g x y nx ny md m :
  (nx, ny) ≠ (x, y) → m ≠ CAPTURE →
  Forall (nb_ok x y) (half_turn_neighbor g x y nx ny md m).
Proof.
  intros Hp Hm. unfold half_turn_neighbor.
  destruct (half_turn_reachable g x y nx ny); repeat constructor; assumption.
Qed.

Lemma turn_neighbor_ok g x y nx ny d md m l :
  (nx, ny) ≠ (x, y) → m ≠ CAPTURE →
  turn_neighbor g x y nx ny d md m = Ok l →
  Forall (nb_ok x y) l.
Proof.
  intros Hp Hm. unfold turn_neighbor. intros (b & _ & [= <-])%bind_Ok.
  destruct b; repeat constructor; assumption.
Qed.

Create HintDb neighbors discriminated.

#[local] Hint Resolve straight_neighbor_ok half_turn_neighbor_ok : neighbors.
#[local] Hint Resolve Forall_nil_2 : neighbors.
#[local] Hint Extern 1 ((_, _) ≠ (_, _)) => (intros [=]; lia) : neighbors.
#[local] Hint Extern 1 (_ ≠ CAPTURE) => discriminate : neighbors.

Lemma neighbors_of_move_ok g x y d mv l :
  mv ∈ MOVE_DIRECTION →
  neighbors_of_move g x y d mv = Ok l →
  Forall (nb_ok x y) l.
Proof.
  intros Hmv. unfold MOVE_DIRECTION in Hmv.
  repeat (apply elem_of_cons in Hmv as [->|Hmv]);
    [| | | | now apply elem_of_nil in Hmv];
    unfold neighbors_of_move; destruct d; simpl;
    unfold TURNS, HALF_TURNS, TURN_RADIUS; simpl;
    intros H;
    try (injection H as <-);
    try (apply bind_Ok in H as (a & Ha & H);
         apply bind_Ok in H as (b & Hb & H);
         injection H as <-;
         apply turn_neighbor_ok in Ha, Hb; auto with neighbors);
    rewrite ?Forall_app; repeat split; auto with neighbors.
Qed.

Lemma get_neighboring_states_ok g x y d l :
  _get_neighboring_states g x y d = Ok l → Forall (nb_ok x y) l.
Proof.
  unfold _get_neighboring_states.
  assert (Hgen : ∀ mvs acc l,
    (∀ mv, mv ∈ mvs → mv ∈ MOVE_DIRECTION) →
    Forall (nb_ok x y) acc →
    foldM (fun neighbors mv =>
             more ← neighbors_of_move g x y d mv; Ok (neighbors ++ more)) mvs acc
    = Ok l →
    Forall (nb_ok x y) l).
  { induction mvs as [|mv mvs IH]; intros acc l' Hin Hacc; simpl.
    - now intros [= <-].
    - intros (acc' & Hstep & Hrest)%bind_Ok.
      apply bind_Ok in Hstep as (more & Hmore & [= <-]).
      apply (IH (acc ++ more) l'); try assumption.
      + intros mv' Hmv'. apply Hin. now apply list_elem_of_further.
      + apply Forall_app. split; [assumption|].
        apply (neighbors_of_move_ok g x y d mv); [|assumption].
        apply Hin, list_elem_of_here. }
  apply Hgen; [auto | constructor].
Qed.

Lemma motion_table_ok_empty : motion_table_ok ∅.
Proof.
  split.
  - intros u v [m Hm]. now rewrite lookup_empty in Hm.
  - intros k. now rewrite lookup_empty.
Qed.

Lemma motion_table_ok_insert mt (u v : pose) m :
  motion_table_ok mt → u ≠ v → m ≠ CAPTURE →
  mt !! (u, v) = None → mt !! (v, u) = None →
  motion_table_ok (<[(u, v) := m]> mt).
Proof.
  intros [Hone Hcap] Huv Hm Hn1 Hn2. split.
  - intros p q. rewrite !lookup_insert.
    repeat case_decide; simplify_eq; try congruence;
      try (intros _; assumption); try (intros [? Hs]; congruence);
      apply Hone.
  - intros k. rewrite lookup_insert. case_decide; [congruence | apply Hcap].
Qed.

Lemma relax_motion_table_ok end_ visited x y d dist st nb st' :
  nb_ok x y nb →
  motion_table_ok (s_motion_table st) →
  relax end_ visited x y d dist st nb = Ok st' →
  motion_table_ok (s_motion_table st').
Proof.
  destruct nb as [[[[nx ny] nd] safe] m]. intros [Hp Hm] Hok. unfold relax.
  destruct (decide ((nx, ny, nd) ∈ visited)); [now intros [= <-]|].
  intros (mc & _ & H)%bind_Ok.
  assert (Hmt : motion_table_ok
            match s_motion_table st !! (x, y, d, (nx, ny, nd)),
                  s_motion_table st !! (nx, ny, nd, (x, y, d)) with
            | None, None => <[(x, y, d, (nx, ny, nd)) := m]> (s_motion_table st)
            | _, _ => s_motion_table st
            end).
  { destruct (s_motion_table st !! (x, y, d, (nx, ny, nd))) eqn:H1; [exact Hok|].
    destruct (s_motion_table st !! (nx, ny, nd, (x, y, d))) eqn:H2; [exact Hok|].
    apply motion_table_ok_insert; try assumption. congruence. }
  destruct (match g_dist st !! (nx, ny, nd) with
            | Some g => g >? dist + (mc + safe)
            | None => true
            end); injection H as <-; exact Hmt.
Qed.

Lemma foldM_relax_motion_table_ok end_ visited x y d dist nbs :
  Forall (nb_ok x y) nbs →
  ∀ st st',
    motion_table_ok (s_motion_table st) →
    foldM (relax end_ visited x y d dist) nbs st = Ok st' →
    motion_table_ok (s_motion_table st').
Proof.
  induction 1 as [|nb nbs Hnb _ IH]; intros st st' Hok; simpl.
  - now intros [= <-].
  - intros (st1 & Hstep & Hrest)%bind_Ok.
    apply (IH st1 st'); [|assumption].
    now apply (relax_motion_table_ok end_ visited x y d dist st nb).
Qed.

Lemma astar_loop_motion_table_ok fuel s start end_ chain_fuel :
  ∀ visited st s',
    motion_table_ok (s_motion_table st) →
    astar_loop fuel s start end_ visited st chain_fuel = Ok s' →
    motion_table_ok (motion_table s').
Proof.
  induction fuel as [|fuel IH]; intros visited st s' Hok H; simpl in H.
  - destruct (heap st) as [|[[[f x] y] d] heap']; [|discriminate].
    now injection H as <-.
  - destruct (heap st) as [|[[[f x] y] d] heap'].
    { now injection H as <-. }
    destruct (decide ((x, y, d) ∈ visited)); [now apply IH in H|].
    destruct (is_eq end_ x y d).
    + apply bind_Ok in H as (cost & _ & H). unfold _record_path in H.
      apply bind_Ok in H as (path & _ & [= <-]). exact Hok.
    + apply bind_Ok in H as (dist & _ & H).
      apply bind_Ok in H as (nbs & Hnbs & H).
      apply bind_Ok in H as (st2 & Hfold & H).
      apply IH in H; [exact H|].
      apply get_neighboring_states_ok in Hnbs.
      eapply foldM_relax_motion_table_ok; [| |exact Hfold]; [exact Hnbs | exact Hok].
Qed.

Lemma astar_search_motion_table_ok fuel s start end_ s' :
  motion_table_ok (motion_table s) →
  _astar_search fuel s start end_ = Ok s' →
  motion_table_ok (motion_table s').
Proof.
  intros Hok. unfold _astar_search.
  destruct (path_table s !! key_of start end_); [now intros [= <-]|].
  now apply astar_loop_motion_table_ok.
Qed.

Lemma generate_paths_motion_table_ok fuel states :
  ∀ s s',
    motion_table_ok (motion_table s) →
    _generate_paths fuel s states = Ok s' →
    motion_table_ok (motion_table s').
Proof.
  induction states as [|a states IH]; intros s s' Hok; simpl.
  - now intros [= <-].
  - intros (s1 & Hrow & Hrest)%bind_Ok. apply (IH s1 s'); [|assumption].
    clear Hrest IH. revert s Hok Hrow.
    induction states as [|b states IHb]; intros s Hok; simpl.
    + now intros [= <-].
    + intros (s2 & Hs & Hrow)%bind_Ok. apply (IHb s2); [|assumption].
      now apply (astar_search_motion_table_ok fuel s a b).
Qed.

Lemma stitch_leg_motion_table visit_states visited permutation ps idx ps' :
  stitch_leg visit_states visited permutation ps idx = Ok ps' →
  motion_table (solver ps') = motion_table (solver ps).
Proof.
  unfold stitch_leg. intros H. bind_steps H.
  destruct (append_path _ _) as [cells next']. simpl in H.
  destruct (match cs_screenshot_id _ with ObsId _ => _ | Tags _ => _ end)
    as [[id obs]|]; [|discriminate].
  bind_steps H.
  unfold add_screenshot_last in H. simpl in H.
  destruct (reverse _) as [|last front]; [discriminate|].
  apply bind_Ok in H as (last' & _ & [= <-]). simpl.
  destruct front; reflexivity.
Qed.

Lemma try_combination_motion_table visit_states cur ps combination ps' :
  try_combination visit_states cur ps combination = Ok ps' →
  motion_table (solver ps') = motion_table (solver ps).
Proof.
  unfold try_combination. intros H.
  apply bind_Ok in H as ([visited cost] & _ & H).
  apply bind_Ok in H as (m & _ & H).
  apply bind_Ok in H as ([permutation distance] & _ & H).
  destruct (distance + cost >=? min_dist ps); [now injection H as <-|].
  change (motion_table (solver ps)) with
    (motion_table (solver (mkPlan (solver ps) (distance + cost)
                             [robot_start (solver ps)]))).
  revert H. generalize (mkPlan (solver ps) (distance + cost) [robot_start (solver ps)]).
  generalize (seq 0 (length permutation - 1)).
  induction l as [|i l IH]; intros ps0; simpl.
  - now intros [= <-].
  - intros (ps1 & Hleg & Hrest)%bind_Ok.
    rewrite (IH ps1 Hrest). now apply stitch_leg_motion_table in Hleg.
Qed.

Lemma try_subset_motion_table_ok fuel views ps bin_pos ps' :
  motion_table_ok (motion_table (solver ps)) →
  try_subset fuel views ps bin_pos = Ok ps' →
  motion_table_ok (motion_table (solver ps')).
Proof.
  intros Hok. unfold try_subset. intros H.
  apply bind_Ok in H as (cur & _ & H).
  apply bind_Ok in H as (s1 & Hgen & H).
  apply generate_paths_motion_table_ok in Hgen; [|exact Hok].
  revert H.
  generalize (_generate_combinations cur [] [] ITERATIONS).
  assert (Hps : motion_table_ok
                  (motion_table (solver (mkPlan s1 (min_dist ps) (optimal_path ps)))))
    by exact Hgen.
  revert Hps. generalize (mkPlan s1 (min_dist ps) (optimal_path ps)).
  intros ps0 Hps l. revert ps0 Hps.
  induction l as [|c l IH]; intros ps0 Hps; simpl.
  - now intros [= <-].
  - intros (ps1 & Hc & Hrest)%bind_Ok. apply (IH ps1); [|exact Hrest].
    now rewrite (try_combination_motion_table _ _ _ _ _ Hc).
Qed.

Lemma subset_loop_motion_table_ok fuel views options :
  ∀ ps ps',
    motion_table_ok (motion_table (solver ps)) →
    subset_loop fuel views ps options = Ok ps' →
    motion_table_ok (motion_table (solver ps')).
Proof.
  induction options as [|b options IH]; intros ps ps' Hok; simpl.
  - now intros [= <-].
  - intros (ps1 & Htry & H)%bind_Ok.
    apply try_subset_motion_table_ok in Htry; [|exact Hok].
    destruct (optimal_path ps1); [now apply (IH ps1) | now injection H as <-].
Qed.

(** The motion table that a planning call leaves is as the search builds
    it. *)
Lemma get_optimal_path_motion_table_ok fuel s path cost s' :
  motion_table_ok (motion_table s) →
  get_optimal_path fuel s = Ok (path, cost, s') →
  motion_table_ok (motion_table s').
Proof.
  intros Hok. unfold get_optimal_path.
  destruct (get_view_obstacle_positions (grid s) (next_oid s)) as [views next].
  intros (ps & Hloop & [= _ _ <-])%bind_Ok.
  now apply subset_loop_motion_table_ok in Hloop.
Qed.

(** The planner of [two_obstacle_solver] photographs obstacle 2 at the end
    of its path; the parallel list then holds the tag "2_C", not the
    obstacle id 2. *)
Lemma motion_path_ids_counterexample :
  match get_optimal_path 3000 two_obstacle_solver with
  | Ok (path, cost, s') =>
      ∃ motions ids,
        optimal_path_to_motion_path s' path = Ok (motions, ids)
        ∧ motions = [FORWARD; FORWARD; FORWARD; CAPTURE]
        ∧ ids = ["2_C"%string]
        ∧ ids ≠ [pretty 2]
  | _ => False
  end.
Proof.
  pose proof plan_two_obstacles as H.
  destruct (get_optimal_path 3000 two_obstacle_solver)
    as [[[path cost] s']| |]; try contradiction.
  destruct H as (_ & _ & _ & Hmotion).
  exists [FORWARD; FORWARD; FORWARD; CAPTURE], ["2_C"%string].
  split; [exact Hmotion|]. split; [reflexivity|]. split; [reflexivity|].
  vm_compute. discriminate.
Qed.

Lemma optimal_path_to_motion_path_spec_witness :
  match get_optimal_path 3000 two_obstacle_solver with
  | Ok (path, cost, s') =>
      optimal_path_to_motion_path s' path
      = spec_motion_path (motion_table s') path
      ∧ ¬ missing_pair (motion_table s') path
      ∧ optimal_path_to_motion_path s' path
        = Ok ([FORWARD; FORWARD; FORWARD; CAPTURE], ["2_C"%string])
  | _ => False
  end.
Proof.
  pose proof plan_two_obstacles as H.
  destruct (get_optimal_path 3000 two_obstacle_solver)
    as [[[path cost] s']| |] eqn:Hget; try contradiction.
  destruct H as (_ & _ & Htags & Hmotion).
  assert (Hok : motion_table_ok (motion_table s')).
  { apply (get_optimal_path_motion_table_ok 3000 two_obstacle_solver path cost s');
      [apply motion_table_ok_empty | exact Hget]. }
  assert (Htagged : Forall tagged (tail path))
    by apply (get_optimal_path_nonempty _ _ _ _ _ Hget).
  destruct (optimal_path_to_motion_path_spec s' path Hok Htagged)
    as (Heq & _ & Hnone & _).
  split; [exact Heq|]. split; [|exact Hmotion].
  apply Hnone. eauto.
Defined.

(* ================================================================== *)
(** * Further properties of the moves, the search and the drive *)
(* ================================================================== *)

(** ** Motions and directions *)

(** X1: the opposite of a motion is always defined, taking it twice gives
    the motion back, and for a drive primitive the two values add up to 10,
    forward and reverse are exchanged and offsets stay offsets. *)
Theorem opposite_motion_involutive (m : Motion) :
  ∃ m',
    opposite_motion m = Ok m'
    ∧ opposite_motion m' = Ok m
    ∧ half_turn_cost m' = half_turn_cost m
    ∧ (m = CAPTURE → m' = CAPTURE)
    ∧ (m ≠ CAPTURE →
       Motion_value m + Motion_value m' = 10
       ∧ ∃ c c', reverse_cost m = Ok c ∧ reverse_cost m' = Ok c' ∧ c + c' = 1).
Proof.
  destruct m; eexists; (split; [reflexivity|]); (split; [reflexivity|]);
    (split; [reflexivity|]); (split; [intros; try reflexivity; discriminate|]);
    intros H; try contradiction; (split; [reflexivity|]);
    eexists; eexists; repeat split.
Qed.

(** X2: the rotation cost is 0 between equal headings and 1 between
    perpendicular ones; the query raises [ValueError] exactly for a half turn
    or when one of the two directions is SKIP, and it does not depend on the
    order of the two directions. *)
Theorem rotation_cost_spec (d1 d2 : Direction) :
  rotation_cost d1 d2 = rotation_cost d2 d1
  ∧ (rotation_cost d1 d2 = Raise ValueError ↔
     d1 = SKIP ∨ d2 = SKIP ∨ d2 = opposite_direction d1)
  ∧ (rotation_cost d1 d2 = Ok 0 ↔ d1 = d2 ∧ d1 ≠ SKIP)
  ∧ (rotation_cost d1 d2 = Ok 1 ↔
     d1 ≠ SKIP ∧ d2 ≠ SKIP ∧ d1 ≠ d2 ∧ d2 ≠ opposite_direction d1)
  ∧ (∀ c, rotation_cost d1 d2 = Ok c → c = 0 ∨ c = 1).
Proof.
  destruct d1, d2; simpl; repeat split; intros;
    repeat match goal with
      | H : _ ∧ _ |- _ => destruct H
      | H : _ ∨ _ |- _ => destruct H
      | H : Ok _ = Ok _ |- _ => injection H as <-
      end;
    try discriminate; try congruence; auto.
Qed.

(** ** The obstacles of the grid *)

Lemma Obstacle_eq_refl o : Obstacle_eq o o = true.
Proof.
  unfold Obstacle_eq. rewrite !Z.eqb_refl, bool_decide_eq_true_2; reflexivity.
Qed.

Lemma Obstacle_eq_sym a b : Obstacle_eq a b = Obstacle_eq b a.
Proof.
  unfold Obstacle_eq. rewrite (Z.eqb_sym (ob_x a)), (Z.eqb_sym (ob_y a)).
  do 2 f_equal. apply bool_decide_ext. split; congruence.
Qed.

Lemma existsb_Obstacle_eq obs o :
  existsb (fun ob => Obstacle_eq ob o) obs = true ↔
  ∃ i ob, obs !! i = Some ob ∧ Obstacle_eq ob o = true.
Proof.
  rewrite existsb_exists. split.
  - intros (ob & Hin & Heq). apply list_elem_of_In, list_elem_of_lookup in Hin as [i Hi].
    eauto.
  - intros (i & ob & Hi & Heq). exists ob. split; [|exact Heq].
    apply list_elem_of_In, list_elem_of_lookup. eauto.
Qed.

(** X3: [add_obstacle] keeps the grid free of two obstacles with the same
    position and direction: a new obstacle goes to the end of the list, an
    obstacle that agrees with a present one on (x, y, direction) is dropped
    whatever its id, and adding the same obstacle again changes nothing. *)
Theorem add_obstacle_distinct (g : Grid) (o : Obstacle) :
  obstacles_distinct (obstacles g) →
  obstacles_distinct (obstacles (add_obstacle g o))
  ∧ (obstacles (add_obstacle g o) = obstacles g
     ∨ obstacles (add_obstacle g o) = obstacles g ++ [o])
  ∧ (obstacles (add_obstacle g o) = obstacles g ↔
     ∃ i ob, obstacles g !! i = Some ob ∧ Obstacle_eq ob o = true)
  ∧ add_obstacle (add_obstacle g o) o = add_obstacle g o
  ∧ size_x (add_obstacle g o) = size_x g ∧ size_y (add_obstacle g o) = size_y g.
Proof.
  intros Hd. unfold add_obstacle.
  destruct (existsb (fun ob => Obstacle_eq ob o) (obstacles g)) eqn:He.
  - rewrite He. split; [exact Hd|]. split; [now left|].
    split; [|repeat split]. split; [intros _; now apply existsb_Obstacle_eq | reflexivity].
  - simpl.
    assert (Hnone : ∀ i ob, obstacles g !! i = Some ob → Obstacle_eq ob o = false).
    { intros i ob Hi. destruct (Obstacle_eq ob o) eqn:Heq; [|reflexivity].
      assert (existsb (fun ob => Obstacle_eq ob o) (obstacles g) = true)
        by (apply existsb_Obstacle_eq; eauto).
      congruence. }
    split; [|split; [now right|split; [|split; [|split; reflexivity]]]].
    + intros i j a b Hi Hj Heq.
      destruct (decide (i < length (obstacles g))%nat) as [Hli|Hli],
               (decide (j < length (obstacles g))%nat) as [Hlj|Hlj].
      * rewrite lookup_app_l in Hi, Hj by assumption. eauto.
      * rewrite lookup_app_l in Hi by assumption.
        rewrite lookup_app_r in Hj by lia.
        destruct (j - length (obstacles g))%nat; [|now destruct n].
        injection Hj as <-. rewrite (Hnone i a Hi) in Heq. discriminate.
      * rewrite lookup_app_l in Hj by assumption.
        rewrite lookup_app_r in Hi by lia.
        destruct (i - length (obstacles g))%nat; [|now destruct n].
        injection Hi as <-. rewrite Obstacle_eq_sym, (Hnone j b Hj) in Heq. discriminate.
      * rewrite lookup_app_r in Hi, Hj by lia.
        destruct (i - length (obstacles g))%nat eqn:Ei; [|now destruct n].
        destruct (j - length (obstacles g))%nat eqn:Ej; [|now destruct n].
        lia.
    + split.
      * intros Heq. apply (f_equal length) in Heq. rewrite length_app in Heq.
        simpl in Heq. lia.
      * intros (i & ob & Hi & Heq). rewrite (Hnone i ob Hi) in Heq. discriminate.
    + rewrite existsb_app. simpl. rewrite Obstacle_eq_refl, orb_true_r. reflexivity.
Qed.

Lemma add_obstacle_distinct_witness :
  let g := mkGrid 20 20 [mkObstacle 5 5 NORTH 1] in
  obstacles (add_obstacle g (mkObstacle 5 5 NORTH 2)) = obstacles g
  ∧ obstacles (add_obstacle g (mkObstacle 5 5 SOUTH 2))
    = obstacles g ++ [mkObstacle 5 5 SOUTH 2]
  ∧ obstacles_distinct (obstacles (add_obstacle g (mkObstacle 5 5 SOUTH 2))).
Proof.
  intros g.
  assert (Hd : obstacles_distinct (obstacles g)).
  { intros [|i] [|j] a b Hi Hj _; try reflexivity; simpl in *;
      try (now destruct i); now destruct j. }
  split; [reflexivity|]. split; [reflexivity|].
  apply (add_obstacle_distinct g (mkObstacle 5 5 SOUTH 2) Hd).
Defined.

(** X4: [find_obstacle_by_id] returns the first obstacle of the list that
    carries the id, and [None] exactly when no obstacle carries it. *)
Theorem find_obstacle_by_id_spec (obs : list Obstacle) (id : Z) :
  match find_obstacle_by_id obs id with
  | Some o =>
      ∃ i, obs !! i = Some o ∧ obstacle_id o = id
           ∧ ∀ j o', (j < i)%nat → obs !! j = Some o' → obstacle_id o' ≠ id
  | None => ∀ o, o ∈ obs → obstacle_id o ≠ id
  end.
Proof.
  induction obs as [|a obs IH]; simpl.
  - intros o Ho. now apply elem_of_nil in Ho.
  - destruct (Z.eqb_spec (obstacle_id a) id) as [Heq|Hne].
    + exists 0%nat. split; [reflexivity|]. split; [exact Heq|]. intros; lia.
    + destruct (find_obstacle_by_id obs id) as [o|].
      * destruct IH as (i & Hi & Hid & Hfirst). exists (S i).
        split; [exact Hi|]. split; [exact Hid|].
        intros [|j] o' Hj Ho'; simpl in Ho'; [now injection Ho' as <-|].
        apply (Hfirst j); [lia | exact Ho'].
      * intros o [->|Ho]%elem_of_cons; [exact Hne | now apply IH].
Qed.

(** ** Clearance of half turns and of the cell itself *)

Lemma half_turn_loop_spec obs x y new_x new_y :
  x <= new_x → y <= new_y →
  half_turn_loop obs x y new_x new_y 2 = true ↔
  Forall (fun o => ¬ half_turn_swept x y new_x new_y o) obs.
Proof.
  intros Hx Hy. induction obs as [|o obs IH]; simpl.
  - split; [constructor | reflexivity].
  - rewrite Forall_cons, <- IH. unfold half_turn_swept.
    rewrite !Z.min_l, !Z.max_r by lia.
    rewrite !Z.abs_neq by lia.
    replace (- (x - new_x)) with (new_x - x) by lia.
    replace (- (y - new_y)) with (new_y - y) by lia.
    destruct (new_x - x >? new_y - y).
    + destruct (Z.leb_spec x (ob_x o)), (Z.leb_spec (ob_x o) new_x),
        (Z.leb_spec (y - 2) (ob_y o)), (Z.leb_spec (ob_y o) (new_y + 2)); simpl;
        split; try discriminate; try (intros [H' _]; exfalso; apply H'; lia);
        try (intros ->; split; [lia | reflexivity]); intros [_ ->]; reflexivity.
    + destruct (Z.leb_spec (x - 2) (ob_x o)), (Z.leb_spec (ob_x o) (new_x + 2)),
        (Z.leb_spec y (ob_y o)), (Z.leb_spec (ob_y o) new_y); simpl;
        split; try discriminate; try (intros [H' _]; exfalso; apply H'; lia);
        try (intros ->; split; [lia | reflexivity]); intros [_ ->]; reflexivity.
Qed.

Lemma half_turn_swept_sym x y new_x new_y o :
  half_turn_swept x y new_x new_y o ↔ half_turn_swept new_x new_y x y o.
Proof.
  unfold half_turn_swept.
  rewrite (Z.min_comm new_x), (Z.max_comm new_x), (Z.min_comm new_y), (Z.max_comm new_y).
  reflexivity.
Qed.

Lemma half_turn_reachable_iff (g : Grid) (x y new_x new_y : Z) :
  half_turn_reachable g x y new_x new_y = true ↔
  is_valid_coord g x y = true ∧ is_valid_coord g new_x new_y = true
  ∧ Forall (fun o => ¬ half_turn_swept x y new_x new_y o) (obstacles g).
Proof.
  unfold half_turn_reachable.
  destruct (is_valid_coord g x y), (is_valid_coord g new_x new_y); simpl;
    try (split; [discriminate | intros (? & ? & _); discriminate]).
  unfold EXPANDED_CELL. change (2 * 1) with 2.
  assert (Hswap : ∀ a b, (let '(hi, lo) := if b <? a then (a, b) else (b, a) in (lo, hi))
                         = (Z.min a b, Z.max a b)).
  { intros a b. destruct (Z.ltb_spec b a); f_equal; lia. }
  pose proof (Hswap x new_x) as Hsx. pose proof (Hswap y new_y) as Hsy.
  destruct (new_x <? x) eqn:Ex; destruct (new_y <? y) eqn:Ey;
    injection Hsx as Hlx Hhx; injection Hsy as Hly Hhy;
    rewrite half_turn_loop_spec by lia;
    (split; [intros H; repeat split; try reflexivity | intros (_ & _ & H)]);
    (eapply Forall_impl; [exact H|]); intros o Ho Hs; apply Ho;
    unfold half_turn_swept in *; rewrite <- ?Hlx, <- ?Hhx, <- ?Hly, <- ?Hhy in *;
    rewrite ?Z.min_id, ?Z.max_id in *;
    repeat match goal with
      | H : context [Z.min ?a ?b] |- _ => first [rewrite (Z.min_l a b) in H by lia | rewrite (Z.min_r a b) in H by lia]
      | H : context [Z.max ?a ?b] |- _ => first [rewrite (Z.max_l a b) in H by lia | rewrite (Z.max_r a b) in H by lia]
      | |- context [Z.min ?a ?b] => first [rewrite (Z.min_l a b) by lia | rewrite (Z.min_r a b) by lia]
      | |- context [Z.max ?a ?b] => first [rewrite (Z.max_l a b) by lia | rewrite (Z.max_r a b) by lia]
      end; exact Hs.
Qed.

Lemma half_turn_reachable_sym (g : Grid) (x y new_x new_y : Z) :
  half_turn_reachable g x y new_x new_y = half_turn_reachable g new_x new_y x y.
Proof.
  apply eq_true_iff_eq. rewrite !half_turn_reachable_iff.
  split; intros (H1 & H2 & H3); (split; [exact H2|split; [exact H1|]]);
    (eapply Forall_impl; [exact H3|]); intros o Ho Hs; apply Ho;
    now apply half_turn_swept_sym.
Qed.

(** X5: a half turn is allowed exactly when both cells are interior and no
    obstacle lies in the rectangle spanned by the two cells, padded by two
    cells on both sides across its longer side; the answer is the same in
    the two directions of the move. *)
Theorem half_turn_reachable_spec (g : Grid) (x y new_x new_y : Z) :
  (half_turn_reachable g x y new_x new_y = true ↔
   is_valid_coord g x y = true ∧ is_valid_coord g new_x new_y = true
   ∧ Forall (fun o => ¬ half_turn_swept x y new_x new_y o) (obstacles g))
  ∧ half_turn_reachable g x y new_x new_y = half_turn_reachable g new_x new_y x y.
Proof.
  split; [apply half_turn_reachable_iff | apply half_turn_reachable_sym].
Qed.

Lemma safe_cost_loop_spec obs x y :
  (safe_cost_loop obs x y 2 = SAFE_COST ↔
   Exists (fun o => Z.abs (ob_x o - x) <= 2 ∧ Z.abs (ob_y o - y) <= 2) obs)
  ∧ (safe_cost_loop obs x y 2 = 0 ↔
     Forall (fun o => Z.abs (ob_x o - x) > 2 ∨ Z.abs (ob_y o - y) > 2) obs).
Proof.
  induction obs as [|o obs [IH1 IH2]]; simpl.
  - split; [split; [discriminate | now rewrite Exists_nil]|].
    split; [constructor | reflexivity].
  - rewrite Exists_cons, Forall_cons.
    destruct (Z.leb_spec (Z.abs (ob_x o - x)) 2) as [Hx|Hx],
             (Z.leb_spec (Z.abs (ob_y o - y)) 2) as [Hy|Hy]; simpl.
    + split; [split; [intros _; left; lia | reflexivity]|].
      split; [discriminate | intros [[?|?] _]; lia].
    + rewrite IH1, IH2. split; [split; [tauto | intros [[? ?]|?]; [lia | assumption]]|].
      split; [intros ?; split; [lia | assumption] | tauto].
    + rewrite IH1, IH2. split; [split; [tauto | intros [[? ?]|?]; [lia | assumption]]|].
      split; [intros ?; split; [lia | assumption] | tauto].
    + rewrite IH1, IH2. split; [split; [tauto | intros [[? ?]|?]; [lia | assumption]]|].
      split; [intros ?; split; [lia | assumption] | tauto].
Qed.

(** X6: the safe cost of a cell is [SAFE_COST] when some obstacle is within
    two cells of it in both coordinates and 0 otherwise; a cell that
    [reachable] accepts still carries it exactly when some obstacle sits
    two cells away along one axis and one or two cells along the other. *)
Theorem calculate_safe_cost_spec (g : Grid) (x y : Z) :
  (_calculate_safe_cost g x y = SAFE_COST ↔
   Exists (fun o => Z.abs (ob_x o - x) <= 2 ∧ Z.abs (ob_y o - y) <= 2) (obstacles g))
  ∧ (_calculate_safe_cost g x y = 0 ↔
     Forall (fun o => Z.abs (ob_x o - x) > 2 ∨ Z.abs (ob_y o - y) > 2) (obstacles g))
  ∧ (reachable g x y = true →
     (_calculate_safe_cost g x y = SAFE_COST ↔
      Exists (fun o =>
                (Z.abs (ob_x o - x) = 2 ∧ 1 <= Z.abs (ob_y o - y) <= 2)
                ∨ (Z.abs (ob_y o - y) = 2 ∧ 1 <= Z.abs (ob_x o - x) <= 2))
        (obstacles g))).
Proof.
  unfold _calculate_safe_cost.
  destruct (safe_cost_loop_spec (obstacles g) x y) as [H1 H2].
  split; [exact H1|]. split; [exact H2|].
  intros Hr. rewrite H1. unfold reachable in Hr.
  destruct (is_valid_coord g x y); [simpl in Hr | discriminate].
  apply reachable_loop_spec in Hr. rewrite Forall_forall in Hr.
  rewrite !Exists_exists.
  split; intros (o & Ho & Hn); exists o; (split; [exact Ho|]);
    specialize (Hr o Ho); lia.
Qed.

Lemma calculate_safe_cost_spec_witness :
  let g := mkGrid 20 20 [mkObstacle 5 5 NORTH 1] in
  reachable g 7 6 = true ∧ _calculate_safe_cost g 7 6 = SAFE_COST.
Proof.
  intros g. split; [reflexivity|].
  apply (proj2 (proj2 (calculate_safe_cost_spec g 7 6)) eq_refl).
  apply Exists_cons. left. simpl. lia.
Defined.

(** ** Clearance of turns *)

Lemma turn_checking_points_eq x y new_x new_y d :
  d ≠ SKIP →
  _get_turn_checking_points x y new_x new_y d = Ok (turn_points4 x y new_x new_y d).
Proof.
  assert (Hdiv : ∀ a, (2 * a) / 2 = a) by (intros a; rewrite Z.mul_comm; apply Z.div_mul; lia).
  intros Hd. unfold _get_turn_checking_points, turn_points4.
  destruct d; try contradiction; repeat f_equal;
    match goal with
    | |- ?a / 2 = ?b => replace a with (2 * b) by lia; apply Hdiv
    | |- _ => lia
    end.
Qed.

Lemma dist4_lt_false h4 v4 p : dist4_lt h4 v4 p = false ↔ h4 * h4 + v4 * v4 >= 16 * p * p.
Proof. unfold dist4_lt. rewrite Z.ltb_ge. lia. Qed.

Lemma turn_loop_spec obs points x y new_x new_y :
  turn_loop obs points x y new_x new_y = true ↔
  Forall (fun o =>
            (ob_x o - x) * (ob_x o - x) + (ob_y o - y) * (ob_y o - y) >= 4
            ∧ (ob_x o - new_x) * (ob_x o - new_x)
              + (ob_y o - new_y) * (ob_y o - new_y) >= 4
            ∧ Forall (fun p => (4 * ob_x o - fst p) * (4 * ob_x o - fst p)
                               + (4 * ob_y o - snd p) * (4 * ob_y o - snd p) >= 64)
                points) obs.
Proof.
  induction obs as [|o obs IH]; simpl.
  - split; [constructor | reflexivity].
  - rewrite Forall_cons, <- IH.
    destruct (dist4_lt (4 * (ob_x o - x)) (4 * (ob_y o - y)) TURN_PADDING) eqn:H1.
    { split; [discriminate|]. intros [(Hc & _) _].
      unfold dist4_lt, TURN_PADDING in H1. apply Z.ltb_lt in H1. nia. }
    destruct (dist4_lt (4 * (ob_x o - new_x)) (4 * (ob_y o - new_y)) TURN_PADDING) eqn:H2.
    { split; [discriminate|]. intros [(_ & Hc & _) _].
      unfold dist4_lt, TURN_PADDING in H2. apply Z.ltb_lt in H2. nia. }
    apply dist4_lt_false in H1, H2. unfold TURN_PADDING in H1, H2.
    destruct (existsb _ points) eqn:H3.
    + split; [discriminate|]. intros [(_ & _ & Hc) _].
      apply existsb_exists in H3 as (p & Hp & Hlt).
      rewrite Forall_forall in Hc. specialize (Hc p (proj2 (list_elem_of_In _ _) Hp)).
      unfold dist4_lt, MID_TURN_PADDING in Hlt. apply Z.ltb_lt in Hlt. lia.
    + split; [|tauto]. intros Hrest. split; [|exact Hrest].
      split; [nia|]. split; [nia|].
      rewrite Forall_forall. intros p Hp.
      assert (Hf : dist4_lt (4 * ob_x o - fst p) (4 * ob_y o - snd p) MID_TURN_PADDING = false).
      { destruct (dist4_lt _ _ _) eqn:E; [|reflexivity].
        assert (existsb (fun point => dist4_lt (4 * ob_x o - fst point)
                           (4 * ob_y o - snd point) MID_TURN_PADDING) points = true)
          by (apply existsb_exists; exists p; split; [now apply list_elem_of_In | exact E]).
        congruence. }
      apply dist4_lt_false in Hf. unfold MID_TURN_PADDING in Hf. lia.
Qed.

Lemma turn_reachable_heading (g : Grid) (x y new_x new_y : Z) (d : Direction) :
  d ≠ SKIP →
  ∃ b, turn_reachable g x y new_x new_y d = Ok b
       ∧ (b = true ↔
          is_valid_coord g x y = true ∧ is_valid_coord g new_x new_y = true
          ∧ Forall (turn_clear x y new_x new_y d) (obstacles g)).
Proof.
  intros Hd. unfold turn_reachable. rewrite turn_checking_points_eq by assumption.
  simpl. destruct (is_valid_coord g x y), (is_valid_coord g new_x new_y); simpl;
    try (exists false; split; [reflexivity|];
         split; [discriminate | intros (? & ? & _); discriminate]).
  eexists. split; [reflexivity|]. rewrite turn_loop_spec.
  unfold turn_clear. tauto.
Qed.



(** ** The neighbours of a pose *)

Lemma elem_of_if_singleton {A} (b : bool) (v a : A) :
  a ∈ (if b then [v] else []) ↔ b = true ∧ a = v.
Proof.
  destruct b.
  - rewrite list_elem_of_singleton. tauto.
  - split; [intros H; inversion H | intros [H _]; discriminate].
Qed.

Lemma turn_reachable_total g x y nx ny d :
  d ≠ SKIP → ∃ b, turn_reachable g x y nx ny d = Ok b.
Proof.
  intros Hd. unfold turn_reachable.
  destruct d; try contradiction; simpl;
    destruct (negb (is_valid_coord g x y) || negb (is_valid_coord g nx ny)); eauto.
Qed.

Lemma drive_eq (a b a' b' : Z) (d : Direction) :
  a' = a → b' = b → Some (a', b', d) = Some (a, b, d).
Proof. intros -> ->. reflexivity. Qed.

#[local] Arguments turn_reachable : simpl never.
#[local] Arguments reachable : simpl never.
#[local] Arguments half_turn_reachable : simpl never.
#[local] Arguments _calculate_safe_cost : simpl never.

Ltac neighbors_normal_form :=
  unfold _get_neighboring_states, neighbors_of_move, straight_neighbor,
    half_turn_neighbor, turn_neighbor, TURNS, HALF_TURNS, TURN_RADIUS;
  simpl; unfold TURN_RADIUS;
  repeat match goal with
         | |- context [turn_reachable ?g ?x ?y ?nx ?ny ?d] =>
             let b := fresh "b" in
             let Hb := fresh "Hb" in
             destruct (turn_reachable_total g x y nx ny d ltac:(discriminate))
               as [b Hb];
             rewrite Hb
         end;
  simpl.

Ltac pick_piece nx ny :=
  first
    [ match goal with
      | |- _ ∧ _ = (?a, ?b, _, _, _) =>
          assert (nx = a) as -> by lia; assert (ny = b) as -> by lia
      end;
      split; [congruence | reflexivity]
    | left; pick_piece nx ny
    | right; pick_piece nx ny ].

Lemma get_neighboring_states_heading g x y d :
  d ≠ SKIP →
  ∃ l, _get_neighboring_states g x y d = Ok l
       ∧ ∀ nb, nb ∈ l ↔ neighbor_spec g x y d nb.
Proof.
  intros Hd. destruct d; try contradiction; clear Hd.
  all: neighbors_normal_form.
  all: eexists; split; [reflexivity|].
  all: intros [[[[nx ny] nd] sc] m].
  all: rewrite ?elem_of_app, ?elem_of_if_singleton, ?elem_of_nil.
  all: split.
  all: try (intros H; unfold neighbor_spec;
            repeat match type of H with _ ∨ _ => destruct H as [H|H] end;
            try contradiction;
            destruct H as [Ht Heq]; injection Heq as -> -> -> -> ->;
            unfold drive, steps; simpl;
            (split; [apply drive_eq; lia | split; [congruence | reflexivity]])).
  all: intros (Hdr & Hc & ->); destruct m; unfold drive, steps in Hdr;
    simpl in Hdr, Hc; try discriminate;
    injection Hdr as Hx Hy <-; simpl; pick_piece nx ny.
Qed.



Lemma neighbor_in_spec g x y d l nb :
  _get_neighboring_states g x y d = Ok l → nb ∈ l →
  d ≠ SKIP ∧ neighbor_spec g x y d nb.
Proof.
  intros Hl Hin. destruct (decide (d = SKIP)) as [->|Hd].
  - injection Hl as <-. inversion Hin.
  - split; [exact Hd|].
    destruct (get_neighboring_states_heading g x y d Hd) as (l' & Hl' & Hiff).
    rewrite Hl in Hl'. injection Hl' as <-. now apply Hiff.
Qed.

Lemma safe_cost_loop_range obs x y p :
  safe_cost_loop obs x y p = 0 ∨ safe_cost_loop obs x y p = SAFE_COST.
Proof.
  induction obs as [|o obs IH]; simpl; [now left|].
  repeat match goal with |- context [if ?c then _ else _] => destruct c end;
    auto.
Qed.

Lemma drive_clear_valid g x y d m nx ny :
  d ≠ SKIP → drive_clear g x y d m nx ny → is_valid_coord g nx ny = true.
Proof.
  intros Hd Hc. destruct m; simpl in Hc; try contradiction.
  all: try (unfold reachable in Hc; destruct (is_valid_coord g nx ny);
            [reflexivity | discriminate]).
  all: try (apply half_turn_reachable_iff in Hc as (_ & Hv & _); exact Hv).
  all: destruct (turn_reachable_heading g x y nx ny d Hd) as (b & Hb & Hiff);
    rewrite Hb in Hc; injection Hc as ->; now apply Hiff.
Qed.

Lemma neighbor_motion_cost g x y d l nx ny nd sc m :
  _get_neighboring_states g x y d = Ok l →
  (nx, ny, nd, sc, m) ∈ l →
  motion_cost_of d nd m = Ok (primitive_cost m).
Proof.
  intros Hl Hin. destruct (neighbor_in_spec _ _ _ _ _ _ Hl Hin) as (Hd & Hdr & _).
  destruct d; try contradiction; destruct m; unfold drive, steps in Hdr;
    simpl in Hdr; try discriminate; injection Hdr as _ _ <-; reflexivity.
Qed.

(** X9: along every edge that [_get_neighboring_states] offers, the cost
    that the search computes never raises and depends on the primitive
    alone: 1 forward, 3 in reverse, 10 and 30 for the offsets, 6 and 18 for
    the turns; the neighbour is an interior cell and its safe cost is 0 or
    [SAFE_COST], ten more for a turn. *)
Theorem neighbor_edge_cost (g : Grid) (x y : Z) (d : Direction)
    (l : list neighbor) (nx ny : Z) (nd : Direction) (sc : Z) (m : Motion) :
  _get_neighboring_states g x y d = Ok l →
  (nx, ny, nd, sc, m) ∈ l →
  motion_cost_of d nd m = Ok (primitive_cost m)
  ∧ 1 <= primitive_cost m <= 30
  ∧ is_valid_coord g nx ny = true
  ∧ (sc = (if is_turn m then 10 else 0)
     ∨ sc = SAFE_COST + (if is_turn m then 10 else 0)).
Proof.
  intros Hl Hin. destruct (neighbor_in_spec _ _ _ _ _ _ Hl Hin) as (Hd & Hdr & Hc & ->).
  split; [|split; [|split]].
  - eapply neighbor_motion_cost; eassumption.
  - destruct m; unfold drive in Hdr; try discriminate;
      cbv [primitive_cost REVERSE_FACTOR HALF_TURN_FACTOR TURN_FACTOR]; lia.
  - eapply drive_clear_valid; eassumption.
  - unfold _calculate_safe_cost.
    destruct (safe_cost_loop_range (obstacles g) nx ny 2) as [-> | ->];
      destruct (is_turn m); auto.
Qed.

Lemma neighbor_edge_cost_witness :
  ∃ l, _get_neighboring_states (Grid_init 20 20) 5 5 NORTH = Ok l
       ∧ motion_cost_of NORTH EAST FORWARD_RIGHT_TURN = Ok 6.
Proof.
  destruct (get_neighboring_states_heading (Grid_init 20 20) 5 5 NORTH
              ltac:(discriminate)) as (l & Hl & Hiff).
  exists l. split; [exact Hl|].
  refine (proj1 (neighbor_edge_cost (Grid_init 20 20) 5 5 NORTH l 10 8 EAST 10
                   FORWARD_RIGHT_TURN Hl _)).
  apply Hiff. vm_compute. repeat split.
Defined.





(** ** The search *)

Lemma linked_impl {A} (R R' : A → A → Prop) l :
  (∀ a b, R a b → R' a b) → linked R l → linked R' l.
Proof.
  intros HR. induction l as [|a [|b l] IH]; simpl; auto.
  intros [H1 H2]. split; [auto | apply IH; exact H2].
Qed.

Lemma linked_snoc {A} (R : A → A → Prop) l a b :
  linked R (l ++ [a]) → R a b → linked R ((l ++ [a]) ++ [b]).
Proof.
  induction l as [|c [|e l] IH]; simpl.
  - intros _ H. split; [exact H | exact I].
  - intros [H1 _] H. split; [exact H1|]. split; [exact H | exact I].
  - intros [H1 H2] H. split; [exact H1|]. apply IH; assumption.
Qed.

Lemma linked_reverse {A} (R : A → A → Prop) l :
  linked R l → linked (flip R) (reverse l).
Proof.
  induction l as [|a [|b l] IH]; simpl; auto.
  intros [H1 H2]. specialize (IH H2).
  rewrite reverse_cons. rewrite reverse_cons in IH |- *.
  apply linked_snoc; assumption.
Qed.

Lemma linked_last_pred {A} (R : A → A → Prop) a b l r :
  linked R (a :: b :: l) → last (a :: b :: l) = Some r → ∃ a0, R a0 r.
Proof.
  revert a b. induction l as [|c l IH]; intros a b [H1 H2] Hlast.
  - simpl in Hlast. injection Hlast as <-. exists a. exact H1.
  - apply (IH b c H2). exact Hlast.
Qed.

Lemma elem_of_heappush h item item' :
  item' ∈ heappush h item ↔ item' = item ∨ item' ∈ h.
Proof.
  induction h as [|a h IH]; simpl.
  - rewrite list_elem_of_singleton, elem_of_nil. tauto.
  - destruct (heap_item_le item a).
    + rewrite elem_of_cons. tauto.
    + rewrite !elem_of_cons, IH. tauto.
Qed.

Lemma drive_injective d m m' t :
  d ≠ SKIP → drive d m = Some t → drive d m' = Some t → m = m'.
Proof.
  intros Hd H1 H2. destruct d; try contradiction;
    destruct m; try discriminate; destruct m'; try discriminate;
    try reflexivity; vm_compute in H1, H2; congruence.
Qed.

Lemma neighbor_spec_unique g x y d nx ny nd sc m sc' m' :
  d ≠ SKIP →
  neighbor_spec g x y d (nx, ny, nd, sc, m) →
  neighbor_spec g x y d (nx, ny, nd, sc', m') →
  m = m' ∧ sc = sc'.
Proof.
  intros Hd (H1 & _ & ->) (H2 & _ & ->).
  assert (m = m') as <- by (eapply drive_injective; eassumption).
  split; reflexivity.
Qed.

Lemma edge_cost_neighbor g x y d l nx ny nd sc m mc :
  _get_neighboring_states g x y d = Ok l →
  (nx, ny, nd, sc, m) ∈ l →
  motion_cost_of d nd m = Ok mc →
  edge_cost g (x, y, d) (nx, ny, nd) = Some (mc + sc).
Proof.
  intros Hl Hin Hmc. unfold edge_cost. simpl. rewrite Hl.
  destruct (neighbor_in_spec _ _ _ _ _ _ Hl Hin) as (Hd & Hspec).
  destruct (find _ l) as [[[[[nx' ny'] nd'] sc'] m']|] eqn:Hfind.
  - apply find_some in Hfind as [Hin' Hpose].
    apply bool_decide_eq_true in Hpose. simpl in Hpose.
    injection Hpose as -> -> ->.
    apply list_elem_of_In in Hin'.
    destruct (neighbor_in_spec _ _ _ _ _ _ Hl Hin') as (_ & Hspec').
    destruct (neighbor_spec_unique _ _ _ _ _ _ _ _ _ _ _ Hd Hspec' Hspec) as [-> ->].
    rewrite Hmc. reflexivity.
  - exfalso. apply list_elem_of_In in Hin.
    pose proof (find_none _ _ Hfind _ Hin) as Hf. simpl in Hf.
    apply bool_decide_eq_false in Hf. apply Hf. reflexivity.
Qed.

Lemma astar_inv_motion_table g start end_ visited st mt' :
  astar_inv g start end_ visited st →
  (∀ k, is_Some (s_motion_table st !! k) → is_Some (mt' !! k)) →
  astar_inv g start end_ visited
    (mkSearch (g_dist st) (heap st) (parent_dict st) mt').
Proof.
  intros (I1 & I2 & I3 & I5 & I6 & I7) Hmono.
  unfold astar_inv. split_and!; simpl; try assumption; try apply I5.
  intros v u Hp. destruct (I1 v u Hp) as (Hu & He & Hm & Hg).
    split; [exact Hu|]. split; [exact He|]. split; [|exact Hg].
    destruct Hm as [Hm|Hm]; [left | right]; apply Hmono; exact Hm.
Qed.

Lemma astar_inv_update g start end_ visited st l x y d dist nx ny nd sc m mc :
  astar_inv g start end_ visited st →
  (x, y, d) ∈ visited →
  (nx, ny, nd) ∉ visited →
  g_dist st !! (x, y, d) = Some dist →
  _get_neighboring_states g x y d = Ok l →
  (nx, ny, nd, sc, m) ∈ l →
  motion_cost_of d nd m = Ok mc →
  has_motion (s_motion_table st) (x, y, d) (nx, ny, nd) →
  ∀ f,
  astar_inv g start end_ visited
    (mkSearch
       (<[(nx, ny, nd) := dist + (mc + sc)
                          + (if is_eq end_ nx ny nd then cs_penalty end_ else 0)]>
          (g_dist st))
       (heappush (heap st) (f, nx, ny, nd))
       (<[(nx, ny, nd) := (x, y, d)]> (parent_dict st))
       (s_motion_table st)).
Proof.
  intros (I1 & I2 & I3 & I5 & I6 & I7) Hu Hv Hdist Hl Hin Hmc Hmot f.
  assert (Huv : (x, y, d) ≠ (nx, ny, nd)) by (intros E; rewrite E in Hu; contradiction).
  assert (Hsv : pose_of start ≠ (nx, ny, nd)).
  { intros E. apply Hv. rewrite <- E. eapply I6. exact Hu. }
  unfold astar_inv. split_and!; simpl.
  - intros v u H. destruct (decide (v = (nx, ny, nd))) as [->|Hne].
    + rewrite lookup_insert_eq in H. injection H as <-.
      split; [exact Hu|]. split; [exists l, sc, m; split; [exact Hl | exact Hin]|].
      split; [exact Hmot|].
      exists dist, (mc + sc).
      rewrite lookup_insert_ne by congruence. split; [exact Hdist|].
      split; [eapply edge_cost_neighbor; eassumption|].
      rewrite lookup_insert_eq. reflexivity.
    + rewrite lookup_insert_ne in H by congruence.
      destruct (I1 v u H) as (Hu0 & He & Hm & gu & c & Hgu & Hc & Hgv).
      split; [exact Hu0|]. split; [exact He|]. split; [exact Hm|].
      exists gu, c.
      rewrite lookup_insert_ne by (intros E; rewrite <- E in Hu0; contradiction).
      split; [exact Hgu|]. split; [exact Hc|].
      rewrite lookup_insert_ne by congruence. exact Hgv.
  - intros u Hu0 Hp. apply I2; [exact Hu0|].
    rewrite lookup_insert_ne in Hp; [exact Hp|].
    intros E; rewrite <- E in Hu0; contradiction.
  - intros f0 x0 y0 d0 H. apply elem_of_heappush in H as [H|H].
    + injection H as -> -> -> ->. rewrite !lookup_insert_eq. eauto.
    + destruct (I3 _ _ _ _ H) as [Hg Hp].
      destruct (decide ((x0, y0, d0) = (nx, ny, nd))) as [->|Hne].
      * rewrite !lookup_insert_eq. eauto.
      * rewrite !lookup_insert_ne by congruence. split; assumption.
  - rewrite lookup_insert_ne by congruence. apply I5.
  - rewrite lookup_insert_ne by congruence. apply I5.
  - exact I6.
  - exact I7.
Qed.

Lemma relax_motion_table (mt : gmap (pose * pose) Motion) (u v : pose) (m : Motion) :
  let mt' := match mt !! (u, v), mt !! (v, u) with
             | None, None => <[(u, v) := m]> mt
             | _, _ => mt
             end in
  (∀ k, is_Some (mt !! k) → is_Some (mt' !! k))
  ∧ has_motion mt' u v
  ∧ (motion_table_sound mt →
     u.2 ≠ SKIP ∧ drive u.2 m = Some (v.1.1 - u.1.1, v.1.2 - u.1.2, v.2) →
     motion_table_sound mt').
Proof.
  unfold has_motion.
  destruct (mt !! (u, v)) as [m1|] eqn:E1; [|destruct (mt !! (v, u)) as [m2|] eqn:E2];
    simpl.
  - rewrite E1. split; [tauto|]. split; [eauto | tauto].
  - rewrite E2. split; [tauto|]. split; [eauto | tauto].
  - split; [|split].
    + intros k Hk. destruct (decide (k = (u, v))) as [->|Hne].
      * rewrite lookup_insert_eq. eauto.
      * rewrite lookup_insert_ne by congruence. exact Hk.
    + left. rewrite lookup_insert_eq. eauto.
    + intros Hs Hm u0 v0 m0 H0.
      destruct (decide ((u0, v0) = (u, v))) as [E|Hne].
      * injection E as -> ->. rewrite lookup_insert_eq in H0.
        injection H0 as <-. exact Hm.
      * rewrite lookup_insert_ne in H0 by congruence. apply (Hs _ _ _ H0).
Qed.

Lemma relax_inv g start end_ visited x y d dist l st nb st' :
  astar_inv g start end_ visited st →
  (x, y, d) ∈ visited →
  g_dist st !! (x, y, d) = Some dist →
  _get_neighboring_states g x y d = Ok l →
  nb ∈ l →
  relax end_ visited x y d dist st nb = Ok st' →
  astar_inv g start end_ visited st' ∧ g_dist st' !! (x, y, d) = Some dist.
Proof.
  intros Inv Hu Hdist Hl Hin Hr. destruct nb as [[[[nx ny] nd] sc] m].
  unfold relax in Hr.
  destruct (decide ((nx, ny, nd) ∈ visited)) as [Hv|Hv].
  { injection Hr as <-. split; assumption. }
  apply bind_Ok in Hr as (mc & Hmc & Hr).
  destruct (neighbor_in_spec _ _ _ _ _ _ Hl Hin) as (Hd & Hdr & _).
  pose proof (relax_motion_table (s_motion_table st) (x, y, d) (nx, ny, nd) m) as F.
  cbv zeta in F.
  match type of F with
  | (∀ k, _ → is_Some (?mt !! k)) ∧ _ => set (mt' := mt) in *
  end.
  destruct F as (Fmono & Fhas & Fsound).
  assert (Inv1 : astar_inv g start end_ visited
                   (mkSearch (g_dist st) (heap st) (parent_dict st) mt')).
  { apply astar_inv_motion_table; [exact Inv | exact Fmono]. }
  assert (Huv : (x, y, d) ≠ (nx, ny, nd)) by (intros E; rewrite E in Hu; contradiction).
  destruct (match g_dist st !! (nx, ny, nd) with
            | Some g0 => g0 >? dist + (mc + sc)
            | None => true
            end).
  - injection Hr as <-. split.
    + exact (astar_inv_update g start end_ visited _ l x y d dist nx ny nd sc m mc
               Inv1 Hu Hv Hdist Hl Hin Hmc Fhas _).
    + simpl. rewrite lookup_insert_ne by congruence. exact Hdist.
  - injection Hr as <-. split; [exact Inv1 | exact Hdist].
Qed.

Lemma foldM_relax_inv g start end_ visited x y d dist l nbs :
  ∀ st st',
    (∀ nb, nb ∈ nbs → nb ∈ l) →
    astar_inv g start end_ visited st →
    (x, y, d) ∈ visited →
    g_dist st !! (x, y, d) = Some dist →
    _get_neighboring_states g x y d = Ok l →
    foldM (relax end_ visited x y d dist) nbs st = Ok st' →
    astar_inv g start end_ visited st'.
Proof.
  induction nbs as [|nb nbs IH]; intros st st' Hsub Inv Hu Hdist Hl H; simpl in H.
  - injection H as <-. exact Inv.
  - apply bind_Ok in H as (st1 & Hr & H).
    destruct (relax_inv _ _ _ _ _ _ _ _ _ _ _ _ Inv Hu Hdist Hl
                (Hsub nb (list_elem_of_here _ _)) Hr) as [Inv1 Hdist1].
    apply (IH st1 st'); try assumption.
    intros nb' Hnb'. apply Hsub. now apply list_elem_of_further.
Qed.

Lemma is_eq_pose c x y d : is_eq c x y d = true ↔ (x, y, d) = pose_of c.
Proof.
  unfold is_eq, pose_of. rewrite !andb_true_iff, !Z.eqb_eq, bool_decide_eq_true.
  split; [intros [[-> ->] ->]; reflexivity | intros E; injection E as -> -> ->; auto].
Qed.

Lemma parent_chain_spec fuel parent :
  ∀ v acc path,
    parent_chain fuel parent v acc = Ok path →
    ∃ chain, path = acc ++ chain ∧ head chain = Some v
             ∧ linked (fun a b => parent !! a = Some b) chain
             ∧ ∃ r, last chain = Some r ∧ parent !! r = None.
Proof.
  induction fuel as [|fuel IH]; intros v acc path H; simpl in H;
    destruct (parent !! v) as [p|] eqn:Hp; try discriminate.
  - injection H as <-. exists [v]. repeat split. exists v. split; [reflexivity | exact Hp].
  - apply IH in H as (chain & -> & Hhead & Hlink & r & Hlast & Hr).
    exists (v :: chain). rewrite <- app_assoc. split; [reflexivity|].
    split; [reflexivity|]. split.
    + destruct chain as [|b chain]; [discriminate|]. injection Hhead as ->.
      split; [exact Hp | exact Hlink].
    + exists r. split; [|exact Hr]. destruct chain; [discriminate | exact Hlast].
  - injection H as <-. exists [v]. repeat split. exists v. split; [reflexivity | exact Hp].
Qed.

Lemma path_cost_snoc g l b v c1 c :
  path_cost g (l ++ [b]) = Some c1 → edge_cost g b v = Some c →
  path_cost g ((l ++ [b]) ++ [v]) = Some (c1 + c).
Proof.
  revert c1. induction l as [|a [|e l] IH]; intros c1; simpl.
  - intros H Hc. injection H as <-. rewrite Hc. f_equal. lia.
  - intros H Hc. destruct (edge_cost g a b) as [c0|]; [|discriminate].
    injection H as <-. rewrite Hc. f_equal. lia.
  - intros H Hc. destruct (edge_cost g a e) as [c0|]; [|discriminate].
    destruct (match (l ++ [b]) with [] => _ | _ => _ end) as [c2|] eqn:E;
      [|discriminate].
    injection H as <-.
    specialize (IH c2 E Hc). simpl in IH. rewrite IH. f_equal. lia.
Qed.

(** What the chain of parents from the goal gives when read backwards. *)
Lemma chain_path g start end_ visited st chain :
  astar_inv g start end_ visited st →
  linked (fun a b => parent_dict st !! a = Some b) chain →
  ∀ v, head chain = Some v →
  last chain = Some (pose_of start) →
  last (reverse chain) = Some v
  ∧ linked (fun a b => edge g a b ∧ has_motion (s_motion_table st) a b) (reverse chain)
  ∧ ∃ c0, path_cost g (reverse chain) = Some c0
          ∧ g_dist st !! v
            = Some (c0 + match chain with
                         | _ :: _ :: _ => arrival_penalty end_ v
                         | _ => 0
                         end).
Proof.
  intros Inv. pose proof Inv as (I1 & I2 & I3 & I5 & I6 & I7).
  induction chain as [|a [|b chain] IH]; intros Hlink v Hhead Hlast.
  - discriminate.
  - injection Hhead as <-. injection Hlast as ->.
    split; [reflexivity|]. split; [exact I|].
    exists 0. split; [reflexivity|]. rewrite Z.add_0_r. apply I5.
  - injection Hhead as <-. destruct Hlink as [Hp Hlink].
    destruct (IH Hlink b eq_refl Hlast) as (_ & Hl' & c1 & Hc1 & Hgb).
    destruct (I1 a b Hp) as (Hb & He & Hm & gu & c & Hgu & Hc & Hga).
    assert (Hpen : arrival_penalty end_ b = 0).
    { unfold arrival_penalty. destruct (is_eq end_ b.1.1 b.1.2 b.2) eqn:E; [|reflexivity].
      apply is_eq_pose in E. destruct b as [[bx by_] bd]. simpl in E.
      rewrite E in Hb. contradiction. }
    assert (Hgb' : g_dist st !! b = Some c1).
    { rewrite Hgb. f_equal. destruct chain; [lia | rewrite Hpen; lia]. }
    rewrite Hgu in Hgb'. injection Hgb' as ->.
    rewrite (reverse_cons _ a). rewrite (reverse_cons _ b) in Hl', Hc1 |- *.
    split; [apply last_snoc|]. split.
    + apply linked_snoc; [exact Hl' | split; assumption].
    + exists (c1 + c). split; [apply path_cost_snoc; assumption | exact Hga].
Qed.

Lemma two_or_more_reverse {A B} (l : list A) (x y : B) :
  match reverse l with _ :: _ :: _ => x | _ => y end
  = match l with _ :: _ :: _ => x | _ => y end.
Proof.
  destruct l as [|a [|b l]]; try reflexivity.
  rewrite !reverse_cons. destruct (reverse l) as [|c [|e r]]; reflexivity.
Qed.

Lemma astar_inv_initial g start end_ mt h :
  astar_inv g start end_ ∅
    (mkSearch {[ pose_of start := 0 ]}
       [(h, cs_x start, cs_y start, cs_direction start)] ∅ mt).
Proof.
  unfold astar_inv. split_and!; simpl.
  - intros v u H. rewrite lookup_empty in H. discriminate.
  - intros u Hu. exfalso. revert Hu. apply not_elem_of_empty.
  - intros f x y d H. apply list_elem_of_singleton in H. injection H as -> -> -> ->.
    split; [|left; reflexivity]. unfold pose_of. rewrite lookup_singleton_eq. eauto.
  - apply lookup_empty.
  - apply lookup_singleton_eq.
  - intros u Hu. exfalso. revert Hu. apply not_elem_of_empty.
  - apply not_elem_of_empty.
Qed.

Lemma astar_inv_expand g start end_ visited st f x y d heap' :
  astar_inv g start end_ visited st →
  heap st = (f, x, y, d) :: heap' →
  is_eq end_ x y d = false →
  astar_inv g start end_ ({[ (x, y, d) ]} ∪ visited)
    (mkSearch (g_dist st) heap' (parent_dict st) (s_motion_table st)).
Proof.
  intros (I1 & I2 & I3 & I5 & I6 & I7) Hheap Hne.
  assert (Hpop : is_Some (g_dist st !! (x, y, d))
                 ∧ ((x, y, d) = pose_of start
                    ∨ is_Some (parent_dict st !! (x, y, d)))).
  { apply (I3 f). rewrite Hheap. apply list_elem_of_here. }
  unfold astar_inv. split_and!; simpl.
  - intros v u H. destruct (I1 v u H) as (Hu & He & Hm & Hg).
    split; [apply elem_of_union; right; exact Hu|].
    split; [exact He|]. split; [exact Hm | exact Hg].
  - intros u Hu Hp. apply elem_of_union in Hu as [Hu|Hu].
    + apply elem_of_singleton in Hu as ->.
      destruct Hpop as [_ [Hs|[p Hsome]]]; [exact Hs |].
      assert (E : Some p = None) by (rewrite <- Hsome; exact Hp). discriminate.
    + now apply I2.
  - intros f0 x0 y0 d0 H. apply (I3 f0). rewrite Hheap. now apply list_elem_of_further.
  - apply I5.
  - apply I5.
  - intros u _. destruct Hpop as [_ [Hs|[p Hsome]]].
    + rewrite <- Hs. apply elem_of_union. left. now apply elem_of_singleton.
    + destruct (I1 _ _ Hsome) as (Hp & _). apply elem_of_union. right.
      eapply I6. exact Hp.
  - intros Hin. apply elem_of_union in Hin as [Hin|Hin]; [|contradiction].
    apply elem_of_singleton in Hin.
    assert (is_eq end_ x y d = true) by (apply is_eq_pose; congruence).
    congruence.
Qed.

Lemma dict_get_Ok {K V} `{Countable K} (m : gmap K V) (k : K) (v : V) :
  dict_get m k = Ok v → m !! k = Some v.
Proof. unfold dict_get. destruct (m !! k); [congruence | discriminate]. Qed.

Lemma astar_loop_post fuel s start end_ chain_fuel :
  ∀ visited st s',
    astar_inv (grid s) start end_ visited st →
    astar_loop fuel s start end_ visited st chain_fuel = Ok s' →
    grid s' = grid s
    ∧ ((path_table s' = path_table s ∧ cost_table s' = cost_table s)
       ∨ ∃ path cost,
           search_recorded s s' start end_ path cost
           ∧ head path = Some (pose_of start)
           ∧ last path = Some (pose_of end_)
           ∧ linked (fun u v => edge (grid s) u v
                                ∧ has_motion (motion_table s') u v) path
           ∧ ∃ c0, path_cost (grid s) path = Some c0
                   ∧ cost = c0 + match path with
                                 | _ :: _ :: _ => cs_penalty end_
                                 | _ => 0
                                 end).
Proof.
  induction fuel as [|fuel IH]; intros visited st s' Inv H; simpl in H.
  - destruct (heap st) as [|[[[f x] y] d] heap']; [|discriminate].
    injection H as <-. split; [reflexivity|].
    left. split; reflexivity.
  - destruct (heap st) as [|[[[f x] y] d] heap'] eqn:Hheap.
    { injection H as <-. split; [reflexivity|].
      left. split; reflexivity. }
    assert (Inv0 : astar_inv (grid s) start end_ visited
                     (mkSearch (g_dist st) heap' (parent_dict st) (s_motion_table st))).
    { destruct Inv as (I1 & I2 & I3 & I5 & I6 & I7).
      unfold astar_inv. split_and!; simpl; try assumption; try apply I5.
      intros f0 x0 y0 d0 H0. apply (I3 f0). rewrite Hheap.
      now apply list_elem_of_further. }
    destruct (decide ((x, y, d) ∈ visited)); [now apply IH in H|].
    destruct (is_eq end_ x y d) eqn:Heq.
    + apply bind_Ok in H as (gv & Hgv & H). apply dict_get_Ok in Hgv.
      simpl in Hgv, H.
      unfold _record_path in H. apply bind_Ok in H as (path & Hchain & H).
      injection H as <-. simpl.
      split; [reflexivity|]. right.
      apply parent_chain_spec in Hchain as (chain & -> & Hhead & Hlink & r & Hlast & Hr).
      simpl in *.
      apply is_eq_pose in Heq.
      assert (Hrs : r = pose_of start).
      { pose proof Inv as (I1 & I2 & I3 & _).
        destruct chain as [|a [|b chain]]; [discriminate| |].
        - injection Hhead as ->. injection Hlast as <-.
          destruct (I3 f x y d) as [_ [Hs|[p Hp]]];
            [rewrite Hheap; apply list_elem_of_here | congruence |].
          assert (E : Some p = None) by (rewrite <- Hp, Heq; exact Hr).
          discriminate.
        - destruct (linked_last_pred _ _ _ _ _ Hlink Hlast) as (a0 & Ha0).
 destruct (I1 _ _ Ha0) as (Hrv & _).
          now apply I2. }
      subst r. rewrite Heq in *.
      destruct (chain_path _ _ _ _ _ _ Inv Hlink _ Hhead Hlast)
        as (Hl & Hlk & c0 & Hc0 & Hg).
      exists (reverse chain), gv. split.
      { unfold search_recorded. simpl. rewrite reverse_involutive.
        split; reflexivity. }
      split; [rewrite head_reverse; exact Hlast|].
      split; [exact Hl|]. split; [exact Hlk|].
      exists c0. split; [exact Hc0|].
      rewrite Hgv in Hg. injection Hg as ->.
      rewrite two_or_more_reverse. f_equal.
      destruct chain as [|a [|b chain]]; try reflexivity.
      unfold arrival_penalty.
      assert (E : is_eq end_ (pose_of end_).1.1 (pose_of end_).1.2 (pose_of end_).2 = true)
        by (apply is_eq_pose; reflexivity).
      rewrite E. reflexivity.
    + apply bind_Ok in H as (gv & Hgv & H). apply dict_get_Ok in Hgv.
      simpl in Hgv.
      apply bind_Ok in H as (nbs & Hnbs & H).
      apply bind_Ok in H as (st2 & Hfold & H).
      apply (IH _ _ _ (foldM_relax_inv _ _ _ _ _ _ _ _ _ _ _ _
                         (fun nb Hnb => Hnb)
                         (astar_inv_expand _ _ _ _ _ _ _ _ _ _ Inv Hheap Heq)
                         (proj2 (elem_of_union _ _ _)
                            (or_introl (proj2 (elem_of_singleton _ _) eq_refl)))
                         Hgv Hnbs Hfold) H).
Qed.

Lemma astar_search_post fuel s start end_ s' :
  _astar_search fuel s start end_ = Ok s' →
  grid s' = grid s
  ∧ ((path_table s' = path_table s ∧ cost_table s' = cost_table s)
     ∨ ∃ path cost,
         search_recorded s s' start end_ path cost
         ∧ head path = Some (pose_of start)
         ∧ last path = Some (pose_of end_)
         ∧ linked (fun u v => edge (grid s) u v
                              ∧ has_motion (motion_table s') u v) path
         ∧ ∃ c0, path_cost (grid s) path = Some c0
                 ∧ cost = c0 + match path with
                               | _ :: _ :: _ => cs_penalty end_
                               | _ => 0
                               end).
Proof.
  unfold _astar_search. destruct (path_table s !! key_of start end_).
  - intros H. injection H as <-. split; [reflexivity|]. left. split; reflexivity.
  - intros H. eapply astar_loop_post; [|exact H]. apply astar_inv_initial.
Qed.

(** X11: a search that records a path records a drivable one.  The path
    stored for the pair begins at the pose of [start] and ends at the pose
    of [end_], each pose is among the neighbours that
    [_get_neighboring_states] finds for the pose before it, and the motion
    table holds a primitive for each such step under one of its two keys;
    the reverse path is stored for the reversed pair. *)
Theorem astar_search_path (fuel : nat) (s : MazeSolver) (start end_ : CellState)
    (s' : MazeSolver) :
  _astar_search fuel s start end_ = Ok s' →
  (path_table s' = path_table s ∧ cost_table s' = cost_table s)
  ∨ ∃ path cost,
      search_recorded s s' start end_ path cost
      ∧ head path = Some (pose_of start)
      ∧ last path = Some (pose_of end_)
      ∧ linked (fun u v => edge (grid s) u v
                           ∧ has_motion (motion_table s') u v) path.
Proof.
  intros H. destruct (astar_search_post _ _ _ _ _ H) as [_ [Hsame|Hrec]].
  - left. exact Hsame.
  - right. destruct Hrec as (path & cost & Hr & Hh & Hl & Hlk & _).
    exists path, cost. auto.
Qed.

(** X12: the cost that a search records is the cost of the path it records:
    the sum over the steps of the path of the cost of the primitive and the
    safe cost of the cell reached, and the penalty of the goal when the
    path has a step at all. *)
Theorem astar_search_cost (fuel : nat) (s : MazeSolver) (start end_ : CellState)
    (s' : MazeSolver) :
  _astar_search fuel s start end_ = Ok s' →
  (path_table s' = path_table s ∧ cost_table s' = cost_table s)
  ∨ ∃ path cost c0,
      search_recorded s s' start end_ path cost
      ∧ path_cost (grid s) path = Some c0
      ∧ cost = c0 + match path with
                    | _ :: _ :: _ => cs_penalty end_
                    | _ => 0
                    end.
Proof.
  intros H. destruct (astar_search_post _ _ _ _ _ H) as [_ [Hsame|Hrec]].
  - left. exact Hsame.
  - right. destruct Hrec as (path & cost & Hr & _ & _ & _ & c0 & Hc0 & Hcost).
    exists path, cost, c0. auto.
Qed.

(** ** Driving a path *)

Lemma motion_table_sound_empty : motion_table_sound ∅.
Proof. intros u v m H. rewrite lookup_empty in H. discriminate. Qed.

Lemma drive_opposite d m dx dy nd :
  d ≠ SKIP → drive d m = Some (dx, dy, nd) →
  ∃ m', opposite_motion m = Ok m' ∧ m' ≠ CAPTURE
        ∧ nd ≠ SKIP ∧ drive nd m' = Some (- dx, - dy, d).
Proof.
  intros Hd H. destruct d; try contradiction; destruct m; try discriminate;
    vm_compute in H; injection H as <- <- <-; eexists;
    (split; [reflexivity|]); (split; [discriminate|]); (split; [discriminate|]);
    reflexivity.
Qed.

Lemma motion_resolution_drives mt (u v : pose) :
  motion_table_sound mt → has_motion mt u v →
  ∃ m,
    match mt !! (v, u) with
    | Some m => opposite_motion m
    | None => match mt !! (u, v) with
              | Some m => Ok m
              | None => Raise ValueError
              end
    end = Ok m
    ∧ m ≠ CAPTURE
    ∧ drive u.2 m = Some (v.1.1 - u.1.1, v.1.2 - u.1.2, v.2).
Proof.
  intros Hs Hm. destruct (mt !! (v, u)) as [m|] eqn:Hvu.
  - destruct (Hs _ _ _ Hvu) as [Hd Hdr].
    destruct (drive_opposite _ _ _ _ _ Hd Hdr) as (m' & Hm' & Hc & _ & Hdr').
    exists m'. split; [exact Hm'|]. split; [exact Hc|].
    rewrite Hdr'. f_equal. f_equal. f_equal; lia.
  - destruct Hm as [[m Huv]|[m Hvu']]; [|rewrite Hvu in Hvu'; discriminate].
    rewrite Huv. destruct (Hs _ _ _ Huv) as [Hd Hdr].
    exists m. split; [reflexivity|]. split; [|exact Hdr].
    intros ->. discriminate.
Qed.

Lemma replay_captures {A} p (l : list A) motions :
  replay p (map (fun _ => CAPTURE) l ++ motions) = replay p motions.
Proof.
  induction l as [|a l IH]; [reflexivity|].
  change (replay p (CAPTURE :: map (fun _ => CAPTURE) l ++ motions)
          = replay p motions).
  unfold replay at 1. fold replay. destruct (decide (CAPTURE = CAPTURE)) as [_|Hn];
    [exact IH | contradiction].
Qed.

Lemma replay_drive (u v : pose) m motions poses :
  m ≠ CAPTURE →
  drive u.2 m = Some (v.1.1 - u.1.1, v.1.2 - u.1.2, v.2) →
  replay v motions = Some poses →
  replay u (m :: motions) = Some (v :: poses).
Proof.
  intros Hc Hd Hr. unfold replay at 1. fold replay.
  destruct (decide (m = CAPTURE)) as [E|_]; [contradiction|]. rewrite Hd.
  destruct u as [[ux uy] ud], v as [[vx vy] vd]. simpl in *.
  replace (ux + (vx - ux)) with vx by lia.
  replace (uy + (vy - uy)) with vy by lia.
  rewrite Hr. reflexivity.
Qed.

Lemma motion_loop_replay mt :
  motion_table_sound mt →
  ∀ rest first ms0 ids0,
    linked (has_motion mt) (map pose_of (first :: rest)) →
    Forall tagged rest →
    ∃ ms ids,
      motion_loop mt (ms0, ids0) (first :: rest) = Ok (ms0 ++ ms, ids0 ++ ids)
      ∧ replay (pose_of first) ms = Some (map pose_of rest).
Proof.
  intros Hs. induction rest as [|v rest IH]; intros u ms0 ids0 Hlink Htag.
  - exists [], []. rewrite !app_nil_r. split; reflexivity.
  - destruct Hlink as [Huv Hlink]. apply Forall_cons in Htag as [[l Hl] Htag].
    change (motion_loop mt (ms0, ids0) (u :: v :: rest)) with
      (motion_step mt (ms0, ids0) u v ≫= fun acc' => motion_loop mt acc' (v :: rest)).
    unfold motion_step.
    destruct (motion_resolution_drives mt (pose_of u) (pose_of v) Hs Huv)
      as (m & -> & Hc & Hdr).
    simpl. rewrite Hl. simpl.
    destruct (IH v ((ms0 ++ [m]) ++ map (fun _ => CAPTURE) l) (ids0 ++ l) Hlink Htag)
      as (ms & ids & -> & Hrep).
    exists (m :: map (fun _ => CAPTURE) l ++ ms), (l ++ ids).
    split.
    + f_equal. rewrite <- !app_assoc. reflexivity.
    + apply replay_drive; [exact Hc | exact Hdr|].
      rewrite replay_captures. exact Hrep.
Qed.

(** X13: the motions of a path replay it.  When the motion table is sound
    (each stored primitive leads from the first pose of its key to the
    second), the poses after the first carry tag lists and every two
    consecutive poses have one of their two keys in the table, then
    [optimal_path_to_motion_path] returns, and driving the returned
    primitives from the first pose passes through exactly the remaining
    poses of the path, in order. *)
Theorem optimal_path_to_motion_path_replay (s : MazeSolver)
    (first : CellState) (rest : list CellState) :
  motion_table_sound (motion_table s) →
  linked (has_motion (motion_table s)) (map pose_of (first :: rest)) →
  Forall tagged rest →
  ∃ motions ids,
    optimal_path_to_motion_path s (first :: rest) = Ok (motions, ids)
    ∧ replay (pose_of first) motions = Some (map pose_of rest).
Proof.
  intros Hs Hlink Htag. unfold optimal_path_to_motion_path.
  destruct (motion_loop_replay _ Hs rest first [] [] Hlink Htag)
    as (ms & ids & H & Hrep).
  exists ms, ids. split; [exact H | exact Hrep].
Qed.

(** ** What the search keeps of the motion table, continued *)

Lemma motion_table_extends_refl mt : motion_table_extends mt mt.
Proof. split; auto. Qed.

Lemma motion_table_extends_trans mt1 mt2 mt3 :
  motion_table_extends mt1 mt2 → motion_table_extends mt2 mt3 →
  motion_table_extends mt1 mt3.
Proof. intros [H1 H2] [H3 H4]. split; auto. Qed.

Lemma relax_extends g end_ visited x y d dist l st nb st' :
  _get_neighboring_states g x y d = Ok l → nb ∈ l →
  relax end_ visited x y d dist st nb = Ok st' →
  motion_table_extends (s_motion_table st) (s_motion_table st').
Proof.
  intros Hl Hin Hr. destruct nb as [[[[nx ny] nd] sc] m].
  unfold relax in Hr.
  destruct (decide ((nx, ny, nd) ∈ visited)) as [Hv|Hv].
  { injection Hr as <-. apply motion_table_extends_refl. }
  apply bind_Ok in Hr as (mc & Hmc & Hr).
  destruct (neighbor_in_spec _ _ _ _ _ _ Hl Hin) as (Hd & Hdr & _).
  pose proof (relax_motion_table (s_motion_table st) (x, y, d) (nx, ny, nd) m) as F.
  cbv zeta in F.
  match type of F with
  | (∀ k, _ → is_Some (?mt !! k)) ∧ _ => set (mt' := mt) in *
  end.
  destruct F as (Fmono & _ & Fsound).
  assert (Hext : motion_table_extends (s_motion_table st) mt').
  { split; [exact Fmono|]. intros Hs. apply Fsound; [exact Hs|]. split; assumption. }
  destruct (match g_dist st !! (nx, ny, nd) with
            | Some g0 => g0 >? dist + (mc + sc)
            | None => true
            end); injection Hr as <-; exact Hext.
Qed.

Lemma foldM_relax_extends g end_ visited x y d dist l nbs :
  ∀ st st',
    (∀ nb, nb ∈ nbs → nb ∈ l) →
    _get_neighboring_states g x y d = Ok l →
    foldM (relax end_ visited x y d dist) nbs st = Ok st' →
    motion_table_extends (s_motion_table st) (s_motion_table st').
Proof.
  induction nbs as [|nb nbs IH]; intros st st' Hsub Hl H; simpl in H.
  - injection H as <-. apply motion_table_extends_refl.
  - apply bind_Ok in H as (st1 & Hr & H).
    eapply motion_table_extends_trans.
    + eapply relax_extends; [exact Hl | apply Hsub, list_elem_of_here | exact Hr].
    + apply (IH st1 st'); [|exact Hl | exact H].
      intros nb' Hnb'. apply Hsub. now apply list_elem_of_further.
Qed.

Lemma astar_loop_extends fuel s start end_ chain_fuel :
  ∀ visited st s',
    astar_loop fuel s start end_ visited st chain_fuel = Ok s' →
    motion_table_extends (s_motion_table st) (motion_table s').
Proof.
  induction fuel as [|fuel IH]; intros visited st s' H; simpl in H.
  - destruct (heap st) as [|[[[f x] y] d] heap']; [|discriminate].
    injection H as <-. apply motion_table_extends_refl.
  - destruct (heap st) as [|[[[f x] y] d] heap'].
    { injection H as <-. apply motion_table_extends_refl. }
    destruct (decide ((x, y, d) ∈ visited)); [now apply IH in H|].
    destruct (is_eq end_ x y d).
    + apply bind_Ok in H as (cost & _ & H).
      unfold _record_path in H. apply bind_Ok in H as (path & _ & H).
      injection H as <-. apply motion_table_extends_refl.
    + apply bind_Ok in H as (dist & _ & H).
      apply bind_Ok in H as (nbs & Hnbs & H).
      apply bind_Ok in H as (st2 & Hfold & H).
      eapply motion_table_extends_trans; [|apply (IH _ _ _ H)].
      apply (foldM_relax_extends _ _ _ _ _ _ _ _ _ _ _ (fun nb Hnb => Hnb) Hnbs Hfold).
Qed.

Lemma astar_search_extends fuel s start end_ s' :
  _astar_search fuel s start end_ = Ok s' →
  motion_table_extends (motion_table s) (motion_table s').
Proof.
  unfold _astar_search. destruct (path_table s !! key_of start end_).
  - intros H. injection H as <-. apply motion_table_extends_refl.
  - intros H. apply astar_loop_extends in H. exact H.
Qed.

(** X14: the searches keep the motion table sound and never drop a key:
    after a search every primitive of the table still leads from the first
    pose of its key to the second, when that held before. *)
Theorem astar_search_sound (fuel : nat) (s : MazeSolver) (start end_ : CellState)
    (s' : MazeSolver) :
  motion_table_sound (motion_table s) →
  _astar_search fuel s start end_ = Ok s' →
  motion_table_sound (motion_table s')
  ∧ ∀ k, is_Some (motion_table s !! k) → is_Some (motion_table s' !! k).
Proof.
  intros Hs H. destruct (astar_search_extends _ _ _ _ _ H) as [Hmono Hsound].
  split; [apply Hsound; exact Hs | exact Hmono].
Qed.

(** ** The search never raises *)








(** ** The search terminates *)


















(** ** The enumeration of the slot assignments, continued *)

Lemma fold_left_pointwise {A B} (f g : A → B → A) (l : list B) :
  (∀ a b, f a b = g a b) → ∀ a, fold_left f l a = fold_left g l a.
Proof.
  intros Hfg. induction l as [|b l IH]; intros a; simpl; [reflexivity|].
  rewrite Hfg. apply IH.
Qed.

Lemma fold_left_append {A B} (h : B → list A) (l : list B) :
  ∀ res, fold_left (fun res i => res ++ h i) l res = res ++ concat (map h l).
Proof.
  induction l as [|b l IH]; intros res; simpl.
  - now rewrite app_nil_r.
  - rewrite IH, app_assoc. reflexivity.
Qed.

Lemma fold_left_unchanged {A B} (l : list B) (a : A) :
  fold_left (fun a _ => a) l a = a.
Proof. induction l; simpl; auto. Qed.

Lemma generate_combinations_all {A} (view_positions : list (list A)) :
  ∀ current result num_iters,
    num_iters < 0 ∨ Z.of_nat (length view_positions) <= num_iters →
    _generate_combinations view_positions current result num_iters
    = result ++ map (app current) (assignments view_positions).
Proof.
  induction view_positions as [|vp rest IH]; intros current result n Hn; simpl.
  - now rewrite app_nil_r.
  - destruct (Z.eqb_spec n 0) as [->|Hne]; [simpl in Hn; lia|].
    rewrite (fold_left_pointwise _
               (fun res i => res ++ map (app (current ++ [i])) (assignments rest))).
    + rewrite fold_left_append. f_equal.
      generalize (seq 0 (length vp)) as l. intros l.
      induction l as [|i l IHl]; simpl; [reflexivity|].
      rewrite map_app, <- IHl. f_equal.
      rewrite map_map. apply map_ext. intros a. now rewrite <- app_assoc.
    + intros res i. apply IH. simpl length in Hn. lia.
Qed.

Lemma generate_combinations_none {A} (view_positions : list (list A)) :
  ∀ current result num_iters,
    0 <= num_iters < Z.of_nat (length view_positions) →
    _generate_combinations view_positions current result num_iters = result.
Proof.
  induction view_positions as [|vp rest IH]; intros current result n Hn; simpl.
  - simpl in Hn. lia.
  - destruct (Z.eqb_spec n 0) as [->|Hne]; [reflexivity|].
    rewrite (fold_left_pointwise _ (fun res _ => res)).
    + apply fold_left_unchanged.
    + intros res i. apply IH. simpl length in Hn. lia.
Qed.

(** X17: [_generate_combinations] enumerates all or nothing.  With a budget
    that is at least the number of candidate lists, or negative, it appends
    to [result] every assignment of one index per list, each prefixed by
    [current], in lexicographic order; with a budget from 0 to below the
    number of lists it returns [result] as it was. *)
Theorem generate_combinations_spec {A} (view_positions : list (list A))
    (current : list nat) (result : list (list nat)) (num_iters : Z) :
  (num_iters < 0 ∨ Z.of_nat (length view_positions) <= num_iters →
   _generate_combinations view_positions current result num_iters
   = result ++ map (app current) (assignments view_positions))
  ∧ (0 <= num_iters < Z.of_nat (length view_positions) →
     _generate_combinations view_positions current result num_iters = result).
Proof.
  split; [apply generate_combinations_all | apply generate_combinations_none].
Qed.

Lemma generate_combinations_spec_witness :
  _generate_combinations [[true; false]; [true; true; false]] [] [] ITERATIONS
  = [[0; 0]; [0; 1]; [0; 2]; [1; 0]; [1; 1]; [1; 2]]%nat
  ∧ _generate_combinations [[true; false]; [true; true; false]] [] [] 1 = [].
Proof.
  split.
  - apply (proj1 (generate_combinations_spec
                    [[true; false]; [true; true; false]] [] [] ITERATIONS)).
    right. vm_compute. discriminate.
  - apply (proj2 (generate_combinations_spec
                    [[true; false]; [true; true; false]] [] [] 1)).
    simpl. lia.
Defined.

(** ** The side of the obstacle in the picture *)

(** X18: [_get_capture_relative_position] raises [ValueError] exactly for a
    pose without heading.  For a heading the label is "C" exactly when the
    obstacle is straight ahead of the pose, "L" when it is to the left of
    the heading and "R" when it is to the right; an obstacle on the line of
    the heading but not ahead gets "R" for a north or west heading and "L"
    for a south or east one.  Seen from the viewing slots of an obstacle,
    the slots straight ahead give "C", slot 1 gives "L" and slot 2 "R" for
    an obstacle facing north, south or east, and the other way round for one
    facing west. *)
Theorem capture_relative_position_spec (c : CellState) (o : Obstacle) :
  (_get_capture_relative_position c o = Raise ValueError ↔ cs_direction c = SKIP)
  ∧ (cs_direction c ≠ SKIP →
     ∃ label,
       _get_capture_relative_position c o = Ok label
       ∧ (label = "C"%string ↔ side_of c o = 0 ∧ 0 < ahead_of c o)
       ∧ (0 < side_of c o → label = "L"%string)
       ∧ (side_of c o < 0 → label = "R"%string)
       ∧ (side_of c o = 0 → ahead_of c o <= 0 →
          label = if decide (cs_direction c = NORTH ∨ cs_direction c = WEST)
                  then "R"%string else "L"%string))
  ∧ (ob_direction o ≠ SKIP →
     cs_direction c = opposite_direction (ob_direction o) →
     ∀ side forward penalty,
       0 < forward →
       (cs_x c, cs_y c, penalty) = slot_at o side forward penalty →
       _get_capture_relative_position c o
       = Ok (if side =? 0 then "C"%string
             else if (0 <? side) && negb (bool_decide (ob_direction o = WEST))
                     || (side <? 0) && bool_decide (ob_direction o = WEST)
                  then "L"%string else "R"%string)).
Proof.
  unfold _get_capture_relative_position, side_of, ahead_of.
  destruct c as [oid x y d scr pen], o as [ox oy od id]. simpl.
  split; [|split].
  - destruct d; simpl;
      repeat match goal with |- context [if ?b then _ else _] => destruct b end;
      split; intros ?; try discriminate; reflexivity.
  - intros Hd. destruct d; try contradiction; simpl;
      repeat match goal with
             | |- context [(?a =? ?b)] => destruct (Z.eqb_spec a b)
             | |- context [(?a >? ?b)] => destruct (Z.gtb_spec a b)
             | |- context [(?a <? ?b)] => destruct (Z.ltb_spec a b)
             end; simpl; eexists; (split; [reflexivity|]);
      (split; [split; [intros ?; try discriminate; lia | intros ?; try reflexivity; lia]|]);
      (split; [intros ?; try reflexivity; lia|]);
      (split; [intros ?; try reflexivity; lia|]);
      intros ? ?; try reflexivity; lia.
  - intros Hod Hdir side forward penalty Hf Hslot. subst d.
    unfold slot_at in Hslot. simpl in Hslot.
    destruct od; try contradiction; simpl in *; injection Hslot as -> ->;
      repeat match goal with
             | |- context [(?a =? ?b)] => destruct (Z.eqb_spec a b)
             | |- context [(?a >? ?b)] => destruct (Z.gtb_spec a b)
             | |- context [(?a <? ?b)] => destruct (Z.ltb_spec a b)
             end; simpl; try reflexivity; lia.
Qed.

Lemma capture_relative_position_spec_witness :
  _get_capture_relative_position
    (mkCellState 9%positive 6 9 SOUTH (ObsId 3) 100) (mkObstacle 7 5 NORTH 3)
  = Ok "L"%string.
Proof.
  apply (proj2 (proj2 (capture_relative_position_spec
           (mkCellState 9%positive 6 9 SOUTH (ObsId 3) 100)
           (mkObstacle 7 5 NORTH 3)))
           ltac:(discriminate) eq_refl 1 4 100 ltac:(lia) eq_refl).
Defined.

(** ** The search on the empty grid *)

Lemma search_goal_ahead_motions :
  match _astar_search 10 empty_solver (robot_start empty_solver) goal_ahead with
  | Ok s1 =>
      motion_table s1 !! ((1, 1, NORTH), (1, 2, NORTH)) = Some FORWARD
      ∧ motion_table s1 !! ((1, 2, NORTH), (1, 3, NORTH)) = Some FORWARD
  | _ => False
  end.
Proof. vm_compute. repeat split; reflexivity. Qed.

Lemma astar_search_path_witness :
  ∃ s1,
    _astar_search 10 empty_solver (robot_start empty_solver) goal_ahead = Ok s1
    ∧ ((path_table s1 = path_table empty_solver
        ∧ cost_table s1 = cost_table empty_solver)
       ∨ ∃ path cost,
           search_recorded empty_solver s1 (robot_start empty_solver) goal_ahead
             path cost
           ∧ head path = Some (1, 1, NORTH)
           ∧ last path = Some (1, 3, NORTH)
           ∧ linked (fun u v => edge (grid empty_solver) u v
                                ∧ has_motion (motion_table s1) u v) path).
Proof.
  pose proof search_goal_ahead as H.
  destruct (_astar_search 10 empty_solver (robot_start empty_solver) goal_ahead)
    as [s1| |] eqn:H1; try contradiction.
  exists s1. split; [reflexivity|].
  exact (astar_search_path _ _ _ _ _ H1).
Defined.

Lemma astar_search_cost_witness :
  ∃ s1,
    _astar_search 10 empty_solver (robot_start empty_solver) goal_ahead = Ok s1
    ∧ ((path_table s1 = path_table empty_solver
        ∧ cost_table s1 = cost_table empty_solver)
       ∨ ∃ path cost c0,
           search_recorded empty_solver s1 (robot_start empty_solver) goal_ahead
             path cost
           ∧ path_cost (grid empty_solver) path = Some c0
           ∧ cost = c0 + match path with
                         | _ :: _ :: _ => cs_penalty goal_ahead
                         | _ => 0
                         end).
Proof.
  pose proof search_goal_ahead as H.
  destruct (_astar_search 10 empty_solver (robot_start empty_solver) goal_ahead)
    as [s1| |] eqn:H1; try contradiction.
  exists s1. split; [reflexivity|].
  exact (astar_search_cost _ _ _ _ _ H1).
Defined.

Lemma astar_search_sound_witness :
  ∃ s1,
    _astar_search 10 empty_solver (robot_start empty_solver) goal_ahead = Ok s1
    ∧ motion_table_sound (motion_table s1).
Proof.
  pose proof search_goal_ahead as H.
  destruct (_astar_search 10 empty_solver (robot_start empty_solver) goal_ahead)
    as [s1| |] eqn:H1; try contradiction.
  exists s1. split; [reflexivity|].
  exact (proj1 (astar_search_sound 10 empty_solver (robot_start empty_solver)
                  goal_ahead s1 motion_table_sound_empty H1)).
Defined.

Lemma optimal_path_to_motion_path_replay_witness :
  ∃ s1 motions ids,
    _astar_search 10 empty_solver (robot_start empty_solver) goal_ahead = Ok s1
    ∧ optimal_path_to_motion_path s1
        [ robot_start empty_solver;
          mkCellState 10%positive 1 2 NORTH (Tags []) 0;
          mkCellState 11%positive 1 3 NORTH (Tags ["1_C"%string]) 0 ]
      = Ok (motions, ids)
    ∧ replay (1, 1, NORTH) motions = Some [(1, 2, NORTH); (1, 3, NORTH)].
Proof.
  pose proof search_goal_ahead_motions as H.
  destruct (_astar_search 10 empty_solver (robot_start empty_solver) goal_ahead)
    as [s1| |] eqn:H1; try contradiction.
  destruct H as [Hm1 Hm2].
  destruct (optimal_path_to_motion_path_replay s1 (robot_start empty_solver)
              [ mkCellState 10%positive 1 2 NORTH (Tags []) 0;
                mkCellState 11%positive 1 3 NORTH (Tags ["1_C"%string]) 0 ])
    as (motions & ids & Hrun & Hreplay).
  - apply (proj2 (astar_search_extends 10 empty_solver (robot_start empty_solver)
                    goal_ahead s1 H1)).
    exact motion_table_sound_empty.
  - split; [left; eexists; exact Hm1|]. split; [left; eexists; exact Hm2 | exact I].
  - repeat constructor; eexists; reflexivity.
  - exists s1, motions, ids. split; [reflexivity|]. split; [exact Hrun | exact Hreplay].
Defined.

(** ** Motions and directions on concrete values *)

Lemma opposite_motion_involutive_witness :
  ∃ m', opposite_motion FORWARD_RIGHT_TURN = Ok m'
        ∧ opposite_motion m' = Ok FORWARD_RIGHT_TURN
        ∧ Motion_value FORWARD_RIGHT_TURN + Motion_value m' = 10.
Proof.
  destruct (opposite_motion_involutive FORWARD_RIGHT_TURN)
    as (m' & H1 & H2 & _ & _ & H3).
  exists m'. split; [exact H1|]. split; [exact H2|].
  exact (proj1 (H3 ltac:(discriminate))).
Defined.

Lemma rotation_cost_spec_witness :
  rotation_cost NORTH SOUTH = Raise ValueError
  ∧ rotation_cost EAST NORTH = Ok 1.
Proof.
  destruct (rotation_cost_spec NORTH SOUTH) as (_ & H1 & _).
  destruct (rotation_cost_spec EAST NORTH) as (_ & _ & _ & H2 & _).
  split.
  - apply H1. right. right. reflexivity.
  - apply H2. repeat split; discriminate.
Defined.
